(** * Sweep-line range aggregation: [src/process/aggregator.ts]

    A shallow embedding of the [Aggregator] class and the properties its
    specification states about it.

    Modelling choices.
    - Coordinates.  The code only ever compares coordinates (the tree's
      default comparator uses [<] and [>]); it never computes with them.
      Finite numbers are therefore modelled as [Z] with its order.
    - The ordered map.  [functional-red-black-tree] is an external package.
      Its trees are modelled by their in-order sequence of entries, which is
      what [begin]/[next] traverse: [RBTree.get], [RBTree.remove] and
      [RBTree.insert] act on that sequence.
    - [nodeValues] is a JavaScript [Map]: it iterates in insertion order, [set]
      on a present key keeps the key's position, [delete] drops the entry.
      It is an association list ([JsMap]).
    - Callbacks may throw.  A computation is a pair of the callback
      invocations made so far (in order) and either a value or the thrown
      exception; there is no [try]/[catch] in the class, so [bind] stops at
      the first exception.
    - Object identity.  What successive calls can see of each other is
      settled on a second embedding of the class ([Store]), in which the
      instance and the objects a call creates and mutates are cells of a
      heap that all calls share; it is proved to do what the first one
      does. *)

From Stdlib Require Import List ZArith Lia Bool Arith PeanoNat Sorted Permutation.
From Stdlib Require String.
Import ListNotations.

(* ================================================================== *)
(** * Data model *)
(* ================================================================== *)

(** [interface Block { start, end, value }]; also the shape of the object
    handed to [itemPostProcessor], there with the aggregated value. *)
Record Block (V : Type) : Type := mkBlock {
  start : Z;
  end_ : Z;
  value : V
}.
Arguments mkBlock {V} _ _ _.
Arguments start {V} _.
Arguments end_ {V} _.
Arguments value {V} _.

(** [interface NodeValue { start: Array<{[key]: any}>, end: Array<number> }].
    An element [{[i]: v}] of [start] is the pair [(i, v)]. *)
Record NodeValue (V : Type) : Type := mkNodeValue {
  nstart : list (nat * V);
  nend : list nat
}.
Arguments mkNodeValue {V} _ _.
Arguments nstart {V} _.
Arguments nend {V} _.

(** [Aggregator.emptyNodeValue()] *)
Definition emptyNodeValue {V : Type} : NodeValue V := mkNodeValue [] [].

(** The two uses of [nodeValue[property].push(value)]: property ['start']
    with value [{[i]: v}], property ['end'] with value [i]. *)
Inductive Pushed (V : Type) : Type :=
| AtStart (i : nat) (v : V)
| AtEnd (i : nat).
Arguments AtStart {V} _ _.
Arguments AtEnd {V} _.

Definition push {V : Type} (nodeValue : NodeValue V) (x : Pushed V) : NodeValue V :=
  match x with
  | AtStart i v => mkNodeValue (nstart nodeValue ++ [(i, v)]) (nend nodeValue)
  | AtEnd i => mkNodeValue (nstart nodeValue) (nend nodeValue ++ [i])
  end.

(** What a call returns: a value, or the exception it threw. *)
Inductive result (E X : Type) : Type :=
| Ok (x : X)
| Raise (e : E).
Arguments Ok {E X} _.
Arguments Raise {E X} _.

(* ------------------------------------------------------------------ *)
(** ** The ordered map, as its in-order entry sequence *)
(* ------------------------------------------------------------------ *)

Module RBTree.

Definition t (X : Type) : Type := list (Z * X).

(** [createRBTree()] *)
Definition empty {X : Type} : t X := [].

(** [tree.get(key)]: the value stored under [key], or [undefined]. *)
Fixpoint get {X : Type} (tree : t X) (key : Z) : option X :=
  match tree with
  | [] => None
  | (k, x) :: rest => if Z.eqb key k then Some x else get rest key
  end.

(** [tree.remove(key)]: drops one entry stored under [key], if there is one. *)
Fixpoint remove {X : Type} (tree : t X) (key : Z) : t X :=
  match tree with
  | [] => []
  | (k, x) :: rest => if Z.eqb key k then rest else (k, x) :: remove rest key
  end.

(** [tree.insert(key, value)]: adds an entry; the descent goes left on
    [key <= k], so the entry lands before the first key that is not smaller. *)
Fixpoint insert {X : Type} (tree : t X) (key : Z) (x : X) : t X :=
  match tree with
  | [] => [(key, x)]
  | (k, y) :: rest =>
      if Z.leb key k then (key, x) :: (k, y) :: rest
      else (k, y) :: insert rest key x
  end.

Definition keys {X : Type} (tree : t X) : list Z := map fst tree.

End RBTree.

(* ------------------------------------------------------------------ *)
(** ** [Map<number, any>] in insertion order *)
(* ------------------------------------------------------------------ *)

Module JsMap.

Definition t (V : Type) : Type := list (nat * V).

(** [new Map()] *)
Definition empty {V : Type} : t V := [].

(** [m.set(key, v)] *)
Fixpoint set {V : Type} (m : t V) (key : nat) (v : V) : t V :=
  match m with
  | [] => [(key, v)]
  | (k, w) :: rest =>
      if Nat.eqb key k then (k, v) :: rest else (k, w) :: set rest key v
  end.

(** [m.delete(key)] *)
Fixpoint delete {V : Type} (m : t V) (key : nat) : t V :=
  match m with
  | [] => []
  | (k, w) :: rest =>
      if Nat.eqb key k then rest else (k, w) :: delete rest key
  end.

(** [m.size] *)
Definition size {V : Type} (m : t V) : nat := length m.

(** [Array.from(m.values())] *)
Definition values {V : Type} (m : t V) : list V := map snd m.

Definition ids {V : Type} (m : t V) : list nat := map fst m.

End JsMap.

(* ================================================================== *)
(** * The class *)
(* ================================================================== *)

Section Model.

Variables Item V A R Exn : Type.

(** Callback invocations, in the order they happen.  [EvAgg] records the
    Active Set at the call; the argument passed is [JsMap.values] of it. *)
Inductive Event : Type :=
| EvPre (item : Item)
| EvAgg (active : JsMap.t V)
| EvPost (block : Block A).

Definition M (X : Type) : Type := (list Event * result Exn X)%type.

Definition ret {X : Type} (x : X) : M X := ([], Ok x).

Definition bind {X Y : Type} (m : M X) (k : X -> M Y) : M Y :=
  match m with
  | (tr, Ok x) => let (tr', r) := k x in (tr ++ tr', r)
  | (tr, Raise e) => (tr, Raise e)
  end.

(** The three [private readonly] fields of an instance. *)
Record Aggregator : Type := mkAggregator {
  itemPreProcessor : Item -> result Exn (Block V);
  aggregationFunction : list V -> result Exn A;
  itemPostProcessor : Block A -> result Exn R
}.

Variable this : Aggregator.

Definition call_pre (item : Item) : M (Block V) :=
  ([EvPre item], itemPreProcessor this item).

Definition call_agg (nodeValues : JsMap.t V) : M A :=
  ([EvAgg nodeValues], aggregationFunction this (JsMap.values nodeValues)).

Definition call_post (block : Block A) : M R :=
  ([EvPost block], itemPostProcessor this block).

(** [Aggregator.pushValueToNode(tree, key, value, property)] *)
Definition pushValueToNode (tree : RBTree.t (NodeValue V)) (key : Z)
    (x : Pushed V) : RBTree.t (NodeValue V) :=
  let nodeValue :=
    match RBTree.get tree key with
    | Some nodeValue => nodeValue
    | None => emptyNodeValue
    end in
  RBTree.insert (RBTree.remove tree key) key (push nodeValue x).

(** The [for (const [i, item] of items.entries())] loop of
    [createRedBlackTree]. *)
Fixpoint createRedBlackTree_loop (i : nat) (items : list Item)
    (redBlackTree : RBTree.t (NodeValue V)) : M (RBTree.t (NodeValue V)) :=
  match items with
  | [] => ret redBlackTree
  | item :: rest =>
      bind (call_pre item) (fun block =>
        let redBlackTree :=
          pushValueToNode redBlackTree (start block) (AtStart i (value block)) in
        let redBlackTree :=
          pushValueToNode redBlackTree (end_ block) (AtEnd i) in
        createRedBlackTree_loop (S i) rest redBlackTree)
  end.

Definition createRedBlackTree (items : list Item) : M (RBTree.t (NodeValue V)) :=
  createRedBlackTree_loop 0 items RBTree.empty.

(** The two [forEach] passes over a node: arrivals, then departures. *)
Definition arrive (nodeValues : JsMap.t V) (nv : NodeValue V) : JsMap.t V :=
  fold_left (fun m val => JsMap.set m (fst val) (snd val)) (nstart nv) nodeValues.

Definition depart (nodeValues : JsMap.t V) (nv : NodeValue V) : JsMap.t V :=
  fold_left (fun m val => JsMap.delete m val) (nend nv) nodeValues.

Definition visit (nodeValues : JsMap.t V) (nv : NodeValue V) : JsMap.t V :=
  depart (arrive nodeValues nv) nv.

(** The [while (iterator.hasNext)] loop of [aggregate].  The iterator stands
    on the head of [nodes]; [hasNext] holds when a further entry follows, and
    after [iterator.next()] the key read is that entry's. *)
Fixpoint aggregate_loop (nodes : RBTree.t (NodeValue V)) (nodeValues : JsMap.t V)
    (output : list R) : M (list R) :=
  match nodes with
  | [] => ret output
  | (start_, nv) :: rest =>
      match rest with
      | [] => ret output
      | (next_key, _) :: _ =>
          let nodeValues := visit nodeValues nv in
          if Nat.eqb (JsMap.size nodeValues) 0 then
            aggregate_loop rest nodeValues output
          else
            bind (call_agg nodeValues) (fun aggregated =>
            bind (call_post (mkBlock start_ next_key aggregated)) (fun r =>
            aggregate_loop rest nodeValues (output ++ [r])))
      end
  end.

(** [aggregate(items)] *)
Definition aggregate (items : list Item) : M (list R) :=
  bind (createRedBlackTree items) (fun redBlackTree =>
    aggregate_loop redBlackTree JsMap.empty []).

End Model.

Arguments EvPre {Item V A} _.
Arguments EvAgg {Item V A} _.
Arguments EvPost {Item V A} _.
Arguments ret {Item V A Exn X} _.
Arguments bind {Item V A Exn X Y} _ _.
Arguments mkAggregator {Item V A R Exn} _ _ _.
Arguments itemPreProcessor {Item V A R Exn} _ _.
Arguments aggregationFunction {Item V A R Exn} _ _.
Arguments itemPostProcessor {Item V A R Exn} _ _.
Arguments call_pre {Item V A R Exn} _ _.
Arguments call_agg {Item V A R Exn} _ _.
Arguments call_post {Item V A R Exn} _ _.
Arguments pushValueToNode {V} _ _ _.
Arguments createRedBlackTree_loop {Item V A R Exn} _ _ _ _.
Arguments createRedBlackTree {Item V A R Exn} _ _.
Arguments arrive {V} _ _.
Arguments depart {V} _ _.
Arguments visit {V} _ _.
Arguments aggregate_loop {Item V A R Exn} _ _ _ _.
Arguments aggregate {Item V A R Exn} _ _.

Notation "x <- m ;; k" := (bind m (fun x => k))
  (at level 61, m at next level, right associativity).

(* ================================================================== *)
(** * Vocabulary of the specification *)
(* ================================================================== *)

(** [new Aggregator(pre, agg, post)] with callbacks that never throw. *)
Definition pure_aggregator {Item V A R : Type} (Exn : Type)
    (pre : Item -> Block V) (agg : list V -> A) (post : Block A -> R)
  : Aggregator Item V A R Exn :=
  mkAggregator (fun item => Ok (pre item)) (fun values => Ok (agg values))
               (fun block => Ok (post block)).

(** Half-open coverage: [p] lies in [[start, end)]. *)
Definition covers {V : Type} (b : Block V) (p : Z) : Prop :=
  (start b <= p /\ p < end_ b)%Z.

Definition coversb {V : Type} (b : Block V) (p : Z) : bool :=
  (Z.leb (start b) p && Z.ltb p (end_ b))%bool.

(** The blocks handed to the formatter, in call order. *)
Fixpoint emitted {Item V A : Type} (tr : list (Event Item V A)) : list (Block A) :=
  match tr with
  | [] => []
  | EvPost b :: rest => b :: emitted rest
  | _ :: rest => emitted rest
  end.

(** Each aggregation call that was followed by its formatter call: the
    Active Set aggregated and the block built from the result. *)
Fixpoint emissions {Item V A : Type} (tr : list (Event Item V A))
  : list (JsMap.t V * Block A) :=
  match tr with
  | [] => []
  | EvAgg m :: rest =>
      match rest with
      | EvPost b :: rest' => (m, b) :: emissions rest'
      | _ => emissions rest
      end
  | _ :: rest => emissions rest
  end.

(** The Active Sets on which the aggregation function was called. *)
Fixpoint aggregations {Item V A : Type} (tr : list (Event Item V A))
  : list (JsMap.t V) :=
  match tr with
  | [] => []
  | EvAgg m :: rest => m :: aggregations rest
  | _ :: rest => aggregations rest
  end.

Definition is_pre {Item V A : Type} (ev : Event Item V A) : Prop :=
  match ev with EvPre _ => True | _ => False end.

(** Outcome of the callback invocation an event records. *)
Definition raises {Item V A R Exn : Type} (this : Aggregator Item V A R Exn)
    (ev : Event Item V A) (e : Exn) : Prop :=
  match ev with
  | EvPre item => itemPreProcessor this item = Raise e
  | EvAgg m => aggregationFunction this (JsMap.values m) = Raise e
  | EvPost b => itemPostProcessor this b = Raise e
  end.

Definition returns {Item V A R Exn : Type} (this : Aggregator Item V A R Exn)
    (ev : Event Item V A) : Prop :=
  match ev with
  | EvPre item => exists b, itemPreProcessor this item = Ok b
  | EvAgg m => exists a, aggregationFunction this (JsMap.values m) = Ok a
  | EvPost b => exists r, itemPostProcessor this b = Ok r
  end.

(** Items paired with their ordinal position, counted from [i]. *)
Fixpoint enum {X : Type} (i : nat) (l : list X) : list (nat * X) :=
  match l with
  | [] => []
  | x :: rest => (i, x) :: enum (S i) rest
  end.

(** What the index is expected to hold at key [k] for numbered blocks. *)
Definition arrivals {V : Type} (ibs : list (nat * Block V)) (k : Z)
  : list (nat * V) :=
  map (fun ib => (fst ib, value (snd ib)))
      (filter (fun ib => Z.eqb (start (snd ib)) k) ibs).

Definition departures {V : Type} (ibs : list (nat * Block V)) (k : Z)
  : list nat :=
  map fst (filter (fun ib => Z.eqb (end_ (snd ib)) k) ibs).

Definition node_at {V : Type} (ibs : list (nat * Block V)) (k : Z) : NodeValue V :=
  mkNodeValue (arrivals ibs k) (departures ibs k).

Definition coords {V : Type} (ibs : list (nat * Block V)) : list Z :=
  flat_map (fun ib => [start (snd ib); end_ (snd ib)]) ibs.

(** The index built from blocks that are already normalized. *)
Fixpoint build_index {V : Type} (i : nat) (blocks : list (Block V))
    (tree : RBTree.t (NodeValue V)) : RBTree.t (NodeValue V) :=
  match blocks with
  | [] => tree
  | b :: rest =>
      build_index (S i) rest
        (pushValueToNode (pushValueToNode tree (start b) (AtStart i (value b)))
                         (end_ b) (AtEnd i))
  end.

(** The spans the loop walks through: two consecutive keys and the Active
    Set after the visit of the first. *)
Record Span (V : Type) : Type := mkSpan {
  sp_start : Z;
  sp_end : Z;
  sp_active : JsMap.t V
}.
Arguments mkSpan {V} _ _ _.
Arguments sp_start {V} _.
Arguments sp_end {V} _.
Arguments sp_active {V} _.

Fixpoint spans {V : Type} (nodes : RBTree.t (NodeValue V)) (nodeValues : JsMap.t V)
  : list (Span V) :=
  match nodes with
  | [] => []
  | (k, nv) :: rest =>
      match rest with
      | [] => []
      | (k', _) :: _ =>
          mkSpan k k' (visit nodeValues nv) :: spans rest (visit nodeValues nv)
      end
  end.

Definition live {V : Type} (sp : Span V) : bool :=
  negb (Nat.eqb (JsMap.size (sp_active sp)) 0).

Definition span_block {V A : Type} (agg : list V -> A) (sp : Span V) : Block A :=
  mkBlock (sp_start sp) (sp_end sp) (agg (JsMap.values (sp_active sp))).

Section Sweeps.

Variables Item V A R Exn : Type.
Variable this : Aggregator Item V A R Exn.

(** One emission: aggregate the Active Set, format the block. *)
Definition emit (sp : Span V) : M Item V A Exn R :=
  aggregated <- call_agg this (sp_active sp) ;;
  call_post this (mkBlock (sp_start sp) (sp_end sp) aggregated).

Fixpoint emit_all (sps : list (Span V)) (output : list R) : M Item V A Exn (list R) :=
  match sps with
  | [] => ret output
  | sp :: rest => r <- emit sp ;; emit_all rest (output ++ [r])
  end.

(** The scan as section 4.3 of the specification words it: at key [k],
    (a) arrivals, (b) departures, (c) if [previousKey] is defined and the
    Active Set is non-empty after (b), emit [{previousKey, k, aggregated}]
    for the Active Set as it is then, (d) [previousKey = k]. *)
Fixpoint scan_as_worded (nodes : RBTree.t (NodeValue V))
    (previousKey : option Z) (active : JsMap.t V) (output : list R)
  : M Item V A Exn (list R) :=
  match nodes with
  | [] => ret output
  | (k, nv) :: rest =>
      let active := visit active nv in
      match previousKey with
      | None => scan_as_worded rest (Some k) active output
      | Some pk =>
          if Nat.eqb (JsMap.size active) 0 then
            scan_as_worded rest (Some k) active output
          else
            aggregated <- call_agg this active ;;
            r <- call_post this (mkBlock pk k aggregated) ;;
            scan_as_worded rest (Some k) active (output ++ [r])
      end
  end.

(** The same scan with step (c) taken before (a) and (b): on reaching [k]
    the block [{previousKey, k, _}] is emitted for the Active Set as the
    visit of [previousKey] left it. *)
Fixpoint scan_previous (nodes : RBTree.t (NodeValue V))
    (previousKey : option Z) (active : JsMap.t V) (output : list R)
  : M Item V A Exn (list R) :=
  match nodes with
  | [] => ret output
  | (k, nv) :: rest =>
      match previousKey with
      | None => scan_previous rest (Some k) (visit active nv) output
      | Some pk =>
          if Nat.eqb (JsMap.size active) 0 then
            scan_previous rest (Some k) (visit active nv) output
          else
            aggregated <- call_agg this active ;;
            r <- call_post this (mkBlock pk k aggregated) ;;
            scan_previous rest (Some k) (visit active nv) (output ++ [r])
      end
  end.

End Sweeps.

Arguments emit {Item V A R Exn} _ _.
Arguments emit_all {Item V A R Exn} _ _ _.
Arguments scan_as_worded {Item V A R Exn} _ _ _ _ _.
Arguments scan_previous {Item V A R Exn} _ _ _ _ _.

(** The node the code works on for [key]: [tree.get(key)], or a fresh
    [emptyNodeValue()] when there is none. *)
Definition node_of {V : Type} (tree : RBTree.t (NodeValue V)) (key : Z)
  : NodeValue V :=
  match RBTree.get tree key with
  | Some nodeValue => nodeValue
  | None => emptyNodeValue
  end.

(** Keys strictly ascending along the traversal. *)
Definition ordered {X : Type} (tree : RBTree.t X) : Prop :=
  StronglySorted Z.lt (RBTree.keys tree).

(** The Active Set after the nodes of [done] have been visited in turn. *)
Definition visited {V : Type} (m : JsMap.t V) (done : RBTree.t (NodeValue V))
  : JsMap.t V :=
  fold_left (fun m kn => visit m (snd kn)) done m.

(** Two nodes' lists, one after the other. *)
Definition node_app {V : Type} (a b : NodeValue V) : NodeValue V :=
  mkNodeValue (nstart a ++ nstart b) (nend a ++ nend b).

(** The index of numbered blocks, written down directly: one entry per
    key of [ks], holding the blocks that start and end there. *)
Definition index_over {V : Type} (ibs : list (nat * Block V)) (ks : list Z)
  : RBTree.t (NodeValue V) :=
  map (fun k => (k, node_at ibs k)) ks.

(** The two callback invocations made for a span. *)
Definition span_events {Item V A : Type} (agg : list V -> A) (sp : Span V)
  : list (Event Item V A) :=
  [EvAgg (sp_active sp); EvPost (span_block agg sp)].

(** The spans with a non-empty Active Set, for blocks already normalized. *)
Definition live_spans {V : Type} (blocks : list (Block V)) : list (Span V) :=
  filter live (spans (build_index 0 blocks RBTree.empty) JsMap.empty).

(** Order between spans, and between emitted blocks. *)
Definition span_before {V : Type} (a b : Span V) : Prop :=
  (sp_end a <= sp_start b)%Z.

Definition span_meets {V : Type} (a b : Span V) : Prop :=
  sp_end a = sp_start b.

Definition block_before {A : Type} (a b : Block A) : Prop :=
  (end_ a <= start b)%Z.

(** Membership in the Active Set of a span, read off the blocks: the block
    has arrived, and its departure has not been visited since. *)
Definition active_in {V : Type} (ibs : list (nat * Block V)) (sp : Span V)
    (i : nat) (w : V) : Prop :=
  exists b, In (i, b) ibs /\ w = value b /\
            (start b <= sp_start sp)%Z /\
            (sp_end sp <= end_ b \/ end_ b < start b)%Z.

(** How a run can end: every invocation but the last returned, and the run
    ends in an exception exactly when its last invocation raised it. *)
Definition faithful {Item V A R Exn X : Type} (this : Aggregator Item V A R Exn)
    (m : M Item V A Exn X) : Prop :=
  match m with
  | (tr, Ok _) => Forall (returns this) tr
  | (tr, Raise e) =>
      exists tr' ev, tr = tr' ++ [ev] /\ Forall (returns this) tr' /\
                     raises this ev e
  end.






(** The coordinates of a list of blocks. *)
Definition block_coords {V : Type} (bs : list (Block V)) : list Z :=
  flat_map (fun b => [start b; end_ b]) bs.

(* ------------------------------------------------------------------ *)
(** ** Scenarios *)
(* ------------------------------------------------------------------ *)

(** Items that are blocks already, numeric payloads; the aggregation lists
    the payloads it is given and the formatter returns the block as is. *)
Definition listing : Aggregator (Block nat) nat (list nat) (Block (list nat)) unit :=
  pure_aggregator unit (fun b => b) (fun values => values) (fun b => b).

(** A = [0,10), B = [5,15). *)
Definition overlapping : list (Block nat) :=
  [mkBlock 0 10 1; mkBlock 5 15 2].

(** A = [0,5), B = [10,15). *)
Definition disjoint : list (Block nat) :=
  [mkBlock 0 5 1; mkBlock 10 15 2].

(** A = [0,10) and a zero-length block at 5. *)
Definition with_degenerate : list (Block nat) :=
  [mkBlock 0 10 1; mkBlock 5 5 2].

(** A = [0,10), a zero-length block at 5, B = [5,15). *)
Definition degenerate_on_key : list (Block nat) :=
  [mkBlock 0 10 1; mkBlock 5 5 3; mkBlock 5 15 2].

(** A normalizer that rejects blocks without [start < end], as section 7
    of the specification recommends. *)
Definition validating : Aggregator (Block nat) nat (list nat) (Block (list nat)) unit :=
  mkAggregator
    (fun b => if Z.ltb (start b) (end_ b) then Ok b else Raise tt)
    (fun values => Ok values)
    (fun b => Ok b).

(** An aggregation function that throws on overlaps. *)
Definition fragile : Aggregator (Block nat) nat (list nat) (Block (list nat)) unit :=
  mkAggregator
    (fun b => Ok b)
    (fun values => if Nat.leb 2 (length values) then Raise tt else Ok values)
    (fun b => Ok b).



(** A block from 10 to 0, which never leaves the Active Set, alone and
    with a zero-length block at 20. *)
Definition inverted_alone : list (Block nat) :=
  [mkBlock 10 0 1].

Definition degenerate_after_inverted : list (Block nat) :=
  [mkBlock 10 0 1; mkBlock 20 20 2].

(* ------------------------------------------------------------------ *)
(** ** Further vocabulary for the sweep *)
(* ------------------------------------------------------------------ *)

(** Block [i] enters the Active Set before block [j]: it starts earlier,
    or at the same coordinate and earlier in the input. *)
Definition arrives_before {V : Type} (ibs : list (nat * Block V)) (i j : nat)
  : Prop :=
  exists bi bj, In (i, bi) ibs /\ In (j, bj) ibs /\
    ((start bi < start bj)%Z \/ (start bi = start bj /\ i < j)).

(** The same order on numbered blocks themselves. *)
Definition block_arrives_before {V : Type} (x y : nat * Block V) : Prop :=
  (start (snd x) < start (snd y))%Z \/
  (start (snd x) = start (snd y) /\ fst x < fst y).

(** The payloads of numbered blocks, in the order of the list. *)
Definition payloads {V : Type} (act : list (nat * Block V)) : list V :=
  map (fun ib => value (snd ib)) act.



(** B = [20,30) and a block whose end, 0, lies before its start, 10. *)
Definition with_inverted : list (Block nat) :=
  [mkBlock 10 0 1; mkBlock 20 30 2].



(* ================================================================== *)
(** * The class on a heap *)
(* ================================================================== *)

(** The embedding above gives a call its own values.  Whether calls can
    reach each other's objects is a question about object identity, so here
    the class is written once more with the objects it creates and mutates
    kept in a heap shared by all calls: the instance, the [{start, end}]
    objects that [emptyNodeValue] returns and [pushValueToNode] mutates in
    place, the [Map] and the output [Array].  A [NodeValue] object is one
    cell: its two arrays are reached through it alone.  The tree is the
    persistent one of [functional-red-black-tree]: a value, whose entries
    hold references; its iterator is, as before, the position in the entry
    sequence.  Callbacks are as before: they are handed values, and do not
    reach the heap. *)

Module Store.

Section Model.

Variables Item V A R Exn : Type.

Inductive Obj : Type :=
| InstanceObj (fields : Aggregator Item V A R Exn)
| NodeValueObj (nodeValue : NodeValue V)
| MapObj (entries : JsMap.t V)
| ArrayObj (elements : list R).

(** References are positions in the heap; a new object goes at the end. *)
Definition Ref : Type := nat.
Definition t : Type := list Obj.

Definition load (h : t) (r : Ref) : option Obj := nth_error h r.

Fixpoint store (h : t) (r : Ref) (o : Obj) : t :=
  match h with
  | [] => []
  | x :: rest =>
      match r with
      | 0 => o :: rest
      | S r' => x :: store rest r' o
      end
  end.

(** How a computation completes: normally, by a thrown exception, or on a
    reference that does not hold the kind of object the code expects. *)
Inductive Completion (X : Type) : Type :=
| Normal (x : X)
| Throw (e : Exn)
| Wrong.
Arguments Normal {X} _.
Arguments Throw {X} _.
Arguments Wrong {X}.

(** A computation on the heap: the callback invocations made, the heap
    afterwards, and the completion. *)
Definition Run (X : Type) : Type :=
  t -> list (Event Item V A) * t * Completion X.

Definition ret {X : Type} (x : X) : Run X := fun h => ([], h, Normal x).

Definition bind {X Y : Type} (m : Run X) (k : X -> Run Y) : Run Y :=
  fun h =>
    match m h with
    | (tr, h', Normal x) =>
        match k x h' with
        | (tr', h'', c) => (tr ++ tr', h'', c)
        end
    | (tr, h', Throw e) => (tr, h', Throw e)
    | (tr, h', Wrong) => (tr, h', Wrong)
    end.

Definition wrong {X : Type} : Run X := fun h => ([], h, Wrong).

(** An object literal, [new Array], [new Map]. *)
Definition new (o : Obj) : Run Ref :=
  fun h => ([], h ++ [o], Normal (length h)).

Definition read (r : Ref) : Run Obj :=
  fun h =>
    match load h r with
    | Some o => ([], h, Normal o)
    | None => ([], h, Wrong)
    end.

Definition write (r : Ref) (o : Obj) : Run unit :=
  fun h =>
    if Nat.ltb r (length h) then ([], store h r o, Normal tt)
    else ([], h, Wrong).

(** A callback invocation. *)
Definition invoke {X : Type} (m : M Item V A Exn X) : Run X :=
  fun h =>
    match m with
    | (tr, Ok x) => (tr, h, Normal x)
    | (tr, Raise e) => (tr, h, Throw e)
    end.

(** The fields of [this]. *)
Definition fields (this : Ref) : Run (Aggregator Item V A R Exn) :=
  bind (read this) (fun o =>
    match o with InstanceObj f => ret f | _ => wrong end).

Definition nodeValue (r : Ref) : Run (NodeValue V) :=
  bind (read r) (fun o =>
    match o with NodeValueObj nv => ret nv | _ => wrong end).

Definition entries (r : Ref) : Run (JsMap.t V) :=
  bind (read r) (fun o =>
    match o with MapObj m => ret m | _ => wrong end).

Definition elements (r : Ref) : Run (list R) :=
  bind (read r) (fun o =>
    match o with ArrayObj l => ret l | _ => wrong end).

(** [new Aggregator(itemPreProcessor, aggregationFunction,
    itemPostProcessor)] *)
Definition construct (f : Aggregator Item V A R Exn) : Run Ref :=
  new (InstanceObj f).

(** [Aggregator.emptyNodeValue()]: a new object at each call. *)
Definition emptyNodeValue : Run Ref :=
  new (NodeValueObj (mkNodeValue [] [])).

(** [Aggregator.pushValueToNode(tree, key, value, property)]: the object
    found under [key], or else a new one, is mutated in place, and the same
    object is put back under [key]. *)
Definition pushValueToNode (tree : RBTree.t Ref) (key : Z) (x : Pushed V)
  : Run (RBTree.t Ref) :=
  bind (match RBTree.get tree key with
        | Some r => ret r
        | None => emptyNodeValue
        end) (fun r =>
  bind (nodeValue r) (fun nv =>
  bind (write r (NodeValueObj (push nv x))) (fun _ =>
  ret (RBTree.insert (RBTree.remove tree key) key r)))).

(** The loop of [createRedBlackTree]. *)
Fixpoint createRedBlackTree_loop (this : Ref) (i : nat) (items : list Item)
    (redBlackTree : RBTree.t Ref) : Run (RBTree.t Ref) :=
  match items with
  | [] => ret redBlackTree
  | item :: rest =>
      bind (fields this) (fun f =>
      bind (invoke (call_pre f item)) (fun block =>
      bind (pushValueToNode redBlackTree (start block)
              (AtStart i (value block))) (fun redBlackTree =>
      bind (pushValueToNode redBlackTree (end_ block) (AtEnd i))
           (fun redBlackTree =>
      createRedBlackTree_loop this (S i) rest redBlackTree))))
  end.

Definition createRedBlackTree (this : Ref) (items : list Item)
  : Run (RBTree.t Ref) :=
  createRedBlackTree_loop this 0 items RBTree.empty.

(** [array.forEach(body)] *)
Fixpoint forEach {X : Type} (array : list X) (body : X -> Run unit)
  : Run unit :=
  match array with
  | [] => ret tt
  | x :: rest => bind (body x) (fun _ => forEach rest body)
  end.

(** [nodeValues.set(key, v)], [nodeValues.delete(key)], [output.push(r)] *)
Definition map_set (nodeValues : Ref) (key : nat) (v : V) : Run unit :=
  bind (entries nodeValues) (fun m =>
  write nodeValues (MapObj (JsMap.set m key v))).

Definition map_delete (nodeValues : Ref) (key : nat) : Run unit :=
  bind (entries nodeValues) (fun m =>
  write nodeValues (MapObj (JsMap.delete m key))).

Definition array_push (output : Ref) (r : R) : Run unit :=
  bind (elements output) (fun l =>
  write output (ArrayObj (l ++ [r]))).

(** The [while (iterator.hasNext)] loop of [aggregate]. *)
Fixpoint aggregate_loop (this : Ref) (nodes : RBTree.t Ref)
    (nodeValues output : Ref) : Run unit :=
  match nodes with
  | [] => ret tt
  | (start_, node) :: rest =>
      match rest with
      | [] => ret tt
      | (next_key, _) :: _ =>
          bind (nodeValue node) (fun value_ =>
          bind (forEach (nstart value_)
                  (fun val => map_set nodeValues (fst val) (snd val)))
               (fun _ =>
          bind (nodeValue node) (fun value_ =>
          bind (forEach (nend value_)
                  (fun val => map_delete nodeValues val)) (fun _ =>
          bind (entries nodeValues) (fun m =>
          if Nat.eqb (JsMap.size m) 0 then
            aggregate_loop this rest nodeValues output
          else
            bind (fields this) (fun f =>
            bind (invoke (call_agg f m)) (fun aggregated =>
            bind (fields this) (fun f =>
            bind (invoke (call_post f (mkBlock start_ next_key aggregated)))
                 (fun r =>
            bind (array_push output r) (fun _ =>
            aggregate_loop this rest nodeValues output))))))))))
      end
  end.

(** [this.aggregate(items)]; the result is the reference returned. *)
Definition aggregate (this : Ref) (items : list Item) : Run Ref :=
  bind (new (ArrayObj [])) (fun output =>
  bind (new (MapObj JsMap.empty)) (fun nodeValues =>
  bind (createRedBlackTree this items) (fun redBlackTree =>
  bind (aggregate_loop this redBlackTree nodeValues output) (fun _ =>
  ret output)))).

(** A caller's successive calls on [this], going on after an exception:
    what each call did and how it completed, and the heap in the end. *)
Fixpoint session (this : Ref) (inputs : list (list Item)) (h : t)
  : list (list (Event Item V A) * Completion Ref) * t :=
  match inputs with
  | [] => ([], h)
  | items :: rest =>
      match aggregate this items h with
      | (tr, h', c) =>
          match session this rest h' with
          | (results, h'') => ((tr, c) :: results, h'')
          end
      end
  end.

(** What a caller has of a call once the session is over: the invocations
    it made and, in the heap as it is then, the elements of the array it
    returned, or the exception. *)
Definition observed (h : t) (res : list (Event Item V A) * Completion Ref)
  : list (Event Item V A) * option (result Exn (list R)) :=
  (fst res,
   match snd res with
   | Normal output =>
       match load h output with
       | Some (ArrayObj l) => Some (Ok l)
       | _ => None
       end
   | Throw e => Some (Raise e)
   | Wrong => None
   end).

(** The arrays the calls returned. *)
Definition returned (results : list (list (Event Item V A) * Completion Ref))
  : list Ref :=
  flat_map (fun res => match snd res with
                       | Normal output => [output]
                       | _ => []
                       end) results.

End Model.

Arguments InstanceObj {Item V A R Exn} _.
Arguments NodeValueObj {Item V A R Exn} _.
Arguments MapObj {Item V A R Exn} _.
Arguments ArrayObj {Item V A R Exn} _.
Arguments load {Item V A R Exn} _ _.
Arguments store {Item V A R Exn} _ _ _.
Arguments Normal {Exn X} _.
Arguments Throw {Exn X} _.
Arguments Wrong {Exn X}.
Arguments ret {Item V A R Exn X} _ _.
Arguments bind {Item V A R Exn X Y} _ _ _.
Arguments wrong {Item V A R Exn X} _.
Arguments new {Item V A R Exn} _ _.
Arguments read {Item V A R Exn} _ _.
Arguments write {Item V A R Exn} _ _ _.
Arguments invoke {Item V A R Exn X} _ _.
Arguments fields {Item V A R Exn} _ _.
Arguments nodeValue {Item V A R Exn} _ _.
Arguments entries {Item V A R Exn} _ _.
Arguments elements {Item V A R Exn} _ _.
Arguments construct {Item V A R Exn} _ _.
Arguments emptyNodeValue {Item V A R Exn} _.
Arguments pushValueToNode {Item V A R Exn} _ _ _ _.
Arguments createRedBlackTree_loop {Item V A R Exn} _ _ _ _ _.
Arguments createRedBlackTree {Item V A R Exn} _ _ _.
Arguments forEach {Item V A R Exn X} _ _ _.
Arguments map_set {Item V A R Exn} _ _ _ _.
Arguments map_delete {Item V A R Exn} _ _ _.
Arguments array_push {Item V A R Exn} _ _ _.
Arguments aggregate_loop {Item V A R Exn} _ _ _ _ _.
Arguments aggregate {Item V A R Exn} _ _ _.
Arguments session {Item V A R Exn} _ _ _.
Arguments observed {Item V A R Exn} _ _.
Arguments returned {Item V A Exn} _.

End Store.

(** Scenarios on the heap: [listing] constructed in a heap that holds an
    array already; the instance is at position 1. *)
Definition listing_heap
  : Store.t (Block nat) nat (list nat) (Block (list nat)) unit :=
  snd (fst (Store.construct listing [Store.ArrayObj [mkBlock 0 1 [7]]])).

(** The tree of references [ht] stands for the tree of node values [pt] in
    the heap [h]: same keys in the same order, each reference holding the
    node value of its key; no two entries share an object, and every
    object was created at or after position [lb]. *)
Definition holds {Item V A R Exn : Type} (h : Store.t Item V A R Exn)
    (a : Z * Store.Ref) (b : Z * NodeValue V) : Prop :=
  fst a = fst b /\ Store.load h (snd a) = Some (Store.NodeValueObj (snd b)).

Definition tree_in {Item V A R Exn : Type} (lb : nat)
    (h : Store.t Item V A R Exn) (ht : RBTree.t Store.Ref)
    (pt : RBTree.t (NodeValue V)) : Prop :=
  Forall2 (holds h) ht pt /\ NoDup (map snd ht) /\
  Forall (fun a => lb <= snd a) ht.

(* ================================================================== *)
(** * The write buffer: [src/aws/dynamodb/write-buffer.ts] *)
(* ================================================================== *)

(** [put] and [flush] are [async]; they are modelled for a caller that
    awaits each call before making the next, so that no two calls overlap.
    The DynamoDB client is the environment: [batchWriteItem] takes the state
    of the service and the request, and answers with the new state and the
    [err] its callback receives ([None] for a falsy [err]).  The only use
    made of an [err] is [err.message].  [onFlush] is given by its outcome. *)

Module WriteBuffer.
Import String.

(** A JS number, as far as the class can tell.  The only use [put] makes of
    [maxWriteBatchSize] is [this.buffer.length === this.maxWriteBatchSize],
    and an array length is a whole number: a whole limit is kept as it is,
    and every other number (a fraction such as 2.5, NaN, an infinity) is
    [NonIntegral], which is [===] to no length. *)
Inductive Number : Type :=
| Integral (z : Z)
| NonIntegral.

(** [length === limit] for an array length. *)
Definition length_strict_eq (length : nat) (limit : Number) : bool :=
  match limit with
  | Integral z => Z.eqb (Z.of_nat length) z
  | NonIntegral => false
  end.

Section Model.

Variables Item Err Db : Type.
Variable message : Err -> String.string.

(** [{PutRequest: {Item: requestItem}}] *)
Record PutRequest : Type := mkPutRequest { Item_ : Item }.
Record WriteRequest : Type := mkWriteRequest { PutRequest_ : PutRequest }.

(** [{RequestItems: {[table]: requestItems}}]: an object with one key. *)
Record BatchWriteItemInput : Type := mkInput {
  RequestItems : list (String.string * list WriteRequest)
}.

Definition Client : Type := Db -> BatchWriteItemInput -> Db * option Err.

(** The fields of an instance.  [maxWriteBatchSize] is a JS number, and
    nothing makes it a whole one. *)
Record t : Type := mkWriteBuffer {
  table : String.string;
  dynamoDbInstance : Client;
  maxWriteBatchSize : Number;
  buffer : list Item
}.

(** [new WriteBuffer(table, dynamoDbInstance, maxWriteBatchSize = 25)] *)
Definition create (table : String.string) (dynamoDbInstance : Client)
    (maxWriteBatchSize : option Number) : t :=
  mkWriteBuffer table dynamoDbInstance
    (match maxWriteBatchSize with Some n => n | None => Integral 25 end) [].

Definition set_buffer (wb : t) (buffer : list Item) : t :=
  mkWriteBuffer (table wb) (dynamoDbInstance wb) (maxWriteBatchSize wb) buffer.

(** What a call does to the outside. *)
Inductive Event : Type :=
| BatchWriteItem (params : BatchWriteItemInput) (err : option Err)
| ConsoleError (text : String.string)
| OnFlush.

(** Outcome of a call: what it did, the service and the instance
    afterwards, and whether the promise resolved or rejected. *)
Definition Outcome : Type := (list Event * Db * t * result Err unit)%type.

(** [params()] *)
Definition params (wb : t) : BatchWriteItemInput :=
  mkInput [(table wb,
            map (fun requestItem => mkWriteRequest (mkPutRequest requestItem))
                (buffer wb))].

(** [length()] *)
Definition length (wb : t) : nat := List.length (buffer wb).

(** [flush()] *)
Definition flush (db : Db) (wb : t) : Outcome :=
  if Nat.ltb 0 (List.length (buffer wb)) then
    let (db', err) := dynamoDbInstance wb db (params wb) in
    match err with
    | Some e =>
        ([BatchWriteItem (params wb) (Some e);
          ConsoleError (String.append "Error: "%string (message e))],
         db', wb, Raise e)
    | None =>
        ([BatchWriteItem (params wb) None], db', set_buffer wb [], Ok tt)
    end
  else ([], db, wb, Ok tt).

(** [put(requestItem, onFlush)] *)
Definition put (db : Db) (wb : t) (requestItem : Item)
    (onFlush : result Err unit) : Outcome :=
  let wb := set_buffer wb (buffer wb ++ [requestItem]) in
  if length_strict_eq (List.length (buffer wb)) (maxWriteBatchSize wb) then
    match flush db wb with
    | (tr, db', wb', Ok _) => (tr ++ [OnFlush], db', wb', onFlush)
    | (tr, db', wb', Raise e) => (tr, db', wb', Raise e)
    end
  else ([], db, wb, Ok tt).

(** A caller's successive calls, each awaited, going on after a rejection. *)
Inductive Op : Type :=
| Put (requestItem : Item) (onFlush : result Err unit)
| Flush.

Definition step (db : Db) (wb : t) (op : Op) : Outcome :=
  match op with
  | Put requestItem onFlush => put db wb requestItem onFlush
  | Flush => flush db wb
  end.

Fixpoint run (ops : list Op) (db : Db) (wb : t) : list Event * Db * t :=
  match ops with
  | [] => ([], db, wb)
  | op :: rest =>
      match step db wb op with
      | (tr, db', wb', _) =>
          match run rest db' wb' with
          | (tr', db'', wb'') => (tr ++ tr', db'', wb'')
          end
      end
  end.

(** The items a request carries, and those of the requests that went
    through. *)
Definition items_of (p : BatchWriteItemInput) : list Item :=
  flat_map (fun entry => map (fun r => Item_ (PutRequest_ r)) (snd entry))
           (RequestItems p).

Definition written (tr : list Event) : list Item :=
  flat_map (fun ev => match ev with
                      | BatchWriteItem p None => items_of p
                      | _ => []
                      end) tr.

Definition requests (tr : list Event) : list BatchWriteItemInput :=
  flat_map (fun ev => match ev with
                      | BatchWriteItem p _ => [p]
                      | _ => []
                      end) tr.

Definition put_items (ops : list Op) : list Item :=
  flat_map (fun op => match op with
                      | Put requestItem _ => [requestItem]
                      | Flush => []
                      end) ops.

Definition is_put (op : Op) : Prop :=
  match op with Put _ _ => True | Flush => False end.

(** A client whose every write goes through. *)
Definition healthy (client : Client) : Prop :=
  forall db p, snd (client db p) = None.

(** Every [onFlush] comes right after a write of [size] items that went
    through. *)
Definition on_flush_guarded (size : Number) (tr : list Event) : Prop :=
  forall tr1 tr2, tr = tr1 ++ OnFlush :: tr2 ->
    exists tr0 p, tr1 = tr0 ++ [BatchWriteItem p None] /\
                  size = Integral (Z.of_nat (List.length (items_of p))).

End Model.

Arguments mkPutRequest {Item} _.
Arguments Item_ {Item} _.
Arguments mkWriteRequest {Item} _.
Arguments PutRequest_ {Item} _.
Arguments mkInput {Item} _.
Arguments RequestItems {Item} _.
Arguments mkWriteBuffer {Item Err Db} _ _ _ _.
Arguments table {Item Err Db} _.
Arguments dynamoDbInstance {Item Err Db} _.
Arguments maxWriteBatchSize {Item Err Db} _.
Arguments buffer {Item Err Db} _.
Arguments create {Item Err Db} _ _ _.
Arguments set_buffer {Item Err Db} _ _.
Arguments BatchWriteItem {Item Err} _ _.
Arguments ConsoleError {Item Err} _.
Arguments OnFlush {Item Err}.
Arguments params {Item Err Db} _.
Arguments length {Item Err Db} _.
Arguments flush {Item Err Db} _ _ _.
Arguments put {Item Err Db} _ _ _ _ _.
Arguments Put {Item Err} _ _.
Arguments Flush {Item Err}.
Arguments step {Item Err Db} _ _ _ _.
Arguments run {Item Err Db} _ _ _ _.
Arguments items_of {Item} _.
Arguments written {Item Err} _.
Arguments requests {Item Err} _.
Arguments put_items {Item Err} _.
Arguments is_put {Item Err} _.
Arguments healthy {Item Err Db} _.
Arguments on_flush_guarded {Item Err} _ _.

End WriteBuffer.

(** Scenarios for the write buffer: numbers as items, an error is its
    message, a service without state. *)
Module WriteBufferScenarios.
Import String.

Definition accepting : WriteBuffer.Client nat string unit :=
  fun db _ => (db, None).

Definition refusing : WriteBuffer.Client nat string unit :=
  fun db _ => (db, Some "down"%string).

Definition say (e : string) : string := e.

(** Batches of two. *)
Definition pairs : WriteBuffer.t nat string unit :=
  WriteBuffer.create "orders"%string accepting
    (Some (WriteBuffer.Integral 2)).

Definition pairs_refused : WriteBuffer.t nat string unit :=
  WriteBuffer.create "orders"%string refusing
    (Some (WriteBuffer.Integral 2)).

(** A limit that no buffer length ever equals after a [put]. *)
Definition unlimited : WriteBuffer.t nat string unit :=
  WriteBuffer.create "orders"%string accepting
    (Some (WriteBuffer.Integral 0)).

(** [new WriteBuffer("orders", client, 2.5)] *)
Definition fractional : WriteBuffer.t nat string unit :=
  WriteBuffer.create "orders"%string accepting
    (Some WriteBuffer.NonIntegral).

Definition three_puts_and_flush : list (WriteBuffer.Op nat string) :=
  [WriteBuffer.Put 1 (Ok tt); WriteBuffer.Put 2 (Ok tt);
   WriteBuffer.Put 3 (Ok tt); WriteBuffer.Flush].

Definition two_puts : list (WriteBuffer.Op nat string) :=
  [WriteBuffer.Put 1 (Ok tt); WriteBuffer.Put 2 (Ok tt)].

End WriteBufferScenarios.

(* ================================================================== *)
(** * The circuit breaker: [src/network/circuit-breaker.ts] *)
(* ================================================================== *)

(** The fields of a breaker are private and change only inside [halfOpen],
    [close], [open] and [update], which run to completion without awaiting:
    whatever the interleaving of pending [invoke] calls, the breaker goes
    through a sequence of [halfOpen] and [update] steps.  Those steps are
    modelled; [invoke] and [invokeUrl], which wait on timers and the
    network, are not.  The failure rate is a double: its arithmetic is left
    as parameters, of which nothing is assumed.  Times are integer
    milliseconds; [open] is given the clock reading it takes. *)

Module CircuitBreaker.
Import String.

(** [enum State { Open = 0, HalfOpen = 1, Closed = 2 }] *)
Inductive State : Type := Open | HalfOpen | Closed.

Inductive Console : Type :=
| ConsoleInfo (text : string)
| ConsoleWarn (text : string).

Section Model.

Variable F : Type.
(** The doubles [0] and [0.5], [+], [-], [1 / n] and [>=]. *)
Variable zero : F.
Variable half : F.
Variable add : F -> F -> F.
Variable sub : F -> F -> F.
Variable inverse : nat -> F.
Variable geb : F -> F -> bool.

Record t : Type := mkCircuitBreaker {
  timeout : Z;
  retentionSize : nat;
  failureRetention : list (option bool);
  threshold : F;
  holdInvocations : bool;
  state : State;
  timeoutEnd : Z;
  retentionFailureRate : F
}.

(** [new CircuitBreaker(timeout = 1000, retentionSize = 10,
    threshold = 0.5, holdInvocations = true)] *)
Definition create (timeout : option Z) (retentionSize : option nat)
    (threshold : option F) (holdInvocations : option bool) : t :=
  let retentionSize :=
    match retentionSize with Some n => n | None => 10 end in
  mkCircuitBreaker
    (match timeout with Some ms => ms | None => 1000%Z end)
    retentionSize
    (repeat None retentionSize)
    (match threshold with Some x => x | None => half end)
    (match holdInvocations with Some b => b | None => true end)
    Closed 0%Z zero.

Definition set_state (cb : t) (s : State) : t :=
  mkCircuitBreaker (timeout cb) (retentionSize cb) (failureRetention cb)
    (threshold cb) (holdInvocations cb) s (timeoutEnd cb)
    (retentionFailureRate cb).

Definition set_failureRetention (cb : t) (w : list (option bool)) : t :=
  mkCircuitBreaker (timeout cb) (retentionSize cb) w
    (threshold cb) (holdInvocations cb) (state cb) (timeoutEnd cb)
    (retentionFailureRate cb).

Definition set_retentionFailureRate (cb : t) (x : F) : t :=
  mkCircuitBreaker (timeout cb) (retentionSize cb) (failureRetention cb)
    (threshold cb) (holdInvocations cb) (state cb) (timeoutEnd cb) x.

(** [remainingTimeoutDuration()], [now] being [(new Date()).getTime()]. *)
Definition remainingTimeoutDuration (now : Z) (cb : t) : Z :=
  (timeoutEnd cb - now)%Z.

(** [halfOpen()] *)
Definition halfOpen (cb : t) : list Console * t :=
  ([ConsoleInfo "Circuit breaker state change: HALF OPEN"],
   set_state cb HalfOpen).

(** [close()] *)
Definition close (cb : t) : list Console * t :=
  ([ConsoleInfo "Circuit breaker state change: CLOSED"],
   set_state cb Closed).

(** [open()] *)
Definition open (now : Z) (cb : t) : list Console * t :=
  ([ConsoleWarn "Circuit breaker state change: OPEN"],
   mkCircuitBreaker (timeout cb) (retentionSize cb)
     (repeat None (retentionSize cb))
     (threshold cb) (holdInvocations cb) Open (now + timeout cb)%Z zero).

(** [update(failed)].  [removed] is what [shift()] returned: [None] for
    [undefined] (an empty array), [Some None] for [null]. *)
Definition update (now : Z) (cb : t) (failed : bool) : list Console * t :=
  let removed := hd_error (failureRetention cb) in
  let cb := set_failureRetention cb (tl (failureRetention cb) ++ [Some failed]) in
  let cb :=
    match removed with
    | Some (Some true) =>
        set_retentionFailureRate cb
          (sub (retentionFailureRate cb) (inverse (retentionSize cb)))
    | _ => cb
    end in
  let cb :=
    if failed then
      set_retentionFailureRate cb
        (add (retentionFailureRate cb) (inverse (retentionSize cb)))
    else cb in
  if geb (retentionFailureRate cb) (threshold cb) then open now cb
  else
    match removed, state cb with
    | Some None, _ => ([], cb)
    | _, HalfOpen => close cb
    | _, _ => ([], cb)
    end.

(** The steps a breaker goes through. *)
Inductive Action : Type :=
| Update (failed : bool) (now : Z)
| HalfOpenAct.

Definition act (cb : t) (a : Action) : list Console * t :=
  match a with
  | Update failed now => update now cb failed
  | HalfOpenAct => halfOpen cb
  end.

Fixpoint run (acts : list Action) (cb : t) : list Console * t :=
  match acts with
  | [] => ([], cb)
  | a :: rest =>
      let (log, cb') := act cb a in
      let (log', cb'') := run rest cb' in
      (log ++ log', cb'')
  end.

Fixpoint updates (acts : list Action) : nat :=
  match acts with
  | [] => 0
  | Update _ _ :: rest => S (updates rest)
  | HalfOpenAct :: rest => updates rest
  end.

(** How many invocations the window still waits for: its leading [null]s. *)
Fixpoint pending (w : list (option bool)) : nat :=
  match w with
  | None :: rest => S (pending rest)
  | _ => 0
  end.

End Model.

Arguments mkCircuitBreaker {F} _ _ _ _ _ _ _ _.
Arguments timeout {F} _.
Arguments retentionSize {F} _.
Arguments failureRetention {F} _.
Arguments threshold {F} _.
Arguments holdInvocations {F} _.
Arguments state {F} _.
Arguments timeoutEnd {F} _.
Arguments retentionFailureRate {F} _.
Arguments create {F} _ _ _ _ _ _.
Arguments set_state {F} _ _.
Arguments set_failureRetention {F} _ _.
Arguments set_retentionFailureRate {F} _ _.
Arguments remainingTimeoutDuration {F} _ _.
Arguments halfOpen {F} _.
Arguments close {F} _.
Arguments open {F} _ _ _.
Arguments update {F} _ _ _ _ _ _ _ _.
Arguments act {F} _ _ _ _ _ _ _.
Arguments run {F} _ _ _ _ _ _ _.

End CircuitBreaker.

(** Scenario for the circuit breaker: rates counted in tenths, a window of
    two invocations. *)
Module CircuitBreakerScenarios.

Definition tenths_inverse (n : nat) : nat := 10 / n.

Definition tenths_geb (a b : nat) : bool := Nat.leb b a.

Definition fresh : CircuitBreaker.t nat :=
  CircuitBreaker.create 0 5 None (Some 2) None None.

Definition half_open_two_successes : list CircuitBreaker.Action :=
  [CircuitBreaker.HalfOpenAct; CircuitBreaker.Update false 10;
   CircuitBreaker.Update false 20].

End CircuitBreakerScenarios.

(* ================================================================== *)
(** * Proofs *)
(* ================================================================== *)

(* ------------------------------------------------------------------ *)
(** ** Computations *)
(* ------------------------------------------------------------------ *)

Section MonadFacts.

Context {Item V A Exn : Type}.
Local Abbreviation M := (M Item V A Exn).

Lemma bind_ret_l {X Y : Type} (x : X) (k : X -> M Y) : bind (ret x) k = k x.
Proof. unfold bind, ret. destruct (k x); reflexivity. Qed.

Lemma bind_assoc {X Y Z : Type} (m : M X) (f : X -> M Y) (g : Y -> M Z) :
  bind (bind m f) g = bind m (fun x => bind (f x) g).
Proof.
  destruct m as [tr [x|e]]; simpl; [|reflexivity].
  destruct (f x) as [tr' [y|e]]; simpl; [|reflexivity].
  destruct (g y) as [tr'' r]. now rewrite app_assoc.
Qed.

Lemma bind_ext {X Y : Type} (m : M X) (f g : X -> M Y) :
  (forall x, f x = g x) -> bind m f = bind m g.
Proof. intros H. destruct m as [tr [x|e]]; simpl; [now rewrite H|reflexivity]. Qed.

Lemma emitted_app (t1 t2 : list (Event Item V A)) :
  emitted (t1 ++ t2) = emitted t1 ++ emitted t2.
Proof.
  induction t1 as [|[it|m|b] t1 IH]; simpl; auto. now rewrite IH.
Qed.

Lemma aggregations_app (t1 t2 : list (Event Item V A)) :
  aggregations (t1 ++ t2) = aggregations t1 ++ aggregations t2.
Proof.
  induction t1 as [|[it|m|b] t1 IH]; simpl; auto. now rewrite IH.
Qed.

Lemma emitted_pre (items : list Item) (t : list (Event Item V A)) :
  emitted (map EvPre items ++ t) = emitted t.
Proof. induction items; simpl; auto. Qed.

Lemma emissions_pre (items : list Item) (t : list (Event Item V A)) :
  emissions (map EvPre items ++ t) = emissions t.
Proof. induction items; simpl; auto. Qed.

Lemma aggregations_pre (items : list Item) (t : list (Event Item V A)) :
  aggregations (map EvPre items ++ t) = aggregations t.
Proof. induction items; simpl; auto. Qed.

End MonadFacts.

(* ------------------------------------------------------------------ *)
(** ** The insertion-ordered map *)
(* ------------------------------------------------------------------ *)

Module JsMapFacts.
Import JsMap.

Section Facts.

Context {V : Type}.
Implicit Types (m : JsMap.t V) (k i : nat) (v w : V).

Lemma in_ids m i w : In (i, w) m -> In i (ids m).
Proof. intros H. apply (in_map fst) in H. exact H. Qed.

Lemma ids_set_in m k v i : In i (ids (set m k v)) <-> i = k \/ In i (ids m).
Proof.
  induction m as [|[k' w'] m IH]; simpl.
  - intuition.
  - destruct (Nat.eqb_spec k k'); simpl.
    + subst. intuition.
    + rewrite IH. intuition.
Qed.

Lemma nodup_set m k v : NoDup (ids m) -> NoDup (ids (set m k v)).
Proof.
  induction m as [|[k' w'] m IH]; simpl; intros H.
  - constructor; [intros []|constructor].
  - inversion H as [|? ? Hn Hd]; subst.
    destruct (Nat.eqb_spec k k'); simpl.
    + constructor; assumption.
    + constructor; [|auto]. intros Hin. apply ids_set_in in Hin.
      destruct Hin; [congruence|contradiction].
Qed.

Lemma in_set m k v i w :
  NoDup (ids m) ->
  In (i, w) (set m k v) <-> (i = k /\ w = v) \/ (i <> k /\ In (i, w) m).
Proof.
  induction m as [|[k' w'] m IH]; simpl; intros H.
  - split.
    + intros [E|[]]. inversion E. auto.
    + intros [[-> ->]|[_ []]]. auto.
  - inversion H as [|? ? Hn Hd]; subst.
    destruct (Nat.eqb_spec k k'); simpl.
    + subst k'. split.
      * intros [E|Hin]; [inversion E; auto|].
        right. split; [|auto]. intros ->. apply Hn. eapply in_ids; eauto.
      * intros [[-> ->]|[Hne [E|Hin]]]; auto. inversion E. congruence.
    + rewrite (IH Hd). split.
      * intros [E|[[-> ->]|[Hne Hin]]]; auto. inversion E; subst. auto.
      * intros [[-> ->]|[Hne [E|Hin]]]; auto.
Qed.

Lemma ids_delete_in m k i : In i (ids (delete m k)) -> In i (ids m).
Proof.
  induction m as [|[k' w'] m IH]; simpl; auto.
  destruct (Nat.eqb_spec k k'); simpl; intuition.
Qed.

Lemma nodup_delete m k : NoDup (ids m) -> NoDup (ids (delete m k)).
Proof.
  induction m as [|[k' w'] m IH]; simpl; intros H; auto.
  inversion H as [|? ? Hn Hd]; subst.
  destruct (Nat.eqb_spec k k'); simpl; auto.
  constructor; auto. intros Hin. apply Hn. eapply ids_delete_in; eauto.
Qed.

Lemma in_delete m k i w :
  NoDup (ids m) ->
  In (i, w) (delete m k) <-> i <> k /\ In (i, w) m.
Proof.
  induction m as [|[k' w'] m IH]; simpl; intros H.
  - intuition.
  - inversion H as [|? ? Hn Hd]; subst.
    destruct (Nat.eqb_spec k k'); simpl.
    + subst k'. split.
      * intros Hin. split; auto. intros ->. apply Hn. eapply in_ids; eauto.
      * intros [Hne [E|Hin]]; auto. inversion E. congruence.
    + rewrite (IH Hd). split.
      * intros [E|[Hne Hin]]; auto. inversion E; subst. auto.
      * intros [Hne [E|Hin]]; auto.
Qed.

Lemma nodup_pairs m : NoDup (ids m) -> NoDup m.
Proof. apply NoDup_map_inv. Qed.

Lemma size_zero m : Nat.eqb (size m) 0 = true <-> m = [].
Proof.
  destruct m; simpl; split; auto; discriminate.
Qed.

End Facts.

End JsMapFacts.

(* ------------------------------------------------------------------ *)
(** ** Visiting a node *)
(* ------------------------------------------------------------------ *)

Section VisitFacts.

Context {V : Type}.
Implicit Types (m : JsMap.t V) (nv : NodeValue V).

Lemma arrive_nodup m nv : NoDup (JsMap.ids m) -> NoDup (JsMap.ids (arrive m nv)).
Proof.
  unfold arrive. generalize (nstart nv) as l. intros l. revert m.
  induction l as [|[j x] l IH]; simpl; intros m H; auto.
  apply IH. now apply JsMapFacts.nodup_set.
Qed.

Lemma arrive_in m nv i w :
  NoDup (JsMap.ids m) -> NoDup (map fst (nstart nv)) ->
  In (i, w) (arrive m nv) <->
  In (i, w) (nstart nv) \/ (~ In i (map fst (nstart nv)) /\ In (i, w) m).
Proof.
  unfold arrive. generalize (nstart nv) as l. intros l. revert m.
  induction l as [|[j x] l IH]; simpl; intros m Hm Hl.
  - tauto.
  - inversion Hl as [|? ? Hn Hd]; subst.
    rewrite (IH _ (JsMapFacts.nodup_set m j x Hm) Hd).
    rewrite (JsMapFacts.in_set m j x i w Hm).
    split.
    + intros [Hin|[Hni [[-> ->]|[Hne Hin]]]]; auto.
      right. split; auto. intros [E|Hin']; auto.
    + intros [[E|Hin]|[Hni Hin]]; auto.
      * inversion E; subst. right. split; auto.
      * right. split; [tauto|]. right. split; auto.
Qed.

Lemma depart_nodup m nv : NoDup (JsMap.ids m) -> NoDup (JsMap.ids (depart m nv)).
Proof.
  unfold depart. generalize (nend nv) as l. intros l. revert m.
  induction l as [|j l IH]; simpl; intros m H; auto.
  apply IH. now apply JsMapFacts.nodup_delete.
Qed.

Lemma depart_in m nv i w :
  NoDup (JsMap.ids m) ->
  In (i, w) (depart m nv) <-> ~ In i (nend nv) /\ In (i, w) m.
Proof.
  unfold depart. generalize (nend nv) as l. intros l. revert m.
  induction l as [|j l IH]; simpl; intros m Hm.
  - tauto.
  - rewrite (IH _ (JsMapFacts.nodup_delete m j Hm)).
    rewrite (JsMapFacts.in_delete m j i w Hm).
    split.
    + intros [Hni [Hne Hin]]. split; auto. intros [E|Hin']; auto.
    + intros [Hni Hin]. split; [tauto|]. split; auto.
Qed.

Lemma visit_nodup m nv : NoDup (JsMap.ids m) -> NoDup (JsMap.ids (visit m nv)).
Proof. intros H. unfold visit. now apply depart_nodup, arrive_nodup. Qed.

Lemma visit_in m nv i w :
  NoDup (JsMap.ids m) -> NoDup (map fst (nstart nv)) ->
  In (i, w) (visit m nv) <->
  ~ In i (nend nv) /\
  (In (i, w) (nstart nv) \/ (~ In i (map fst (nstart nv)) /\ In (i, w) m)).
Proof.
  intros Hm Hl. unfold visit.
  rewrite (depart_in _ nv i w (arrive_nodup m nv Hm)).
  now rewrite (arrive_in m nv i w Hm Hl).
Qed.

Lemma visited_app m (d1 d2 : RBTree.t (NodeValue V)) :
  visited m (d1 ++ d2) = visited (visited m d1) d2.
Proof. unfold visited. apply fold_left_app. Qed.

Lemma visited_nodup m (done : RBTree.t (NodeValue V)) :
  NoDup (JsMap.ids m) -> NoDup (JsMap.ids (visited m done)).
Proof.
  revert m. induction done as [|[k nv] done IH]; simpl; intros m H; auto.
  apply IH. now apply visit_nodup.
Qed.

End VisitFacts.

(* ------------------------------------------------------------------ *)
(** ** The ordered map *)
(* ------------------------------------------------------------------ *)

Module RBTreeFacts.
Import RBTree.

Section Facts.

Context {X : Type}.
Implicit Types (tree : RBTree.t X) (k key : Z) (x : X).

Lemma ordered_inv k x tree :
  ordered ((k, x) :: tree) ->
  ordered tree /\ (forall k', In k' (keys tree) -> (k < k')%Z).
Proof.
  unfold ordered. simpl. intros H. apply StronglySorted_inv in H.
  destruct H as [Hs Hf]. split; auto. now apply Forall_forall.
Qed.

Lemma ordered_cons k x tree :
  ordered tree -> (forall k', In k' (keys tree) -> (k < k')%Z) ->
  ordered ((k, x) :: tree).
Proof.
  unfold ordered. simpl. intros Hs Hf. constructor; auto.
  now apply Forall_forall.
Qed.

Lemma ordered_nodup tree : ordered tree -> NoDup (keys tree).
Proof.
  induction tree as [|[k x] tree IH]; simpl; intros H; [constructor|].
  apply ordered_inv in H. destruct H as [Hs Hf].
  constructor; auto. intros Hin. apply Hf in Hin. lia.
Qed.

Lemma get_none tree key : ~ In key (keys tree) -> get tree key = None.
Proof.
  induction tree as [|[k x] tree IH]; simpl; intros H; auto.
  destruct (Z.eqb_spec key k); [subst; tauto|]. apply IH. tauto.
Qed.

Lemma get_some tree key : In key (keys tree) -> exists x, get tree key = Some x.
Proof.
  induction tree as [|[k x] tree IH]; simpl; intros H; [contradiction|].
  destruct (Z.eqb_spec key k); eauto. apply IH. destruct H; congruence.
Qed.

Lemma remove_keys tree key k :
  ordered tree ->
  In k (keys (remove tree key)) <-> k <> key /\ In k (keys tree).
Proof.
  induction tree as [|[k0 x0] tree IH]; simpl; intros H.
  - tauto.
  - apply ordered_inv in H. destruct H as [Hs Hf].
    destruct (Z.eqb_spec key k0); simpl.
    + subst k0. split.
      * intros Hin. split; auto. apply Hf in Hin. lia.
      * intros [Hne [E|Hin]]; [congruence|auto].
    + rewrite (IH Hs). split.
      * intros [E|[Hne Hin]]; subst; auto.
      * intros [Hne [E|Hin]]; auto.
Qed.

Lemma remove_ordered tree key : ordered tree -> ordered (remove tree key).
Proof.
  induction tree as [|[k0 x0] tree IH]; simpl; intros H; auto.
  pose proof (ordered_inv _ _ _ H) as [Hs Hf].
  destruct (Z.eqb_spec key k0); auto.
  apply ordered_cons; auto.
  intros k' Hin. apply remove_keys in Hin; auto. apply Hf. tauto.
Qed.

Lemma remove_get tree key k :
  ordered tree -> k <> key -> get (remove tree key) k = get tree k.
Proof.
  induction tree as [|[k0 x0] tree IH]; simpl; intros H Hne; auto.
  apply ordered_inv in H. destruct H as [Hs Hf].
  destruct (Z.eqb_spec key k0); simpl.
  - subst k0. destruct (Z.eqb_spec k key); [congruence|reflexivity].
  - destruct (Z.eqb_spec k k0); auto.
Qed.

Lemma insert_keys tree key x k :
  In k (keys (insert tree key x)) <-> k = key \/ In k (keys tree).
Proof.
  induction tree as [|[k0 x0] tree IH]; simpl.
  - intuition.
  - destruct (Z.leb_spec key k0); simpl.
    + intuition.
    + rewrite IH. intuition.
Qed.

Lemma insert_ordered tree key x :
  ordered tree -> ~ In key (keys tree) -> ordered (insert tree key x).
Proof.
  induction tree as [|[k0 x0] tree IH]; simpl; intros H Hni.
  - apply ordered_cons; [constructor|intros ? []].
  - pose proof (ordered_inv _ _ _ H) as [Hs Hf].
    destruct (Z.leb_spec key k0).
    + apply ordered_cons; auto. simpl. intros k' [E|Hin].
      * assert (key <> k0) by (intro; apply Hni; left; congruence). lia.
      * apply Hf in Hin. lia.
    + apply ordered_cons; [apply IH; tauto|].
      intros k' Hin. apply insert_keys in Hin. destruct Hin as [E|Hin].
      * subst. lia.
      * now apply Hf.
Qed.

Lemma insert_get tree key x k :
  ~ In key (keys tree) ->
  get (insert tree key x) k = if Z.eqb k key then Some x else get tree k.
Proof.
  induction tree as [|[k0 x0] tree IH]; simpl; intros Hni.
  - reflexivity.
  - destruct (Z.leb_spec key k0); simpl.
    + reflexivity.
    + rewrite IH by tauto.
      destruct (Z.eqb_spec k k0), (Z.eqb_spec k key); auto.
      subst. tauto.
Qed.


End Facts.

End RBTreeFacts.

(* ------------------------------------------------------------------ *)
(** ** Building the index *)
(* ------------------------------------------------------------------ *)

Section IndexFacts.

Context {V : Type}.
Implicit Types (tree : RBTree.t (NodeValue V)) (k key : Z).

Lemma push_ordered tree key (x : Pushed V) :
  ordered tree -> ordered (pushValueToNode tree key x).
Proof.
  intros H. unfold pushValueToNode.
  apply RBTreeFacts.insert_ordered.
  - now apply RBTreeFacts.remove_ordered.
  - rewrite RBTreeFacts.remove_keys by assumption. tauto.
Qed.

Lemma push_keys tree key (x : Pushed V) k :
  ordered tree ->
  In k (RBTree.keys (pushValueToNode tree key x)) <->
  k = key \/ In k (RBTree.keys tree).
Proof.
  intros H. unfold pushValueToNode.
  rewrite RBTreeFacts.insert_keys, RBTreeFacts.remove_keys by assumption.
  destruct (Z.eq_dec k key); tauto.
Qed.

Lemma push_node tree key (x : Pushed V) k :
  ordered tree ->
  node_of (pushValueToNode tree key x) k =
  if Z.eqb k key then push (node_of tree key) x else node_of tree k.
Proof.
  intros H. unfold node_of at 1. unfold pushValueToNode.
  rewrite RBTreeFacts.insert_get
    by (rewrite RBTreeFacts.remove_keys by assumption; tauto).
  destruct (Z.eqb_spec k key); [reflexivity|].
  rewrite RBTreeFacts.remove_get by assumption. reflexivity.
Qed.

Lemma node_at_app (ibs1 ibs2 : list (nat * Block V)) k :
  node_at (ibs1 ++ ibs2) k = node_app (node_at ibs1 k) (node_at ibs2 k).
Proof.
  unfold node_at, node_app, arrivals, departures. simpl.
  now rewrite !filter_app, !map_app.
Qed.

Lemma node_app_empty_l (a : NodeValue V) : node_app emptyNodeValue a = a.
Proof. destruct a. reflexivity. Qed.

Lemma node_app_assoc (a b c : NodeValue V) :
  node_app (node_app a b) c = node_app a (node_app b c).
Proof. unfold node_app. simpl. now rewrite !app_assoc. Qed.

Lemma index_step_node tree i (b : Block V) k :
  ordered tree ->
  node_of (pushValueToNode
             (pushValueToNode tree (start b) (AtStart i (value b)))
             (end_ b) (AtEnd i)) k =
  node_app (node_of tree k) (node_at [(i, b)] k).
Proof.
  intros H.
  rewrite push_node by now apply push_ordered.
  rewrite !push_node by assumption.
  unfold node_app, node_at, arrivals, departures. simpl.
  rewrite (Z.eqb_sym (start b) k), (Z.eqb_sym (end_ b) k).
  destruct (Z.eqb_spec k (end_ b)) as [E1|N1].
  - subst k. destruct (Z.eqb_spec (end_ b) (start b)) as [E2|N2].
    + rewrite E2. destruct (node_of tree (start b)); reflexivity.
    + destruct (node_of tree (end_ b)); simpl. now rewrite app_nil_r.
  - destruct (Z.eqb_spec k (start b)) as [E2|N2].
    + subst k. destruct (node_of tree (start b)); simpl. now rewrite app_nil_r.
    + destruct (node_of tree k); simpl. now rewrite !app_nil_r.
Qed.

Lemma build_index_spec (bs : list (Block V)) :
  forall i tree, ordered tree ->
    ordered (build_index i bs tree) /\
    (forall k, In k (RBTree.keys (build_index i bs tree)) <->
               In k (RBTree.keys tree) \/ In k (coords (enum i bs))) /\
    (forall k, node_of (build_index i bs tree) k =
               node_app (node_of tree k) (node_at (enum i bs) k)).
Proof.
  induction bs as [|b bs IH]; simpl; intros i tree H.
  - split; [assumption|]. split; [tauto|].
    intros k. unfold node_app, node_at. simpl.
    destruct (node_of tree k); simpl. now rewrite !app_nil_r.
  - set (t1 := pushValueToNode tree (start b) (AtStart i (value b))).
    set (t2 := pushValueToNode t1 (end_ b) (AtEnd i)).
    assert (H1 : ordered t1) by now apply push_ordered.
    assert (H2 : ordered t2) by now apply push_ordered.
    destruct (IH (S i) t2 H2) as (Ho & Hk & Hn).
    split; [assumption|]. split.
    + intros k. rewrite Hk. unfold t2. rewrite push_keys by assumption.
      unfold t1. rewrite push_keys by assumption. intuition.
    + intros k. rewrite Hn. unfold t2, t1.
      rewrite index_step_node by assumption.
      rewrite node_app_assoc. f_equal.
      change ((i, b) :: enum (S i) bs) with ([(i, b)] ++ enum (S i) bs).
      now rewrite node_at_app.
Qed.

Lemma ordered_as_map tree :
  ordered tree -> tree = map (fun k => (k, node_of tree k)) (RBTree.keys tree).
Proof.
  induction tree as [|[k nv] tree IH]; simpl; intros H; [reflexivity|].
  apply RBTreeFacts.ordered_inv in H. destruct H as [Hs Hf].
  unfold node_of at 1. simpl. rewrite Z.eqb_refl. f_equal.
  rewrite (IH Hs) at 1. apply map_ext_in. intros k' Hin.
  unfold node_of. simpl. destruct (Z.eqb_spec k' k); [|reflexivity].
  subst. apply Hf in Hin. lia.
Qed.

(** The index of a list of blocks: ordered, keyed by exactly the blocks'
    coordinates, each node listing the blocks starting and ending there. *)
Lemma index_shape (bs : list (Block V)) :
  let tree := build_index 0 bs RBTree.empty in
  ordered tree /\
  (forall k, In k (RBTree.keys tree) <-> In k (coords (enum 0 bs))) /\
  tree = index_over (enum 0 bs) (RBTree.keys tree).
Proof.
  intros tree.
  assert (H0 : ordered (@RBTree.empty (NodeValue V))) by constructor.
  destruct (build_index_spec bs 0 RBTree.empty H0) as (Ho & Hk & Hn).
  fold tree in Ho, Hk, Hn.
  split; [assumption|]. split.
  - intros k. rewrite Hk. simpl. tauto.
  - rewrite (ordered_as_map tree Ho) at 1. unfold index_over.
    apply map_ext. intros k. rewrite Hn.
    unfold node_of. simpl. now rewrite node_app_empty_l.
Qed.

End IndexFacts.

(* ------------------------------------------------------------------ *)
(** ** The two loops *)
(* ------------------------------------------------------------------ *)

Section LoopFacts.

Context {Item V A R Exn : Type}.
Variable this : Aggregator Item V A R Exn.

Lemma createRedBlackTree_loop_ok items bs :
  Forall2 (fun item b => itemPreProcessor this item = Ok b) items bs ->
  forall i tree,
    createRedBlackTree_loop this i items tree =
    (map EvPre items, Ok (build_index i bs tree)).
Proof.
  induction 1 as [|item b items bs Hb _ IH]; intros i tree; simpl.
  - reflexivity.
  - unfold call_pre. rewrite Hb. simpl. now rewrite IH.
Qed.

Lemma createRedBlackTree_loop_raise l1 bs1 x l2 e :
  Forall2 (fun item b => itemPreProcessor this item = Ok b) l1 bs1 ->
  itemPreProcessor this x = Raise e ->
  forall i tree,
    createRedBlackTree_loop this i (l1 ++ x :: l2) tree =
    (map EvPre (l1 ++ [x]), Raise e).
Proof.
  induction 1 as [|item b items bs Hb _ IH]; intros Hx i tree; simpl.
  - unfold call_pre. now rewrite Hx.
  - unfold call_pre. rewrite Hb. simpl. now rewrite IH.
Qed.

Lemma aggregate_loop_cons k nv k' nv' rest m out :
  aggregate_loop this ((k, nv) :: (k', nv') :: rest) m out =
  if Nat.eqb (JsMap.size (visit m nv)) 0 then
    aggregate_loop this ((k', nv') :: rest) (visit m nv) out
  else
    aggregated <- call_agg this (visit m nv) ;;
    r <- call_post this (mkBlock k k' aggregated) ;;
    aggregate_loop this ((k', nv') :: rest) (visit m nv) (out ++ [r]).
Proof. reflexivity. Qed.

Lemma spans_cons k (nv : NodeValue V) k' nv' rest m :
  spans ((k, nv) :: (k', nv') :: rest) m =
  mkSpan k k' (visit m nv) :: spans ((k', nv') :: rest) (visit m nv).
Proof. reflexivity. Qed.

(** The loop emits the live spans, in order. *)
Lemma aggregate_loop_spans nodes :
  forall m out,
    aggregate_loop this nodes m out =
    emit_all this (filter live (spans nodes m)) out.
Proof.
  induction nodes as [|[k nv] rest IH]; intros m out; [reflexivity|].
  destruct rest as [|[k' nv'] rest]; [reflexivity|].
  rewrite aggregate_loop_cons, spans_cons.
  cbn [filter]. unfold live at 1. cbn [sp_active].
  destruct (Nat.eqb (JsMap.size (visit m nv)) 0); cbn [negb].
  - apply IH.
  - cbn [emit_all]. unfold emit. cbn [sp_start sp_end sp_active].
    rewrite bind_assoc. apply bind_ext. intros a.
    apply bind_ext. intros r. apply IH.
Qed.

Lemma aggregate_ok items bs :
  Forall2 (fun item b => itemPreProcessor this item = Ok b) items bs ->
  aggregate this items =
  let (tr, r) := emit_all this (live_spans bs) [] in (map EvPre items ++ tr, r).
Proof.
  intros H. unfold aggregate, createRedBlackTree.
  rewrite (createRedBlackTree_loop_ok items bs H). cbn [bind].
  now rewrite aggregate_loop_spans.
Qed.

End LoopFacts.

Section PureRuns.

Context {Item V A R : Type}.
Variable Exn : Type.
Variable pre : Item -> Block V.
Variable agg : list V -> A.
Variable post : Block A -> R.

Lemma emit_all_pure (sps : list (Span V)) :
  forall out,
    emit_all (pure_aggregator Exn pre agg post) sps out =
    (flat_map (span_events agg) sps,
     Ok (out ++ map (fun sp => post (span_block agg sp)) sps)).
Proof.
  induction sps as [|sp sps IH]; intros out; simpl.
  - now rewrite app_nil_r.
  - rewrite IH. now rewrite <- app_assoc.
Qed.

(** A run with callbacks that never throw, in closed form. *)
Lemma aggregate_pure items :
  aggregate (pure_aggregator Exn pre agg post) items =
  (map EvPre items ++ flat_map (span_events agg) (live_spans (map pre items)),
   Ok (map (fun sp => post (span_block agg sp)) (live_spans (map pre items)))).
Proof.
  rewrite (aggregate_ok _ items (map pre items)).
  - now rewrite emit_all_pure.
  - induction items; simpl; constructor; auto.
Qed.

Lemma emitted_span_events (sps : list (Span V)) :
  emitted (flat_map (@span_events Item V A agg) sps) = map (span_block agg) sps.
Proof. induction sps; simpl; congruence. Qed.

Lemma emissions_span_events (sps : list (Span V)) :
  emissions (flat_map (@span_events Item V A agg) sps) =
  map (fun sp => (sp_active sp, span_block agg sp)) sps.
Proof. induction sps; simpl; congruence. Qed.

Lemma aggregations_span_events (sps : list (Span V)) :
  aggregations (flat_map (@span_events Item V A agg) sps) = map sp_active sps.
Proof. induction sps; simpl; congruence. Qed.

End PureRuns.

(* ------------------------------------------------------------------ *)
(** ** Numbered items *)
(* ------------------------------------------------------------------ *)

Section EnumFacts.

Context {X : Type}.

Lemma enum_fst (l : list X) : forall i, map fst (enum i l) = seq i (length l).
Proof. induction l; simpl; intros; f_equal; auto. Qed.

Lemma enum_snd (l : list X) : forall i, map snd (enum i l) = l.
Proof. induction l; simpl; intros; f_equal; auto. Qed.


Lemma enum_nodup (l : list X) i : NoDup (map fst (enum i l)).
Proof. rewrite enum_fst. apply seq_NoDup. Qed.

Lemma enum_in (l : list X) :
  forall i j x, In (j, x) (enum i l) <-> i <= j /\ nth_error l (j - i) = Some x.
Proof.
  induction l as [|y l IH]; simpl; intros i j x.
  - split; [tauto|]. intros [_ H]. destruct (j - i); discriminate.
  - rewrite IH. split.
    + intros [E|[Hle Hn]].
      * inversion E; subst. split; auto. now rewrite Nat.sub_diag.
      * split; [lia|]. replace (j - i) with (S (j - S i)) by lia. exact Hn.
    + intros [Hle Hn]. destruct (Nat.eq_dec i j) as [->|Hne].
      * rewrite Nat.sub_diag in Hn. simpl in Hn. inversion Hn. now left.
      * right. split; [lia|].
        replace (j - i) with (S (j - S i)) in Hn by lia. exact Hn.
Qed.

Lemma enum_in_snd (l : list X) i j x : In (j, x) (enum i l) -> In x l.
Proof. intros H. apply (in_map snd) in H. now rewrite enum_snd in H. Qed.

Lemma in_enum (l : list X) i x : In x l -> exists j, In (j, x) (enum i l).
Proof.
  intros H. rewrite <- (enum_snd l i) in H. apply in_map_iff in H.
  destruct H as ([j y] & E & Hin). simpl in E. subst. eauto.
Qed.

Lemma nodup_fst_functional (l : list (nat * X)) i x y :
  NoDup (map fst l) -> In (i, x) l -> In (i, y) l -> x = y.
Proof.
  induction l as [|[j z] l IH]; simpl; intros Hd Hx Hy; [contradiction|].
  inversion Hd as [|? ? Hn Hd']; subst.
  destruct Hx as [Ex|Hx], Hy as [Ey|Hy].
  - congruence.
  - inversion Ex; subst. exfalso. apply Hn. now apply (in_map fst) in Hy.
  - inversion Ey; subst. exfalso. apply Hn. now apply (in_map fst) in Hx.
  - eauto.
Qed.

Lemma nodup_fst_filter (f : nat * X -> bool) (l : list (nat * X)) :
  NoDup (map fst l) -> NoDup (map fst (filter f l)).
Proof.
  induction l as [|a l IH]; simpl; intros Hd; [constructor|].
  inversion Hd as [|? ? Hn Hd']; subst.
  destruct (f a); simpl; auto. constructor; auto.
  intros Hin. apply Hn. apply in_map_iff in Hin.
  destruct Hin as (y & E & Hin). apply filter_In in Hin.
  apply in_map_iff. exists y. tauto.
Qed.

End EnumFacts.

(* ------------------------------------------------------------------ *)
(** ** What a node of the index holds *)
(* ------------------------------------------------------------------ *)

Section NodeFacts.

Context {V : Type}.
Implicit Types (ibs : list (nat * Block V)) (k : Z).

Lemma arrivals_in ibs k i w :
  In (i, w) (arrivals ibs k) <->
  exists b, In (i, b) ibs /\ start b = k /\ w = value b.
Proof.
  unfold arrivals. rewrite in_map_iff. split.
  - intros ([j b] & E & Hin). simpl in E. inversion E; subst.
    apply filter_In in Hin. simpl in Hin. destruct Hin as [Hin Hk].
    apply Z.eqb_eq in Hk. eauto.
  - intros (b & Hin & Hk & ->). exists (i, b). split; [reflexivity|].
    apply filter_In. simpl. split; auto. now apply Z.eqb_eq.
Qed.

Lemma arrivals_ids_in ibs k i :
  In i (map fst (arrivals ibs k)) <-> exists b, In (i, b) ibs /\ start b = k.
Proof.
  rewrite in_map_iff. split.
  - intros ([j w] & E & Hin). simpl in E. subst.
    apply arrivals_in in Hin. destruct Hin as (b & ? & ? & ?). eauto.
  - intros (b & Hin & Hk). exists (i, value b). split; [reflexivity|].
    apply arrivals_in. eauto.
Qed.

Lemma departures_in ibs k i :
  In i (departures ibs k) <-> exists b, In (i, b) ibs /\ end_ b = k.
Proof.
  unfold departures. rewrite in_map_iff. split.
  - intros ([j b] & E & Hin). simpl in E. subst.
    apply filter_In in Hin. simpl in Hin. destruct Hin as [Hin Hk].
    apply Z.eqb_eq in Hk. eauto.
  - intros (b & Hin & Hk). exists (i, b). split; [reflexivity|].
    apply filter_In. simpl. split; auto. now apply Z.eqb_eq.
Qed.

Lemma arrivals_nodup ibs k :
  NoDup (map fst ibs) -> NoDup (map fst (arrivals ibs k)).
Proof.
  intros H. unfold arrivals. rewrite map_map. simpl.
  now apply nodup_fst_filter.
Qed.

Lemma coords_in ibs k :
  In k (coords ibs) <-> exists i b, In (i, b) ibs /\ (start b = k \/ end_ b = k).
Proof.
  unfold coords. rewrite in_flat_map. split.
  - intros ([i b] & Hin & Hk). simpl in Hk. exists i, b. tauto.
  - intros (i & b & Hin & Hk). exists (i, b). simpl. tauto.
Qed.

End NodeFacts.

(* ------------------------------------------------------------------ *)
(** ** The spans of a traversal *)
(* ------------------------------------------------------------------ *)

Section SpanFacts.

Context {V : Type}.
Implicit Types (t : RBTree.t (NodeValue V)) (m : JsMap.t V) (sp : Span V).

Lemma sorted_app (l1 l2 : list Z) :
  StronglySorted Z.lt (l1 ++ l2) ->
  StronglySorted Z.lt l1 /\ StronglySorted Z.lt l2 /\
  (forall x y, In x l1 -> In y l2 -> (x < y)%Z).
Proof.
  induction l1 as [|a l1 IH]; simpl; intros H.
  - split; [constructor|]. split; [assumption|]. intros ? ? [].
  - apply StronglySorted_inv in H. destruct H as [Hs Hf].
    destruct (IH Hs) as (H1 & H2 & H12).
    rewrite Forall_forall in Hf.
    split.
    + constructor; auto. apply Forall_forall. intros x Hx.
      apply Hf. apply in_or_app. now left.
    + split; auto. intros x y [E|Hx] Hy.
      * subst. apply Hf. apply in_or_app. now right.
      * now apply H12.
Qed.

Lemma spans_in t :
  forall m sp, In sp (spans t m) ->
    exists done nv nv' rest,
      t = done ++ (sp_start sp, nv) :: (sp_end sp, nv') :: rest /\
      sp_active sp = visited m (done ++ [(sp_start sp, nv)]).
Proof.
  induction t as [|[k nv] t IH]; intros m sp H; [contradiction|].
  destruct t as [|[k' nv'] t]; [contradiction|].
  rewrite spans_cons in H. destruct H as [E|H].
  - subst sp. exists [], nv, nv', t. simpl. auto.
  - apply IH in H. destruct H as (done & nv0 & nv0' & rest & Et & Ea).
    exists ((k, nv) :: done), nv0, nv0', rest. simpl. rewrite Et. auto.
Qed.

Lemma spans_keys t m sp :
  In sp (spans t m) ->
  In (sp_start sp) (RBTree.keys t) /\ In (sp_end sp) (RBTree.keys t).
Proof.
  intros H. apply spans_in in H.
  destruct H as (done & nv & nv' & rest & Et & _). rewrite Et.
  unfold RBTree.keys. rewrite map_app. simpl.
  split; apply in_or_app; right; simpl; auto.
Qed.

Lemma spans_between t m sp :
  ordered t -> In sp (spans t m) ->
  (sp_start sp < sp_end sp)%Z /\
  (forall c, In c (RBTree.keys t) -> (c <= sp_start sp \/ sp_end sp <= c)%Z).
Proof.
  intros Ho H. apply spans_in in H.
  destruct H as (done & nv & nv' & rest & Et & _).
  unfold ordered in Ho. rewrite Et in *. unfold RBTree.keys in *.
  rewrite map_app in *. simpl in *.
  apply sorted_app in Ho. destruct Ho as (H1 & H2 & H12).
  apply StronglySorted_inv in H2. destruct H2 as [H2 F2].
  apply StronglySorted_inv in H2. destruct H2 as [H2 F3].
  rewrite Forall_forall in F2, F3.
  split.
  - apply F2. now left.
  - intros c Hc. apply in_app_or in Hc. destruct Hc as [Hc|[E|[E|Hc]]].
    + left. apply Z.lt_le_incl. apply H12; simpl; auto.
    + left. lia.
    + right. lia.
    + right. apply F3 in Hc. lia.
Qed.

Lemma spans_sorted t :
  ordered t -> forall m, StronglySorted span_before (spans t m).
Proof.
  induction t as [|[k nv] t IH]; intros Ho m; [constructor|].
  destruct t as [|[k' nv'] t]; [constructor|].
  rewrite spans_cons.
  pose proof (RBTreeFacts.ordered_inv _ _ _ Ho) as [Hs Hf].
  constructor; [now apply IH|].
  apply Forall_forall. intros sp Hin. unfold span_before. simpl.
  apply spans_keys in Hin. destruct Hin as [Hin _].
  simpl in Hin. destruct Hin as [E|Hin]; [lia|].
  apply RBTreeFacts.ordered_inv in Hs. destruct Hs as [_ Hf'].
  apply Hf' in Hin. lia.
Qed.

Lemma spans_chain t : forall m, Sorted span_meets (spans t m).
Proof.
  induction t as [|[k nv] t IH]; intros m; [constructor|].
  destruct t as [|[k' nv'] t]; [constructor|].
  rewrite spans_cons. constructor; [apply IH|].
  destruct t as [|[k'' nv''] t]; [constructor|].
  rewrite spans_cons. constructor. reflexivity.
Qed.

Lemma spans_cover t :
  ordered t ->
  forall m p a z,
    In a (RBTree.keys t) -> In z (RBTree.keys t) -> (a <= p < z)%Z ->
    exists sp, In sp (spans t m) /\ (sp_start sp <= p < sp_end sp)%Z.
Proof.
  induction t as [|[k nv] t IH]; intros Ho m p a z Ha Hz Hp; [contradiction|].
  pose proof (RBTreeFacts.ordered_inv _ _ _ Ho) as [Hs Hf].
  assert (Hka : (k <= a)%Z).
  { simpl in Ha. destruct Ha as [E|Ha]; [lia|]. apply Hf in Ha. lia. }
  destruct t as [|[k' nv'] t].
  - simpl in Ha, Hz. destruct Ha as [<-|[]], Hz as [<-|[]]. lia.
  - rewrite spans_cons. destruct (Z.lt_ge_cases p k') as [Hlt|Hge].
    + exists (mkSpan k k' (visit m nv)). simpl. split; auto. lia.
    + destruct (IH Hs (visit m nv) p k' z) as (sp & Hin & Hsp).
      * simpl. auto.
      * simpl in Hz. destruct Hz as [E|Hz]; [|exact Hz].
        assert (k < k')%Z by (apply Hf; simpl; auto). lia.
      * lia.
      * exists sp. split; [now right|assumption].
Qed.

(** The Active Set once the nodes of the keys [ks] have been visited, in
    ascending order, starting from the empty map. *)
Lemma visited_index_in (ibs : list (nat * Block V)) :
  NoDup (map fst ibs) ->
  forall ks, StronglySorted Z.lt ks ->
  forall i w,
    In (i, w) (visited JsMap.empty (index_over ibs ks)) <->
    exists b, In (i, b) ibs /\ w = value b /\ In (start b) ks /\
              (In (end_ b) ks -> (end_ b < start b)%Z).
Proof.
  intros Hd ks. induction ks as [|k ks IH] using rev_ind; intros Hs i w.
  - simpl. split; [tauto|]. intros (b & _ & _ & [] & _).
  - apply sorted_app in Hs. destruct Hs as (Hs & _ & Hlt).
    specialize (IH Hs).
    assert (Hk : forall x, In x ks -> (x < k)%Z)
      by (intros x Hx; apply Hlt; simpl; auto).
    unfold index_over in *. rewrite map_app, visited_app. simpl.
    set (m := visited JsMap.empty (map (fun k0 => (k0, node_at ibs k0)) ks)) in *.
    assert (Hm : NoDup (JsMap.ids m)) by (apply visited_nodup; constructor).
    rewrite (visit_in m (node_at ibs k) i w Hm (arrivals_nodup ibs k Hd)).
    simpl. rewrite arrivals_in, arrivals_ids_in, departures_in, IH.
    split.
    + intros [Hnd [(b & Hin & Hst & ->)|[Hna (b & Hin & -> & Hst & Hen)]]].
      * exists b. repeat split; auto.
        { apply in_or_app. right. simpl. auto. }
        intros He. apply in_app_or in He. destruct He as [He|[E|[]]].
        { apply Hk in He. lia. }
        exfalso. apply Hnd. eauto.
      * exists b. repeat split; auto.
        { apply in_or_app. now left. }
        intros He. apply in_app_or in He. destruct He as [He|[E|[]]]; auto.
        exfalso. apply Hnd. eauto.
    + intros (b & Hin & -> & Hst & Hen).
      assert (Hle : (start b <= k)%Z).
      { apply in_app_or in Hst. destruct Hst as [Hst|[E|[]]]; [|lia].
        apply Hk in Hst. lia. }
      split.
      * intros (b' & Hin' & He').
        assert (b' = b) by (eapply nodup_fst_functional; eauto). subst b'.
        assert (end_ b < start b)%Z.
        { apply Hen. apply in_or_app. right. simpl. auto. }
        lia.
      * apply in_app_or in Hst. destruct Hst as [Hst|[E|[]]].
        { right. split.
          - intros (b' & Hin' & Hs').
            assert (b' = b) by (eapply nodup_fst_functional; eauto). subst b'.
            apply Hk in Hst. lia.
          - exists b. repeat split; auto.
            intros He. apply Hen. apply in_or_app. now left. }
        left. exists b. auto.
Qed.

End SpanFacts.

(* ------------------------------------------------------------------ *)
(** ** The Active Set of every span, read off the blocks *)
(* ------------------------------------------------------------------ *)

Section SweepFacts.

Context {V : Type}.
Implicit Types (bs : list (Block V)) (sp : Span V).

Lemma index_over_forall (ibs : list (nat * Block V)) (t : RBTree.t (NodeValue V)) :
  t = index_over ibs (RBTree.keys t) <->
  Forall (fun kn => snd kn = node_at ibs (fst kn)) t.
Proof.
  induction t as [|[k nv] t IH]; simpl.
  - split; auto.
  - split.
    + intros E. unfold index_over in E. simpl in E. injection E as E1 E2.
      constructor; [exact E1|]. apply IH. exact E2.
    + intros H. inversion H as [|? ? H1 H2]; subst. simpl in H1.
      apply IH in H2. unfold index_over in *. simpl. congruence.
Qed.

Lemma index_keys_of_block bs i b :
  In (i, b) (enum 0 bs) ->
  In (start b) (RBTree.keys (build_index 0 bs RBTree.empty)) /\
  In (end_ b) (RBTree.keys (build_index 0 bs RBTree.empty)).
Proof.
  intros Hin. destruct (index_shape bs) as (_ & Hk & _).
  split; apply Hk; apply coords_in; exists i, b; auto.
Qed.

Lemma span_active bs sp :
  In sp (spans (build_index 0 bs RBTree.empty) JsMap.empty) ->
  NoDup (JsMap.ids (sp_active sp)) /\
  (forall i w, In (i, w) (sp_active sp) <-> active_in (enum 0 bs) sp i w).
Proof.
  intros Hsp.
  destruct (index_shape bs) as (Ho & Hk & Et).
  set (tree := build_index 0 bs RBTree.empty) in *.
  destruct (spans_in _ _ _ Hsp) as (done & nv & nv' & rest & Ed & Ea).
  split.
  { rewrite Ea. apply visited_nodup. constructor. }
  apply index_over_forall in Et.
  assert (Ekeys : RBTree.keys tree =
                  (RBTree.keys done ++ [sp_start sp]) ++
                  sp_end sp :: RBTree.keys rest).
  { rewrite Ed. unfold RBTree.keys. rewrite map_app. simpl.
    now rewrite <- app_assoc. }
  assert (Edone : done ++ [(sp_start sp, nv)] =
                  index_over (enum 0 bs) (RBTree.keys done ++ [sp_start sp])).
  { replace (RBTree.keys done ++ [sp_start sp])
      with (RBTree.keys (done ++ [(sp_start sp, nv)]))
      by (unfold RBTree.keys; now rewrite map_app).
    apply index_over_forall. rewrite Ed in Et.
    apply Forall_app in Et. destruct Et as [E1 E2].
    apply Forall_app. split; auto.
    inversion E2; subst. constructor; auto. }
  unfold ordered in Ho. rewrite Ekeys in Ho.
  apply sorted_app in Ho. destruct Ho as (H1 & H2 & H12).
  pose proof (sorted_app _ _ H1) as (_ & _ & H1k).
  apply StronglySorted_inv in H2. destruct H2 as [_ F2].
  rewrite Forall_forall in F2.
  assert (Hlo : forall x, In x (RBTree.keys done ++ [sp_start sp]) ->
                          (x <= sp_start sp)%Z).
  { intros x Hx. apply in_app_or in Hx. destruct Hx as [Hx|[E|[]]]; [|lia].
    apply Z.lt_le_incl. apply H1k; simpl; auto. }
  assert (Hhi : forall y, In y (sp_end sp :: RBTree.keys rest) ->
                          (sp_end sp <= y)%Z).
  { intros y [E|Hy]; [lia|]. apply F2 in Hy. lia. }
  assert (Hlt : (sp_start sp < sp_end sp)%Z).
  { apply H12; [apply in_or_app; right|]; simpl; auto. }
  intros i w. rewrite Ea, Edone.
  rewrite (visited_index_in (enum 0 bs) (enum_nodup bs 0) _ H1).
  unfold active_in. split.
  - intros (b & Hin & -> & Hst & Hen). exists b. repeat split; auto.
    destruct (index_keys_of_block bs i b Hin) as [_ He].
    fold tree in He. rewrite Ekeys in He. apply in_app_or in He.
    destruct He as [He|He]; [right; auto|left; auto].
  - intros (b & Hin & -> & Hst & Hen). exists b. repeat split; auto.
    + destruct (index_keys_of_block bs i b Hin) as [Hs _].
      fold tree in Hs. rewrite Ekeys in Hs. apply in_app_or in Hs.
      destruct Hs as [Hs|Hs]; auto. apply Hhi in Hs. lia.
    + intros He. apply Hlo in He. lia.
Qed.

(** Which blocks the aggregation of a span sees, when the blocks around
    the point are well formed: those whose range contains the point. *)
Lemma active_in_covers bs sp i b p :
  In sp (spans (build_index 0 bs RBTree.empty) JsMap.empty) ->
  In (i, b) (enum 0 bs) -> (sp_start sp <= p < sp_end sp)%Z ->
  covers b p -> active_in (enum 0 bs) sp i (value b).
Proof.
  intros Hsp Hin Hp [Hc1 Hc2].
  destruct (index_shape bs) as (Ho & _ & _).
  destruct (spans_between _ _ _ Ho Hsp) as [Hlt Hbt].
  destruct (index_keys_of_block bs i b Hin) as [Hs He].
  exists b. repeat split; auto.
  - destruct (Hbt _ Hs); lia.
  - left. destruct (Hbt _ He); lia.
Qed.

Lemma covers_of_active_in bs sp i w p :
  In sp (spans (build_index 0 bs RBTree.empty) JsMap.empty) ->
  Forall (fun b => (start b < end_ b)%Z) bs ->
  (sp_start sp <= p < sp_end sp)%Z ->
  active_in (enum 0 bs) sp i w ->
  exists b, In (i, b) (enum 0 bs) /\ w = value b /\ covers b p.
Proof.
  intros Hsp Hv Hp (b & Hin & -> & Hst & Hen).
  exists b. repeat split; auto; unfold covers.
  - lia.
  - rewrite Forall_forall in Hv.
    assert (start b < end_ b)%Z by (apply Hv; eapply enum_in_snd; eauto).
    lia.
Qed.

End SweepFacts.

(* ================================================================== *)
(** * Index construction *)
(* ================================================================== *)

Section Partition.

Context {X : Type}.

Lemma filter_split_perm (f : X -> bool) (l : list X) :
  Permutation (filter f l ++ filter (fun x => negb (f x)) l) l.
Proof.
  induction l as [|a l IH]; simpl; [constructor|].
  destruct (f a); simpl.
  - now constructor.
  - apply Permutation_sym. eapply Permutation_trans.
    + apply perm_skip. apply Permutation_sym. exact IH.
    + apply Permutation_middle.
Qed.

Lemma flat_map_ext_in {Y Z0 : Type} (f g : Y -> list Z0) (l : list Y) :
  (forall y, In y l -> f y = g y) -> flat_map f l = flat_map g l.
Proof.
  induction l as [|a l IH]; simpl; intros H; [reflexivity|].
  rewrite H by auto. f_equal. apply IH. auto.
Qed.

Lemma flat_map_map {Y Z0 : Type} (g : X -> Z0) (F : Y -> list X) (l : list Y) :
  flat_map (fun y => map g (F y)) l = map g (flat_map F l).
Proof.
  induction l as [|a l IH]; simpl; [reflexivity|].
  now rewrite map_app, IH.
Qed.

(** Sorting a list into buckets by key loses and duplicates nothing. *)
Lemma partition_by_key (key : X -> Z) (ks : list Z) :
  NoDup ks ->
  forall l, (forall x, In x l -> In (key x) ks) ->
    Permutation (flat_map (fun k => filter (fun x => Z.eqb (key x) k) l) ks) l.
Proof.
  induction 1 as [|k ks Hn Hd IH]; intros l Hl.
  - destruct l as [|x l]; [constructor|]. exfalso. apply (Hl x). now left.
  - simpl.
    set (l' := filter (fun x => negb (Z.eqb (key x) k)) l).
    eapply Permutation_trans; [|apply (filter_split_perm (fun x => Z.eqb (key x) k) l)].
    apply Permutation_app_head. fold l'.
    rewrite (flat_map_ext_in
               (fun k0 => filter (fun x => Z.eqb (key x) k0) l)
               (fun k0 => filter (fun x => Z.eqb (key x) k0) l')).
    + apply IH. intros x Hx. apply filter_In in Hx. destruct Hx as [Hx Hk].
      destruct (Hl x Hx) as [E|Hin]; auto.
      rewrite <- E, Z.eqb_refl in Hk. discriminate.
    + intros k0 Hk0. unfold l'. clear - Hn Hk0.
      induction l as [|a l IHl]; simpl; [reflexivity|].
      destruct (Z.eqb_spec (key a) k0) as [E|N]; simpl.
      * destruct (Z.eqb_spec (key a) k) as [E'|N']; simpl.
        { exfalso. apply Hn. congruence. }
        rewrite E, Z.eqb_refl. now f_equal.
      * destruct (Z.eqb_spec (key a) k); simpl; auto.
        destruct (Z.eqb_spec (key a) k0); [contradiction|auto].
Qed.

End Partition.

Section IndexClaims.

Context {V : Type}.

Lemma index_get (bs : list (Block V)) k :
  RBTree.get (build_index 0 bs RBTree.empty) k =
  if in_dec Z.eq_dec k (coords (enum 0 bs))
  then Some (node_at (enum 0 bs) k) else None.
Proof.
  assert (H0 : ordered (@RBTree.empty (NodeValue V))) by constructor.
  destruct (build_index_spec bs 0 RBTree.empty H0) as (Ho & Hk & Hn).
  destruct (in_dec Z.eq_dec k (coords (enum 0 bs))) as [Hin|Hni].
  - assert (Hin' : In k (RBTree.keys (build_index 0 bs RBTree.empty)))
      by (apply Hk; now right).
    destruct (RBTreeFacts.get_some _ _ Hin') as [x Hx].
    rewrite Hx. f_equal. specialize (Hn k). unfold node_of in Hn.
    rewrite Hx in Hn. simpl in Hn. now rewrite node_app_empty_l in Hn.
  - apply RBTreeFacts.get_none. rewrite Hk. simpl. tauto.
Qed.

Lemma index_arrivals_perm (bs : list (Block V)) :
  Permutation
    (flat_map (fun kn => nstart (snd kn)) (build_index 0 bs RBTree.empty))
    (map (fun ib => (fst ib, value (snd ib))) (enum 0 bs)).
Proof.
  destruct (index_shape bs) as (Ho & Hk & Et). rewrite Et.
  unfold index_over. rewrite flat_map_concat_map, map_map.
  rewrite <- flat_map_concat_map. simpl. unfold arrivals.
  rewrite flat_map_map. apply Permutation_map.
  apply (partition_by_key (fun ib : nat * Block V => start (snd ib))).
  - now apply RBTreeFacts.ordered_nodup.
  - intros [i b] Hin. simpl. apply Hk. apply coords_in. eauto.
Qed.

Lemma index_departures_perm (bs : list (Block V)) :
  Permutation
    (flat_map (fun kn => nend (snd kn)) (build_index 0 bs RBTree.empty))
    (seq 0 (length bs)).
Proof.
  destruct (index_shape bs) as (Ho & Hk & Et). rewrite Et.
  unfold index_over. rewrite flat_map_concat_map, map_map.
  rewrite <- flat_map_concat_map. simpl. unfold departures.
  rewrite flat_map_map. rewrite <- (enum_fst bs 0). apply Permutation_map.
  apply (partition_by_key (fun ib : nat * Block V => end_ (snd ib))).
  - now apply RBTreeFacts.ordered_nodup.
  - intros [i b] Hin. simpl. apply Hk. apply coords_in. eauto.
Qed.

End IndexClaims.

(** C6.  Index construction is faithful and lossless.  When the normalizer
    returns block [b_i] for the item at position [i], [createRedBlackTree]
    returns a tree, ordered by key, in which a node exists exactly at the
    start and end coordinates of the blocks; the node at key [k] lists, in
    item order, the pairs [(i, b_i.value)] of the blocks starting at [k] and
    the ids [i] of the blocks ending at [k]; and over all nodes every pair
    [(i, b_i.value)] occurs exactly once among the arrival lists and every
    id [0..n-1] exactly once among the departure lists. *)
Theorem index_faithful_lossless {Item V A R Exn : Type}
    (this : Aggregator Item V A R Exn) (items : list Item) (bs : list (Block V)) :
  Forall2 (fun item b => itemPreProcessor this item = Ok b) items bs ->
  exists tree,
    createRedBlackTree this items = (map EvPre items, Ok tree) /\
    ordered tree /\
    (forall k, RBTree.get tree k =
               if in_dec Z.eq_dec k (coords (enum 0 bs))
               then Some (mkNodeValue (arrivals (enum 0 bs) k)
                                      (departures (enum 0 bs) k))
               else None) /\
    Permutation (flat_map (fun kn => nstart (snd kn)) tree)
                (map (fun ib => (fst ib, value (snd ib))) (enum 0 bs)) /\
    Permutation (flat_map (fun kn => nend (snd kn)) tree)
                (seq 0 (length items)).
Proof.
  intros H. exists (build_index 0 bs RBTree.empty).
  split; [apply createRedBlackTree_loop_ok; assumption|].
  split; [apply (index_shape bs)|].
  split; [intros k; apply index_get|].
  split; [apply index_arrivals_perm|].
  rewrite (Forall2_length H). apply index_departures_perm.
Qed.

Lemma index_faithful_lossless_witness :
  exists tree,
    createRedBlackTree listing overlapping = (map EvPre overlapping, Ok tree) /\
    ordered tree /\
    (forall k, RBTree.get tree k =
               if in_dec Z.eq_dec k (coords (enum 0 overlapping))
               then Some (mkNodeValue (arrivals (enum 0 overlapping) k)
                                      (departures (enum 0 overlapping) k))
               else None) /\
    Permutation (flat_map (fun kn => nstart (snd kn)) tree)
                (map (fun ib => (fst ib, value (snd ib))) (enum 0 overlapping)) /\
    Permutation (flat_map (fun kn => nend (snd kn)) tree)
                (seq 0 (length overlapping)).
Proof.
  apply (index_faithful_lossless listing overlapping overlapping).
  repeat constructor.
Defined.

(* ================================================================== *)
(** * The emitted sequence *)
(* ================================================================== *)

Section SortedFacts.

Context {X : Type}.
Variable Rel : X -> X -> Prop.

Lemma ssorted_filter (f : X -> bool) (l : list X) :
  StronglySorted Rel l -> StronglySorted Rel (filter f l).
Proof.
  induction 1 as [|a l Hs IH Hf]; simpl; [constructor|].
  destruct (f a); auto. constructor; auto.
  rewrite Forall_forall in *. intros x Hx. apply Hf.
  apply filter_In in Hx. tauto.
Qed.

Lemma ssorted_split (l1 : list X) (x : X) (l2 : list X) :
  StronglySorted Rel (l1 ++ x :: l2) ->
  Forall (fun y => Rel y x) l1 /\ Forall (Rel x) l2.
Proof.
  induction l1 as [|a l1 IH]; simpl; intros H.
  - apply StronglySorted_inv in H. split; [constructor|tauto].
  - apply StronglySorted_inv in H. destruct H as [Hs Hf].
    destruct (IH Hs) as [H1 H2]. split; auto.
    constructor; auto. rewrite Forall_forall in Hf. apply Hf.
    apply in_or_app. right. now left.
Qed.

Lemma ssorted_map {Y : Type} (RelY : Y -> Y -> Prop) (g : X -> Y) (l : list X) :
  (forall a b, Rel a b -> RelY (g a) (g b)) ->
  StronglySorted Rel l -> StronglySorted RelY (map g l).
Proof.
  intros Hg. induction 1 as [|a l Hs IH Hf]; simpl; constructor; auto.
  rewrite Forall_forall in *. intros y Hy. apply in_map_iff in Hy.
  destruct Hy as (x & <- & Hx). auto.
Qed.

End SortedFacts.

Section CoverageFacts.

Context {V : Type}.
Implicit Types (bs : list (Block V)) (sp : Span V).

Lemma coversb_spec {W : Type} (b : Block W) p : coversb b p = true <-> covers b p.
Proof.
  unfold coversb, covers. rewrite andb_true_iff, Z.leb_le, Z.ltb_lt. tauto.
Qed.

Lemma filter_snd {Y : Type} (f : Y -> bool) (l : list (nat * Y)) :
  map snd (filter (fun iy => f (snd iy)) l) = filter f (map snd l).
Proof.
  induction l as [|[i y] l IH]; simpl; [reflexivity|].
  destruct (f y); simpl; now rewrite IH.
Qed.

Lemma live_spec sp : live sp = true <-> sp_active sp <> [].
Proof.
  unfold live, JsMap.size. destruct (sp_active sp); simpl; split;
    congruence.
Qed.

Lemma live_spans_in bs sp :
  In sp (live_spans bs) <->
  In sp (spans (build_index 0 bs RBTree.empty) JsMap.empty) /\ sp_active sp <> [].
Proof. unfold live_spans. rewrite filter_In, live_spec. tauto. Qed.

Lemma live_spans_sorted bs : StronglySorted span_before (live_spans bs).
Proof.
  unfold live_spans. apply ssorted_filter. apply spans_sorted.
  apply (index_shape bs).
Qed.

(** A point inside a well-formed block lies in a live span. *)
Lemma covered_point_span bs b p :
  In b bs -> covers b p ->
  exists sp, In sp (live_spans bs) /\ (sp_start sp <= p < sp_end sp)%Z.
Proof.
  intros Hb Hc. destruct (in_enum bs 0 b Hb) as [i Hin].
  destruct (index_shape bs) as (Ho & _ & _).
  destruct (index_keys_of_block bs i b Hin) as [Hs He].
  destruct (spans_cover _ Ho JsMap.empty p _ _ Hs He Hc) as (sp & Hsp & Hp).
  exists sp. split; auto. apply live_spans_in. split; auto.
  pose proof (active_in_covers bs sp i b p Hsp Hin Hp Hc) as Ha.
  apply (proj2 (span_active bs sp Hsp)) in Ha.
  intros E. rewrite E in Ha. contradiction.
Qed.

(** Over well-formed blocks, the Active Set of the span around [p] holds
    exactly the blocks whose range contains [p], each once. *)
Lemma span_active_perm bs sp p :
  Forall (fun b => (start b < end_ b)%Z) bs ->
  In sp (spans (build_index 0 bs RBTree.empty) JsMap.empty) ->
  (sp_start sp <= p < sp_end sp)%Z ->
  Permutation (JsMap.values (sp_active sp))
              (map value (filter (fun b => coversb b p) bs)).
Proof.
  intros Hv Hsp Hp. destruct (span_active bs sp Hsp) as [Hnd Hiff].
  assert (Hperm : Permutation (sp_active sp)
            (map (fun ib => (fst ib, value (snd ib)))
                 (filter (fun ib => coversb (snd ib) p) (enum 0 bs)))).
  { apply NoDup_Permutation.
    - now apply JsMapFacts.nodup_pairs.
    - apply (NoDup_map_inv fst). rewrite map_map. simpl.
      apply nodup_fst_filter. apply enum_nodup.
    - intros [i w]. rewrite Hiff, in_map_iff. split.
      + intros Ha.
        destruct (covers_of_active_in bs sp i w p Hsp Hv Hp Ha)
          as (b & Hin & -> & Hc).
        exists (i, b). split; [reflexivity|]. apply filter_In. split; auto.
        simpl. now apply coversb_spec.
      + intros ([j b] & E & Hin). simpl in E. inversion E; subst.
        apply filter_In in Hin. destruct Hin as [Hin Hc]. simpl in Hc.
        apply coversb_spec in Hc.
        eapply active_in_covers; eauto. }
  unfold JsMap.values. rewrite (Permutation_map snd Hperm).
  rewrite map_map. simpl.
  rewrite <- (map_map snd value). rewrite (filter_snd (fun b => coversb b p)).
  now rewrite enum_snd.
Qed.

End CoverageFacts.

(** C1.  Coverage completeness.  For callbacks that never throw and items
    whose blocks all have [start < end], every point [p] inside some input
    range lies in exactly one emitted block: the emitted sequence splits as
    [l1 ++ ob :: l2] with [p] in [[ob.start, ob.end)] and in no block of
    [l1] or [l2]; and [ob.value] is the aggregation function applied to a
    list holding exactly the payloads of the input ranges that contain [p]
    (each as often as such ranges carry it). *)
Theorem coverage_completeness {Item V A R : Type} (Exn : Type)
    (pre : Item -> Block V) (agg : list V -> A) (post : Block A -> R)
    (items : list Item) (p : Z) :
  Forall (fun item => (start (pre item) < end_ (pre item))%Z) items ->
  Exists (fun item => covers (pre item) p) items ->
  exists l1 ob l2 vs,
    emitted (fst (aggregate (pure_aggregator Exn pre agg post) items)) =
      l1 ++ ob :: l2 /\
    covers ob p /\
    Forall (fun ob' => ~ covers ob' p) (l1 ++ l2) /\
    value ob = agg vs /\
    Permutation vs (map value (filter (fun b => coversb b p) (map pre items))).
Proof.
  intros Hv Hex.
  rewrite aggregate_pure. cbn [fst].
  rewrite emitted_pre, emitted_span_events.
  set (bs := map pre items).
  assert (Hvb : Forall (fun b => (start b < end_ b)%Z) bs).
  { unfold bs. apply Forall_map. exact Hv. }
  apply Exists_exists in Hex. destruct Hex as (item & Hitem & Hc).
  assert (Hb : In (pre item) bs) by (unfold bs; now apply in_map).
  destruct (covered_point_span bs (pre item) p Hb Hc) as (sp & Hsp & Hp).
  destruct (in_split _ _ Hsp) as (s1 & s2 & Es).
  pose proof (live_spans_sorted bs) as Hsorted. rewrite Es in Hsorted.
  apply ssorted_split in Hsorted. destruct Hsorted as [F1 F2].
  exists (map (span_block agg) s1), (span_block agg sp),
         (map (span_block agg) s2), (JsMap.values (sp_active sp)).
  split; [rewrite Es, map_app; reflexivity|].
  split; [exact Hp|].
  split.
  - rewrite <- map_app. apply Forall_map. apply Forall_app.
    rewrite Forall_forall in F1, F2. split; apply Forall_forall;
      intros x Hx [Hx1 Hx2]; simpl in Hx1, Hx2.
    + apply F1 in Hx. unfold span_before in Hx. lia.
    + apply F2 in Hx. unfold span_before in Hx. lia.
  - split; [reflexivity|].
    apply span_active_perm; auto.
    apply live_spans_in in Hsp. tauto.
Qed.

Lemma coverage_completeness_witness :
  exists l1 ob l2 vs,
    emitted (fst (aggregate listing overlapping)) = l1 ++ ob :: l2 /\
    covers ob 7 /\
    Forall (fun ob' => ~ covers ob' 7) (l1 ++ l2) /\
    value ob = vs /\
    Permutation vs (map value (filter (fun b => coversb b 7) overlapping)).
Proof.
  assert (Hv : Forall (fun item : Block nat => (start item < end_ item)%Z)
                      overlapping)
    by (repeat constructor).
  assert (Hc : Exists (fun item : Block nat => covers item 7) overlapping)
    by (left; unfold covers; simpl; lia).
  destruct (coverage_completeness unit (fun b : Block nat => b)
              (fun values : list nat => values)
              (fun b : Block (list nat) => b) overlapping 7 Hv Hc)
    as (l1 & ob & l2 & vs & H).
  rewrite map_id in H.
  exists l1, ob, l2, vs. exact H.
Defined.

Section GapFacts.

Context {X : Type}.

Lemma filter_head (f : X -> bool) (l : list X) :
  forall b s, filter f l = b :: s ->
    exists mid m2, l = mid ++ b :: m2 /\ Forall (fun x => f x = false) mid /\
                   filter f m2 = s.
Proof.
  induction l as [|x l IH]; simpl; intros b s H; [discriminate|].
  destruct (f x) eqn:Ex.
  - inversion H; subst. exists [], l. simpl. auto.
  - destruct (IH _ _ H) as (mid & m2 & -> & Hf & Hs).
    exists (x :: mid), m2. simpl. auto.
Qed.

(** Two neighbours in a filtered list are separated, in the list itself,
    by rejected elements only. *)
Lemma filter_adjacent (f : X -> bool) (l : list X) :
  forall s1 a b s2, filter f l = s1 ++ a :: b :: s2 ->
    exists m1 mid m2, l = m1 ++ a :: mid ++ b :: m2 /\
                      Forall (fun x => f x = false) mid.
Proof.
  induction l as [|x l IH]; simpl; intros s1 a b s2 H.
  - destruct s1; discriminate.
  - destruct (f x) eqn:Ex.
    + destruct s1 as [|y s1]; simpl in H; inversion H; subst.
      * destruct (filter_head f l _ _ H2) as (mid & m2 & -> & Hf & _).
        exists [], mid, m2. simpl. auto.
      * destruct (IH _ _ _ _ H2) as (m1 & mid & m2 & -> & Hf).
        exists (y :: m1), mid, m2. simpl. auto.
    + destruct (IH _ _ _ _ H) as (m1 & mid & m2 & -> & Hf).
      exists (x :: m1), mid, m2. simpl. auto.
Qed.

Lemma sorted_app_r (Rel : X -> X -> Prop) (l1 l2 : list X) :
  Sorted Rel (l1 ++ l2) -> Sorted Rel l2.
Proof.
  induction l1 as [|a l1 IH]; simpl; intros H; auto.
  apply Sorted_inv in H. tauto.
Qed.

End GapFacts.

Section ContiguityFacts.

Context {V : Type}.
Implicit Types (bs : list (Block V)) (sp : Span V).

Lemma chain_gap (mid : list (Span V)) :
  forall a b m2 p,
    Sorted span_meets (a :: mid ++ b :: m2) ->
    (sp_end a <= p < sp_start b)%Z ->
    exists sp, In sp mid /\ (sp_start sp <= p < sp_end sp)%Z.
Proof.
  induction mid as [|c mid IH]; simpl; intros a b m2 p Hs Hp.
  - apply Sorted_inv in Hs. destruct Hs as [_ Hr].
    inversion Hr as [|? ? Hm]; subst. unfold span_meets in Hm. lia.
  - apply Sorted_inv in Hs. destruct Hs as [Hs Hr].
    inversion Hr as [|? ? Hm]; subst. unfold span_meets in Hm.
    destruct (Z.lt_ge_cases p (sp_end c)) as [Hlt|Hge].
    + exists c. split; auto. lia.
    + destruct (IH c b m2 p Hs) as (sp & Hin & Hsp); [lia|].
      exists sp. auto.
Qed.

(** Between two consecutive live spans, no input range holds a point. *)
Lemma gap_uncovered bs s1 a b s2 p :
  live_spans bs = s1 ++ a :: b :: s2 ->
  (sp_end a <= p < sp_start b)%Z ->
  forall blk, In blk bs -> ~ covers blk p.
Proof.
  intros E Hp blk Hblk Hc.
  unfold live_spans in E.
  destruct (filter_adjacent _ _ _ _ _ _ E) as (m1 & mid & m2 & El & Hdead).
  pose proof (spans_chain (build_index 0 bs RBTree.empty) JsMap.empty) as Hch.
  rewrite El in Hch. apply sorted_app_r in Hch.
  destruct (chain_gap mid a b m2 p Hch Hp) as (sp & Hin & Hsp).
  assert (Hsp_in : In sp (spans (build_index 0 bs RBTree.empty) JsMap.empty)).
  { rewrite El. apply in_or_app. right. right. apply in_or_app. now left. }
  rewrite Forall_forall in Hdead. specialize (Hdead sp Hin).
  assert (Hempty : sp_active sp = []).
  { destruct (sp_active sp) eqn:Ea; auto.
    unfold live in Hdead. rewrite Ea in Hdead. discriminate. }
  destruct (in_enum bs 0 blk Hblk) as [i Hi].
  pose proof (active_in_covers bs sp i blk p Hsp_in Hi Hsp Hc) as Ha.
  apply (proj2 (span_active bs sp Hsp_in)) in Ha.
  rewrite Hempty in Ha. contradiction.
Qed.

End ContiguityFacts.

(** C4.  Ordering.  For every input and callbacks that never throw: the
    returned sequence holds the formatter's result for each emitted block,
    in emission order, each aggregation call being followed by exactly one
    formatter call; every emitted block has [start < end]; every emitted
    block ends at or before the start of every later one; and where two
    consecutive emitted blocks do not touch, no input range contains any
    point between them, so covered territory is emitted without gap. *)
Theorem emitted_sequence_ordered {Item V A R : Type} (Exn : Type)
    (pre : Item -> Block V) (agg : list V -> A) (post : Block A -> R)
    (items : list Item) :
  let run := aggregate (pure_aggregator Exn pre agg post) items in
  snd run = Ok (map post (emitted (fst run))) /\
  map snd (emissions (fst run)) = emitted (fst run) /\
  map fst (emissions (fst run)) = aggregations (fst run) /\
  Forall (fun ob => (start ob < end_ ob)%Z) (emitted (fst run)) /\
  StronglySorted block_before (emitted (fst run)) /\
  (forall l1 ob1 ob2 l2 p,
      emitted (fst run) = l1 ++ ob1 :: ob2 :: l2 ->
      (end_ ob1 <= p < start ob2)%Z ->
      Forall (fun item => ~ covers (pre item) p) items).
Proof.
  intros run. unfold run. rewrite aggregate_pure. cbn [fst snd].
  rewrite emitted_pre, emissions_pre, aggregations_pre.
  rewrite emitted_span_events, emissions_span_events, aggregations_span_events.
  set (bs := map pre items).
  split; [now rewrite map_map|].
  split; [now rewrite map_map|].
  split; [now rewrite map_map|].
  split.
  { apply Forall_map. apply Forall_forall. intros sp Hsp. simpl.
    apply live_spans_in in Hsp. destruct Hsp as [Hsp _].
    eapply spans_between; eauto. apply (index_shape bs). }
  split.
  { apply (ssorted_map span_before block_before).
    - intros a b H. exact H.
    - apply live_spans_sorted. }
  intros l1 ob1 ob2 l2 p E Hp.
  apply map_eq_app in E. destruct E as (s1 & s' & Es & E1 & E2).
  destruct s' as [|a s']; [discriminate|]. simpl in E2.
  destruct s' as [|b s2]; [discriminate|]. simpl in E2.
  inversion E2; subst ob1 ob2.
  apply Forall_forall. intros item Hitem.
  apply (gap_uncovered bs s1 a b s2 p Es Hp).
  unfold bs. now apply in_map.
Qed.

Lemma emitted_sequence_ordered_witness :
  Forall (fun item : Block nat => ~ covers item 7) disjoint.
Proof.
  refine (proj2 (proj2 (proj2 (proj2 (proj2
            (emitted_sequence_ordered unit (fun b : Block nat => b)
               (fun values : list nat => values)
               (fun b : Block (list nat) => b) disjoint)))))
            [] (mkBlock 0 5 [1]) (mkBlock 10 15 [2]) [] 7%Z _ _).
  - reflexivity.
  - simpl. lia.
Defined.

(** C5.  No spurious spans.  For every input and callbacks that never
    throw: the aggregation function is only ever called on a non-empty
    Active Set, and each emitted block comes from one such call; and when
    the blocks all have [start < end], every point of an emitted block lies
    in some input range, so nothing is aggregated or formatted for a gap
    between input ranges. *)
Theorem no_spurious_spans {Item V A R : Type} (Exn : Type)
    (pre : Item -> Block V) (agg : list V -> A) (post : Block A -> R)
    (items : list Item) :
  let run := aggregate (pure_aggregator Exn pre agg post) items in
  Forall (fun m => m <> []) (aggregations (fst run)) /\
  map fst (emissions (fst run)) = aggregations (fst run) /\
  map snd (emissions (fst run)) = emitted (fst run) /\
  (Forall (fun item => (start (pre item) < end_ (pre item))%Z) items ->
   forall m ob p,
     In (m, ob) (emissions (fst run)) -> covers ob p ->
     Exists (fun item => covers (pre item) p) items).
Proof.
  intros run. unfold run. rewrite aggregate_pure. cbn [fst].
  rewrite emitted_pre, emissions_pre, aggregations_pre.
  rewrite emitted_span_events, emissions_span_events, aggregations_span_events.
  set (bs := map pre items).
  split.
  { apply Forall_map. apply Forall_forall. intros sp Hsp.
    apply live_spans_in in Hsp. tauto. }
  split; [now rewrite map_map|].
  split; [now rewrite map_map|].
  intros Hv m ob p Hin Hc.
  apply in_map_iff in Hin. destruct Hin as (sp & E & Hsp).
  inversion E; subst m ob. clear E.
  apply live_spans_in in Hsp. destruct Hsp as [Hsp Hne].
  destruct (sp_active sp) as [|[i w] rest] eqn:Ea; [congruence|].
  assert (Ha : active_in (enum 0 bs) sp i w).
  { apply (proj2 (span_active bs sp Hsp)). rewrite Ea. now left. }
  assert (Hvb : Forall (fun b => (start b < end_ b)%Z) bs)
    by (unfold bs; apply Forall_map; exact Hv).
  destruct (covers_of_active_in bs sp i w p Hsp Hvb Hc Ha) as (b & Hb & _ & Hcb).
  apply enum_in_snd in Hb. unfold bs in Hb. apply in_map_iff in Hb.
  destruct Hb as (item & <- & Hitem).
  apply Exists_exists. eauto.
Qed.

Lemma no_spurious_spans_witness :
  Exists (fun item : Block nat => covers item 12) disjoint.
Proof.
  refine (proj2 (proj2 (proj2
            (no_spurious_spans unit (fun b : Block nat => b)
               (fun values : list nat => values)
               (fun b : Block (list nat) => b) disjoint)))
            _ [(1, 2)] (mkBlock 10 15 [2]) 12%Z _ _).
  - repeat constructor.
  - simpl. right. left. reflexivity.
  - unfold covers. simpl. lia.
Defined.

Section ActiveBounds.

Context {V : Type}.

(** What having block [i] in the Active Set of a live span says about the
    block's coordinates. *)
Lemma active_block_bounds (bs : list (Block V)) (sp : Span V) i b w :
  In sp (live_spans bs) -> In (i, b) (enum 0 bs) ->
  In (i, w) (sp_active sp) ->
  (start b <= sp_start sp)%Z /\
  (sp_end sp <= end_ b \/ end_ b < start b)%Z /\
  (sp_start sp < sp_end sp)%Z.
Proof.
  intros Hsp Hin Hw. apply live_spans_in in Hsp. destruct Hsp as [Hsp _].
  apply (proj2 (span_active bs sp Hsp)) in Hw.
  destruct Hw as (b' & Hin' & _ & H1 & H2).
  assert (b' = b) by (eapply nodup_fst_functional; eauto; apply enum_nodup).
  subst b'. repeat split; auto.
  destruct (index_shape bs) as (Ho & _ & _).
  eapply spans_between; eauto.
Qed.

Lemma enum_nth_map {Item : Type} (pre : Item -> Block V) (items : list Item) i item :
  nth_error items i = Some item -> In (i, pre item) (enum 0 (map pre items)).
Proof.
  intros Hnth. apply enum_in. split; [lia|]. rewrite Nat.sub_0_r.
  rewrite nth_error_map, Hnth. reflexivity.
Qed.

End ActiveBounds.

(** C3.  Half-open coverage.  A node's arrivals enter the Active Set before
    its departures leave it.  For every input and callbacks that never
    throw, a block with [start < end] at position [i] is in the Active Set
    aggregated for the span that begins at its start coordinate, and in the
    Active Set of no span beginning at or after its end coordinate, whatever
    else starts there; and, arrivals coming first, an item whose block ends
    where it starts is in no aggregated Active Set at all. *)
Theorem half_open_coverage {Item V A R : Type} (Exn : Type)
    (pre : Item -> Block V) (agg : list V -> A) (post : Block A -> R)
    (items : list Item) (i : nat) (item : Item) :
  let run := aggregate (pure_aggregator Exn pre agg post) items in
  nth_error items i = Some item ->
  (start (pre item) < end_ (pre item))%Z ->
  (forall (m : JsMap.t V) (nv : NodeValue V),
      visit m nv = depart (arrive m nv) nv) /\
  (exists m ob, In (m, ob) (emissions (fst run)) /\
                start ob = start (pre item) /\
                In (i, value (pre item)) m) /\
  (forall m ob, In (m, ob) (emissions (fst run)) ->
                (end_ (pre item) <= start ob)%Z -> ~ In i (JsMap.ids m)) /\
  (forall i' item' m ob,
      nth_error items i' = Some item' ->
      start (pre item') = end_ (pre item') ->
      In (m, ob) (emissions (fst run)) -> ~ In i' (JsMap.ids m)).
Proof.
  intros run Hnth Hlt. unfold run. rewrite aggregate_pure. cbn [fst].
  rewrite emissions_pre, emissions_span_events.
  set (bs := map pre items). set (b := pre item) in *.
  assert (Hin : In (i, b) (enum 0 bs)) by now apply enum_nth_map.
  destruct (index_shape bs) as (Ho & _ & _).
  destruct (index_keys_of_block bs i b Hin) as [Hs He].
  split; [reflexivity|]. split; [|split].
  - assert (Hc : covers b (start b)) by (unfold covers; lia).
    destruct (spans_cover _ Ho JsMap.empty (start b) _ _ Hs He Hc)
      as (sp & Hsp & Hp).
    destruct (spans_between _ _ _ Ho Hsp) as [_ Hbt].
    pose proof (active_in_covers bs sp i b (start b) Hsp Hin Hp Hc) as Ha.
    apply (proj2 (span_active bs sp Hsp)) in Ha.
    exists (sp_active sp), (span_block agg sp). split; [|split].
    + apply in_map_iff. exists sp. split; [reflexivity|].
      apply live_spans_in. split; auto. intros E. rewrite E in Ha.
      contradiction.
    + simpl. destruct (Hbt _ Hs); lia.
    + exact Ha.
  - intros m ob Hm Hge Hi.
    apply in_map_iff in Hm. destruct Hm as (sp & E & Hsp).
    inversion E; subst m ob. clear E. simpl in Hge.
    apply in_map_iff in Hi. destruct Hi as ([j w] & Ej & Hw).
    simpl in Ej. subst j.
    destruct (active_block_bounds bs sp i b w Hsp Hin Hw) as (H1 & H2 & H3).
    lia.
  - intros i' item' m ob Hnth' Heq Hm Hi.
    apply in_map_iff in Hm. destruct Hm as (sp & E & Hsp).
    inversion E; subst m ob. clear E.
    apply in_map_iff in Hi. destruct Hi as ([j w] & Ej & Hw).
    simpl in Ej. subst j.
    pose proof (enum_nth_map pre items i' item' Hnth') as Hin'.
    destruct (active_block_bounds bs sp i' (pre item') w Hsp Hin' Hw)
      as (H1 & H2 & H3).
    lia.
Qed.

Lemma half_open_coverage_witness :
  (exists m ob, In (m, ob) (emissions (fst (aggregate listing degenerate_on_key))) /\
                start ob = 0%Z /\ In (0, 1) m) /\
  (forall m ob, In (m, ob) (emissions (fst (aggregate listing degenerate_on_key))) ->
                (10 <= start ob)%Z -> ~ In 0 (JsMap.ids m)) /\
  ~ In 1 (JsMap.ids [(0, 1); (2, 2)]).
Proof.
  destruct (half_open_coverage unit (fun b : Block nat => b)
              (fun values : list nat => values)
              (fun b : Block (list nat) => b) degenerate_on_key 0
              (mkBlock 0 10 1) eq_refl eq_refl)
    as (_ & H1 & H2 & H3).
  split; [exact H1|]. split; [exact H2|].
  refine (H3 1 (mkBlock 5 5 3) [(0, 1); (2, 2)] (mkBlock 5 10 [1; 2]) _ _ _).
  - reflexivity.
  - reflexivity.
  - simpl. right. left. reflexivity.
Defined.

(* ================================================================== *)
(** * The scan, step by step *)
(* ================================================================== *)

Section ScanFacts.

Context {Item V A R Exn : Type}.
Variable this : Aggregator Item V A R Exn.

Lemma scan_previous_loop (rest : RBTree.t (NodeValue V)) :
  forall k nv m out,
    scan_previous this rest (Some k) (visit m nv) out =
    aggregate_loop this ((k, nv) :: rest) m out.
Proof.
  induction rest as [|[k' nv'] rest IH]; intros k nv m out; [reflexivity|].
  rewrite aggregate_loop_cons. cbn [scan_previous].
  destruct (Nat.eqb (JsMap.size (visit m nv)) 0).
  - apply IH.
  - apply bind_ext. intros a. apply bind_ext. intros r. apply IH.
Qed.

End ScanFacts.

(** C2, as the code has it.  The block emitted on reaching key [k] after
    [previousKey] is [{previousKey, k, aggregated}] where [aggregated] is
    the aggregation of the Active Set as the visit of [previousKey] left it
    (its arrivals inserted, then its departures removed), emitted whenever
    that set is non-empty; the arrivals and departures of [k] itself count
    for the next block.  The run of [aggregate] is the run of that scan
    over the index, callback for callback. *)
Theorem scan_emits_for_previous_key {Item V A R Exn : Type}
    (this : Aggregator Item V A R Exn) (items : list Item) :
  aggregate this items =
  (tree <- createRedBlackTree this items ;;
   scan_previous this tree None JsMap.empty []).
Proof.
  unfold aggregate. apply bind_ext. intros tree.
  destruct tree as [|[k nv] rest]; [reflexivity|].
  cbn [scan_previous]. symmetry. apply scan_previous_loop.
Qed.

(** C2, as worded, fails on A = [0,10), B = [5,15): aggregating at key 5
    the Active Set left by the departures at 5 would give [{0,5,[A,B]}],
    while the code emits [{0,5,[A]}]. *)
Lemma scan_as_worded_refuted :
  snd (aggregate listing overlapping) =
    Ok [mkBlock 0 5 [1]; mkBlock 5 10 [1; 2]; mkBlock 10 15 [2]] /\
  snd (tree <- createRedBlackTree listing overlapping ;;
       scan_as_worded listing tree None JsMap.empty []) =
    Ok [mkBlock 0 5 [1; 2]; mkBlock 5 10 [2]] /\
  aggregate listing overlapping <>
  (tree <- createRedBlackTree listing overlapping ;;
   scan_as_worded listing tree None JsMap.empty []).
Proof.
  split; [reflexivity|]. split; [reflexivity|].
  intros E. apply (f_equal snd) in E. vm_compute in E. discriminate E.
Qed.

(* ================================================================== *)
(** * Callbacks that throw *)
(* ================================================================== *)

Section FailureFacts.

Context {Item V A R Exn : Type}.
Variable this : Aggregator Item V A R Exn.
Local Abbreviation M := (M Item V A Exn).

Lemma returns_not_raises ev e : returns this ev -> raises this ev e -> False.
Proof.
  destruct ev; simpl; intros [x Hx] Hr; rewrite Hx in Hr; discriminate.
Qed.

Lemma raises_functional ev e e' : raises this ev e -> raises this ev e' -> e = e'.
Proof.
  destruct ev; simpl; intros H1 H2; rewrite H1 in H2; now inversion H2.
Qed.

Lemma faithful_ret {X : Type} (x : X) : faithful this (ret x : M X).
Proof. simpl. constructor. Qed.

Lemma faithful_bind {X Y : Type} (m : M X) (k : X -> M Y) :
  faithful this m -> (forall x, faithful this (k x)) -> faithful this (bind m k).
Proof.
  destruct m as [tr [x|e]]; simpl; intros Hm Hk; [|exact Hm].
  specialize (Hk x). destruct (k x) as [tr' [y|e]]; simpl in *.
  - apply Forall_app. auto.
  - destruct Hk as (tr0 & ev & -> & Hf & Hr).
    exists (tr ++ tr0), ev. rewrite app_assoc. split; [reflexivity|].
    split; auto. apply Forall_app. auto.
Qed.

Lemma faithful_call_pre item : faithful this (call_pre this item).
Proof.
  unfold call_pre, faithful. destruct (itemPreProcessor this item) eqn:E.
  - repeat constructor. simpl. eauto.
  - exists [], (EvPre item). simpl. auto.
Qed.

Lemma faithful_call_agg m : faithful this (call_agg this m).
Proof.
  unfold call_agg, faithful.
  destruct (aggregationFunction this (JsMap.values m)) eqn:E.
  - repeat constructor. simpl. eauto.
  - exists [], (EvAgg m). simpl. auto.
Qed.

Lemma faithful_call_post b : faithful this (call_post this b).
Proof.
  unfold call_post, faithful. destruct (itemPostProcessor this b) eqn:E.
  - repeat constructor. simpl. eauto.
  - exists [], (EvPost b). simpl. auto.
Qed.

Lemma faithful_createRedBlackTree_loop items :
  forall i tree, faithful this (createRedBlackTree_loop this i items tree).
Proof.
  induction items as [|item items IH]; intros i tree; cbn [createRedBlackTree_loop].
  - apply faithful_ret.
  - apply faithful_bind; [apply faithful_call_pre|]. intros b. apply IH.
Qed.

Lemma faithful_emit_all sps : forall out, faithful this (emit_all this sps out).
Proof.
  induction sps as [|sp sps IH]; intros out; cbn [emit_all].
  - apply faithful_ret.
  - apply faithful_bind; [|intros r; apply IH].
    unfold emit. apply faithful_bind; [apply faithful_call_agg|].
    intros a. apply faithful_call_post.
Qed.

Lemma faithful_aggregate items : faithful this (aggregate this items).
Proof.
  unfold aggregate. apply faithful_bind.
  - apply faithful_createRedBlackTree_loop.
  - intros tree. rewrite aggregate_loop_spans. apply faithful_emit_all.
Qed.

(** In a faithful run an invocation that raises is the last one, and its
    exception is the outcome. *)
Lemma faithful_raise_last {X : Type} (tr : list (Event Item V A))
    (res : result Exn X) tr1 ev tr2 e :
  faithful this (tr, res) -> tr = tr1 ++ ev :: tr2 -> raises this ev e ->
  tr2 = [] /\ res = Raise e.
Proof.
  intros Hf Etr Hr. destruct res as [x|e']; simpl in Hf.
  - exfalso. rewrite Etr in Hf. apply Forall_app in Hf. destruct Hf as [_ Hf].
    inversion Hf; subst. eapply returns_not_raises; eauto.
  - destruct Hf as (tr' & ev' & E' & Hall & Hr').
    destruct tr2 as [|y tr2] using rev_ind.
    + rewrite Etr in E'. apply app_inj_tail in E'. destruct E' as [_ <-].
      split; auto. f_equal. eapply raises_functional; eauto.
    + exfalso. rewrite Etr in E'.
      change (tr1 ++ ev :: tr2 ++ [y]) with (tr1 ++ (ev :: tr2) ++ [y]) in E'.
      rewrite app_assoc in E'. apply app_inj_tail in E'.
      destruct E' as [<- _]. apply Forall_app in Hall.
      destruct Hall as [_ Hall]. inversion Hall; subst.
      eapply returns_not_raises; eauto.
Qed.

Lemma emit_all_outputs sps :
  forall out tr out',
    emit_all this sps out = (tr, Ok out') ->
    exists rs, out' = out ++ rs /\
      Forall2 (fun ob r => itemPostProcessor this ob = Ok r) (emitted tr) rs.
Proof.
  induction sps as [|sp sps IH]; intros out tr out' E; cbn [emit_all] in E.
  - inversion E; subst. exists []. rewrite app_nil_r.
    split; [reflexivity|constructor].
  - unfold emit, call_agg, call_post in E. cbn [bind] in E.
    destruct (aggregationFunction this (JsMap.values (sp_active sp)))
      as [a|e]; [|discriminate].
    destruct (itemPostProcessor this (mkBlock (sp_start sp) (sp_end sp) a))
      as [r|e] eqn:Ep; [|discriminate].
    cbn [bind app] in E.
    destruct (emit_all this sps (out ++ [r])) as [tr' res'] eqn:E'.
    inversion E; subst. clear E.
    destruct (IH _ _ _ E') as (rs & -> & HF).
    exists (r :: rs). rewrite <- app_assoc. split; [reflexivity|].
    simpl. constructor; auto.
Qed.

Lemma pre_outcomes (items : list Item) :
  (exists bs, Forall2 (fun item b => itemPreProcessor this item = Ok b) items bs) \/
  (exists l1 bs1 x l2 e,
      items = l1 ++ x :: l2 /\
      Forall2 (fun item b => itemPreProcessor this item = Ok b) l1 bs1 /\
      itemPreProcessor this x = Raise e).
Proof.
  induction items as [|item items IH].
  - left. exists []. constructor.
  - destruct (itemPreProcessor this item) as [b|e] eqn:E.
    + destruct IH as [[bs H]|(l1 & bs1 & x & l2 & e & -> & H & Hx)].
      * left. exists (b :: bs). constructor; auto.
      * right. exists (item :: l1), (b :: bs1), x, l2, e.
        split; [reflexivity|]. split; auto.
    + right. exists [], [], item, items, e. split; [reflexivity|].
      split; [constructor|assumption].
Qed.

Lemma emit_all_no_pre sps :
  forall out, Forall (fun ev => ~ is_pre ev) (fst (emit_all this sps out)).
Proof.
  induction sps as [|sp sps IH]; intros out; cbn [emit_all].
  - constructor.
  - unfold emit, call_agg, call_post. cbn [bind].
    destruct (aggregationFunction this (JsMap.values (sp_active sp))) as [a|e].
    + destruct (itemPostProcessor this (mkBlock (sp_start sp) (sp_end sp) a))
        as [r|e].
      * cbn [bind app]. specialize (IH (out ++ [r])).
        destruct (emit_all this sps (out ++ [r])) as [tr' res'].
        simpl in *. repeat constructor; auto.
      * simpl. repeat constructor; auto.
    + simpl. repeat constructor; auto.
Qed.

Lemma pre_prefix (P : list Item) :
  forall (T l1 l2 : list (Event Item V A)) ev,
    l1 ++ ev :: l2 = map EvPre P ++ T -> ~ is_pre ev ->
    exists l1', l1 = map EvPre P ++ l1'.
Proof.
  induction P as [|a P IH]; simpl; intros T l1 l2 ev E Hev.
  - eauto.
  - destruct l1 as [|b l1]; simpl in E; inversion E; subst.
    + exfalso. apply Hev. exact I.
    + destruct (IH _ _ _ _ H1 Hev) as (l1' & ->). eauto.
Qed.

End FailureFacts.

Section FailureClaims.

Context {Item V A R Exn : Type}.
Variable this : Aggregator Item V A R Exn.

Lemma forall2_of_returns (items : list Item) :
  Forall (fun item => exists b, itemPreProcessor this item = Ok b) items ->
  exists bs, Forall2 (fun item b => itemPreProcessor this item = Ok b) items bs.
Proof.
  induction 1 as [|item items [b Hb] _ [bs IH]].
  - exists []. constructor.
  - exists (b :: bs). constructor; auto.
Qed.

Lemma returns_of_forall2 (items : list Item) bs :
  Forall2 (fun item b => itemPreProcessor this item = Ok b) items bs ->
  Forall (fun item => exists b, itemPreProcessor this item = Ok b) items.
Proof. induction 1; constructor; eauto. Qed.

(** The first item the normalizer rejects ends the call, during the build. *)
Lemma aggregate_pre_raise l1 bs1 x l2 e :
  Forall2 (fun item b => itemPreProcessor this item = Ok b) l1 bs1 ->
  itemPreProcessor this x = Raise e ->
  aggregate this (l1 ++ x :: l2) = (map EvPre (l1 ++ [x]), Raise e).
Proof.
  intros H Hx. unfold aggregate, createRedBlackTree.
  now rewrite (createRedBlackTree_loop_raise this l1 bs1 x l2 e H Hx).
Qed.

End FailureClaims.

(** C8.  All-or-nothing on callback failure.  In every run of [aggregate],
    an invocation of the aggregation function or of the formatter (or of
    the normalizer) that raises is the last thing the call does: no further
    callback is invoked and the call ends in that exception, which carries
    no output.  A call that ends in an exception ends in the one its last
    invocation raised.  A call that returns has had every invocation
    return, and returns the formatter's result for every emitted block, in
    order. *)
Theorem callback_failure_all_or_nothing {Item V A R Exn : Type}
    (this : Aggregator Item V A R Exn) (items : list Item) :
  let run := aggregate this items in
  (forall tr1 ev tr2 e,
      fst run = tr1 ++ ev :: tr2 -> raises this ev e ->
      tr2 = [] /\ snd run = Raise e) /\
  (forall e, snd run = Raise e ->
      exists tr ev, fst run = tr ++ [ev] /\ Forall (returns this) tr /\
                    raises this ev e) /\
  (forall out, snd run = Ok out ->
      Forall (returns this) (fst run) /\
      Forall2 (fun ob r => itemPostProcessor this ob = Ok r)
              (emitted (fst run)) out).
Proof.
  intros run. pose proof (faithful_aggregate this items) as Hf.
  fold run in Hf. split; [|split].
  - intros tr1 ev tr2 e E Hr. destruct run as [tr res]. simpl in *.
    eapply faithful_raise_last; eauto.
  - intros e E. destruct run as [tr res]. simpl in *. subst res. exact Hf.
  - intros out E. split.
    + destruct run as [tr res]. simpl in *. subst res. exact Hf.
    + unfold run in *. clear Hf run.
      destruct (pre_outcomes this items)
        as [[bs H]|(l1 & bs1 & x & l2 & e & -> & H & Hx)].
      * rewrite (aggregate_ok this items bs H) in *.
        destruct (emit_all this (live_spans bs) []) as [tr res] eqn:Ee.
        simpl in *. subst res. rewrite emitted_pre.
        destruct (emit_all_outputs this _ _ _ _ Ee) as (rs & -> & HF).
        exact HF.
      * rewrite (aggregate_pre_raise this l1 bs1 x l2 e H Hx) in E.
        discriminate E.
Qed.

Lemma callback_failure_all_or_nothing_witness :
  snd (aggregate fragile overlapping) = Raise tt /\
  (exists tr ev, fst (aggregate fragile overlapping) = tr ++ [ev] /\
                 Forall (returns fragile) tr /\ raises fragile ev tt) /\
  Forall (returns listing) (fst (aggregate listing overlapping)) /\
  Forall2 (fun ob r => itemPostProcessor listing ob = Ok r)
          (emitted (fst (aggregate listing overlapping)))
          [mkBlock 0 5 [1]; mkBlock 5 10 [1; 2]; mkBlock 10 15 [2]].
Proof.
  destruct (callback_failure_all_or_nothing fragile overlapping)
    as (H1 & H2 & _).
  destruct (callback_failure_all_or_nothing listing overlapping)
    as (_ & _ & H3).
  split; [|split].
  - refine (proj2 (H1 [EvPre (mkBlock 0 10 1); EvPre (mkBlock 5 15 2);
                       EvAgg [(0, 1)]; EvPost (mkBlock 0 5 [1])]
                      (EvAgg [(0, 1); (1, 2)]) [] tt _ _)); reflexivity.
  - apply H2. reflexivity.
  - apply H3. reflexivity.
Defined.

(** C10.  Build before scan.  When the normalizer raises on some item, the
    call ends in the exception of the first item it raises on, having
    invoked nothing but the normalizer, on the items up to that one: neither
    the aggregation function nor the formatter has run.  And in every run,
    any invocation of the aggregation function or the formatter comes after
    the normalization of all items, all of which returned. *)
Theorem normalizer_failure_before_scan {Item V A R Exn : Type}
    (this : Aggregator Item V A R Exn) (items : list Item) :
  (Exists (fun item => exists e, itemPreProcessor this item = Raise e) items ->
   exists l1 x l2 e,
     items = l1 ++ x :: l2 /\
     Forall (fun item => exists b, itemPreProcessor this item = Ok b) l1 /\
     itemPreProcessor this x = Raise e /\
     aggregate this items = (map EvPre (l1 ++ [x]), Raise e)) /\
  (forall tr1 ev tr2,
     fst (aggregate this items) = tr1 ++ ev :: tr2 -> ~ is_pre ev ->
     (exists tr1', tr1 = map EvPre items ++ tr1') /\
     Forall (fun item => exists b, itemPreProcessor this item = Ok b) items).
Proof.
  destruct (pre_outcomes this items)
    as [[bs H]|(l1 & bs1 & x & l2 & e & -> & H & Hx)].
  - split.
    + intros Hex. exfalso. apply Exists_exists in Hex.
      destruct Hex as (item & Hin & e & He).
      pose proof (returns_of_forall2 this items bs H) as Hall.
      rewrite Forall_forall in Hall. destruct (Hall item Hin) as [b Hb].
      rewrite Hb in He. discriminate.
    + intros tr1 ev tr2 E Hev. split.
      * rewrite (aggregate_ok this items bs H) in E.
        destruct (emit_all this (live_spans bs) []) as [tr res]. simpl in E.
        eapply pre_prefix; eauto.
      * eapply returns_of_forall2; eauto.
  - pose proof (aggregate_pre_raise this l1 bs1 x l2 e H Hx) as Hrun.
    split.
    + intros _. exists l1, x, l2, e. split; [reflexivity|].
      split; [eapply returns_of_forall2; eauto|]. split; assumption.
    + intros tr1 ev tr2 E Hev. exfalso. rewrite Hrun in E. simpl in E.
      assert (Hin : In ev (map EvPre (l1 ++ [x])))
        by (rewrite E; apply in_or_app; right; now left).
      apply in_map_iff in Hin. destruct Hin as (y & <- & _).
      apply Hev. exact I.
Qed.

Lemma normalizer_failure_before_scan_witness :
  (exists l1 x l2 e,
     with_degenerate = l1 ++ x :: l2 /\
     Forall (fun item => exists b, itemPreProcessor validating item = Ok b) l1 /\
     itemPreProcessor validating x = Raise e /\
     aggregate validating with_degenerate = (map EvPre (l1 ++ [x]), Raise e)) /\
  (exists tr1', [EvPre (mkBlock 0 5 1); EvPre (mkBlock 10 15 2)] =
                map EvPre disjoint ++ tr1' :> list (Event (Block nat) nat (list nat))) /\
  Forall (fun item => exists b, itemPreProcessor validating item = Ok b) disjoint.
Proof.
  split.
  - apply (proj1 (normalizer_failure_before_scan validating with_degenerate)).
    right. left. exists tt. reflexivity.
  - refine (proj2 (normalizer_failure_before_scan validating disjoint)
              [EvPre (mkBlock 0 5 1); EvPre (mkBlock 10 15 2)]
              (EvAgg [(0, 1)])
              [EvPost (mkBlock 0 5 [1]); EvAgg [(1, 2)];
               EvPost (mkBlock 10 15 [2])] _ _).
    + reflexivity.
    + simpl. tauto.
Defined.

(* ================================================================== *)
(** * Successive calls *)
(* ================================================================== *)

Section HeapFacts.

Context {Item V A R Exn : Type}.
Implicit Types (h : Store.t Item V A R Exn) (r : Store.Ref)
               (o : Store.Obj Item V A R Exn).

Lemma load_lt h r o : Store.load h r = Some o -> r < length h.
Proof. intros H. apply nth_error_Some. unfold Store.load in H. congruence. Qed.

Lemma load_app h h1 r : r < length h -> Store.load (h ++ h1) r = Store.load h r.
Proof. intros H. unfold Store.load. now apply nth_error_app1. Qed.

Lemma load_new h o : Store.load (h ++ [o]) (length h) = Some o.
Proof.
  unfold Store.load. rewrite nth_error_app2 by lia.
  now rewrite Nat.sub_diag.
Qed.

Lemma load_fresh h : Store.load h (length h) = None.
Proof. unfold Store.load. apply nth_error_None. lia. Qed.

Lemma store_length h : forall r o, length (Store.store h r o) = length h.
Proof.
  induction h as [|x h IH]; intros [|r] o; simpl; auto.
Qed.

Lemma load_store_same h : forall r o,
  r < length h -> Store.load (Store.store h r o) r = Some o.
Proof.
  induction h as [|x h IH]; intros [|r] o; simpl; intros H; try lia; auto.
  apply IH. lia.
Qed.

Lemma load_store_other h : forall r r' o,
  r' <> r -> Store.load (Store.store h r o) r' = Store.load h r'.
Proof.
  induction h as [|x h IH]; intros [|r] [|r'] o H; simpl;
    try congruence; try reflexivity.
  apply IH. congruence.
Qed.

Lemma store_store h : forall r o1 o2,
  Store.store (Store.store h r o1) r o2 = Store.store h r o2.
Proof.
  induction h as [|x h IH]; intros [|r] o1 o2; simpl; auto.
  now rewrite IH.
Qed.

Lemma store_load h : forall r o,
  Store.load h r = Some o -> Store.store h r o = h.
Proof.
  induction h as [|x h IH]; intros [|r] o; simpl; intros H; auto.
  - congruence.
  - now rewrite IH.
Qed.

(** Running a sequence of two computations. *)
Lemma bind_normal {X Y : Type} (m : Store.Run Item V A R Exn X)
    (k : X -> Store.Run Item V A R Exn Y) h tr h1 x :
  m h = (tr, h1, Store.Normal x) ->
  Store.bind m k h =
  (tr ++ fst (fst (k x h1)), snd (fst (k x h1)), snd (k x h1)).
Proof.
  intros H. unfold Store.bind. rewrite H.
  now destruct (k x h1) as [[? ?] ?].
Qed.

Lemma bind_throw {X Y : Type} (m : Store.Run Item V A R Exn X)
    (k : X -> Store.Run Item V A R Exn Y) h tr h1 e :
  m h = (tr, h1, Store.Throw e) ->
  Store.bind m k h = (tr, h1, Store.Throw e).
Proof. intros H. unfold Store.bind. now rewrite H. Qed.

Lemma fields_at h r (this : Aggregator Item V A R Exn) :
  Store.load h r = Some (Store.InstanceObj this) ->
  Store.fields r h = ([], h, Store.Normal this).
Proof.
  intros H. unfold Store.fields, Store.bind, Store.read. now rewrite H.
Qed.

Lemma nodeValue_at h r (nv : NodeValue V) :
  Store.load h r = Some (Store.NodeValueObj nv) ->
  Store.nodeValue r h = ([], h, Store.Normal nv).
Proof.
  intros H. unfold Store.nodeValue, Store.bind, Store.read. now rewrite H.
Qed.

Lemma entries_at h r (m : JsMap.t V) :
  Store.load h r = Some (Store.MapObj m) ->
  Store.entries r h = ([], h, Store.Normal m).
Proof.
  intros H. unfold Store.entries, Store.bind, Store.read. now rewrite H.
Qed.

Lemma elements_at h r (l : list R) :
  Store.load h r = Some (Store.ArrayObj l) ->
  Store.elements r h = ([], h, Store.Normal l).
Proof.
  intros H. unfold Store.elements, Store.bind, Store.read. now rewrite H.
Qed.

Lemma write_at h r o :
  r < length h ->
  Store.write r o h = ([], Store.store h r o, Store.Normal tt).
Proof.
  intros H. unfold Store.write.
  destruct (Nat.ltb_spec r (length h)); [reflexivity|lia].
Qed.

Lemma map_set_at h r (m : JsMap.t V) key v :
  Store.load h r = Some (Store.MapObj m) ->
  Store.map_set r key v h =
  ([], Store.store h r (Store.MapObj (JsMap.set m key v)), Store.Normal tt).
Proof.
  intros H. unfold Store.map_set.
  rewrite (bind_normal _ _ _ _ _ _ (entries_at h r m H)).
  rewrite write_at by (eapply load_lt; eauto). reflexivity.
Qed.

Lemma map_delete_at h r (m : JsMap.t V) key :
  Store.load h r = Some (Store.MapObj m) ->
  Store.map_delete r key h =
  ([], Store.store h r (Store.MapObj (JsMap.delete m key)), Store.Normal tt).
Proof.
  intros H. unfold Store.map_delete.
  rewrite (bind_normal _ _ _ _ _ _ (entries_at h r m H)).
  rewrite write_at by (eapply load_lt; eauto). reflexivity.
Qed.

Lemma array_push_at h r (l : list R) x :
  Store.load h r = Some (Store.ArrayObj l) ->
  Store.array_push r x h =
  ([], Store.store h r (Store.ArrayObj (l ++ [x])), Store.Normal tt).
Proof.
  intros H. unfold Store.array_push.
  rewrite (bind_normal _ _ _ _ _ _ (elements_at h r l H)).
  rewrite write_at by (eapply load_lt; eauto). reflexivity.
Qed.

(** The two [forEach] passes leave the map as [arrive] and [depart] say. *)
Lemma forEach_set_at r (l : list (nat * V)) :
  forall h (m : JsMap.t V),
    Store.load h r = Some (Store.MapObj m) ->
    Store.forEach l (fun val => Store.map_set r (fst val) (snd val)) h =
    ([], Store.store h r
           (Store.MapObj
              (fold_left (fun m val => JsMap.set m (fst val) (snd val)) l m)),
     Store.Normal tt).
Proof.
  induction l as [|[i v] l IH]; intros h m H; simpl.
  - unfold Store.ret. now rewrite (store_load h r _ H).
  - rewrite (bind_normal _ _ _ _ _ _ (map_set_at h r m i v H)).
    rewrite (IH _ (JsMap.set m i v))
      by (apply load_store_same; eapply load_lt; eauto).
    simpl. now rewrite store_store.
Qed.

Lemma forEach_delete_at r (l : list nat) :
  forall h (m : JsMap.t V),
    Store.load h r = Some (Store.MapObj m) ->
    Store.forEach l (fun val => Store.map_delete r val) h =
    ([], Store.store h r
           (Store.MapObj (fold_left (fun m val => JsMap.delete m val) l m)),
     Store.Normal tt).
Proof.
  induction l as [|i l IH]; intros h m H; simpl.
  - unfold Store.ret. now rewrite (store_load h r _ H).
  - rewrite (bind_normal _ _ _ _ _ _ (map_delete_at h r m i H)).
    rewrite (IH _ (JsMap.delete m i))
      by (apply load_store_same; eapply load_lt; eauto).
    simpl. now rewrite store_store.
Qed.

(** *** Trees of references *)

Lemma holds_transfer h h1 (ht : RBTree.t Store.Ref) (pt : RBTree.t (NodeValue V)) :
  Forall2 (holds h) ht pt ->
  (forall a, In a ht -> Store.load h1 (snd a) = Store.load h (snd a)) ->
  Forall2 (holds h1) ht pt.
Proof.
  induction 1 as [|a b ht pt Hab _ IH]; intros Hl; constructor.
  - destruct Hab as [Hk Hv]. split; [exact Hk|].
    rewrite Hl by now left. exact Hv.
  - apply IH. intros x Hx. apply Hl. now right.
Qed.

Lemma get_holds h (ht : RBTree.t Store.Ref) (pt : RBTree.t (NodeValue V)) key :
  Forall2 (holds h) ht pt ->
  (RBTree.get ht key = None /\ RBTree.get pt key = None) \/
  (exists r nv, RBTree.get ht key = Some r /\ RBTree.get pt key = Some nv /\
                Store.load h r = Some (Store.NodeValueObj nv)).
Proof.
  induction 1 as [|[k r] [k' nv] ht pt [Hk Hv] _ IH]; simpl; [now left|].
  simpl in Hk, Hv. subst k'.
  destruct (Z.eqb key k); [|exact IH].
  right. exists r, nv. auto.
Qed.

Lemma remove_holds h (ht : RBTree.t Store.Ref) (pt : RBTree.t (NodeValue V)) key :
  Forall2 (holds h) ht pt ->
  Forall2 (holds h) (RBTree.remove ht key) (RBTree.remove pt key).
Proof.
  induction 1 as [|[k r] [k' nv] ht pt [Hk Hv] Hrest IH]; simpl;
    [constructor|].
  simpl in Hk, Hv. subst k'.
  destruct (Z.eqb key k); [exact Hrest|].
  constructor; [split; auto|exact IH].
Qed.

Lemma insert_holds h (ht : RBTree.t Store.Ref) (pt : RBTree.t (NodeValue V))
    key r nv :
  Forall2 (holds h) ht pt ->
  Store.load h r = Some (Store.NodeValueObj nv) ->
  Forall2 (holds h) (RBTree.insert ht key r) (RBTree.insert pt key nv).
Proof.
  intros HF Hr.
  induction HF as [|[k r'] [k' nv'] ht pt [Hk Hv] Hrest IH]; simpl.
  - constructor; [split; auto|constructor].
  - simpl in Hk, Hv. subst k'.
    destruct (Z.leb key k).
    + constructor; [split; auto|]. constructor; [split; auto|exact Hrest].
    + constructor; [split; auto|exact IH].
Qed.

Lemma remove_in {X : Type} (t : RBTree.t X) key a :
  In a (RBTree.remove t key) -> In a t.
Proof.
  induction t as [|[k x] t IH]; simpl; [tauto|].
  destruct (Z.eqb key k); simpl; [tauto|]. intros [E|H]; auto.
Qed.

Lemma insert_in {X : Type} (t : RBTree.t X) key x a :
  In a (RBTree.insert t key x) -> a = (key, x) \/ In a t.
Proof.
  induction t as [|[k y] t IH]; simpl.
  - intros [E|[]]. now left.
  - destruct (Z.leb key k); simpl.
    + intros [E|[E|H]]; auto.
    + intros [E|H]; auto. destruct (IH H); auto.
Qed.

Lemma remove_refs_nodup (t : RBTree.t Store.Ref) key :
  NoDup (map snd t) -> NoDup (map snd (RBTree.remove t key)).
Proof.
  induction t as [|[k x] t IH]; simpl; intros H; [constructor|].
  inversion H as [|? ? Hn Hd]; subst.
  destruct (Z.eqb key k); simpl; [exact Hd|].
  constructor; [|now apply IH].
  intros Hin. apply Hn. apply in_map_iff in Hin.
  destruct Hin as (a & Ea & Ha). apply remove_in in Ha.
  apply in_map_iff. exists a. auto.
Qed.

(** The object found under a key is no longer in the tree once the key is
    removed. *)
Lemma remove_get_absent (t : RBTree.t Store.Ref) key r :
  NoDup (map snd t) -> RBTree.get t key = Some r ->
  ~ In r (map snd (RBTree.remove t key)).
Proof.
  induction t as [|[k x] t IH]; simpl; intros Hd Hg; [discriminate|].
  inversion Hd as [|? ? Hn Hd']; subst.
  destruct (Z.eqb key k).
  - inversion Hg; subst. exact Hn.
  - simpl. intros [E|Hin].
    + subst x. apply Hn.
      clear - Hg. induction t as [|[k' y] t IH]; simpl in *; [discriminate|].
      destruct (Z.eqb key k'); [inversion Hg; now left|right; auto].
    + now apply (IH Hd' Hg).
Qed.

Lemma insert_refs_nodup (t : RBTree.t Store.Ref) key r :
  NoDup (map snd t) -> ~ In r (map snd t) ->
  NoDup (map snd (RBTree.insert t key r)).
Proof.
  induction t as [|[k x] t IH]; simpl; intros Hd Hn.
  - constructor; [tauto|constructor].
  - inversion Hd as [|? ? Hnx Hd']; subst.
    destruct (Z.leb key k); simpl.
    + constructor; [simpl; tauto|exact Hd].
    + constructor; [|apply IH; tauto].
      intros Hin. apply in_map_iff in Hin.
      destruct Hin as (a & Ea & Ha). apply insert_in in Ha.
      destruct Ha as [->|Ha]; simpl in Ea.
      * subst. tauto.
      * apply Hnx. apply in_map_iff. exists a. auto.
Qed.

(** [pushValueToNode] on the heap does to the objects what
    [pushValueToNode] does to the node values, and touches no object
    created before the tree's. *)
Lemma pushValueToNode_at lb h (ht : RBTree.t Store.Ref)
    (pt : RBTree.t (NodeValue V)) key (x : Pushed V) :
  tree_in lb h ht pt -> lb <= length h ->
  exists h1 ht1,
    Store.pushValueToNode ht key x h = ([], h1, Store.Normal ht1) /\
    tree_in lb h1 ht1 (pushValueToNode pt key x) /\
    length h <= length h1 /\
    (forall r, r < lb -> Store.load h1 r = Store.load h r).
Proof.
  intros (HF & Hnd & Hlb) Hlen.
  assert (Hin : forall a, In a (RBTree.remove ht key) ->
                  exists nv, Store.load h (snd a) = Some (Store.NodeValueObj nv)).
  { intros a Ha. apply remove_in in Ha.
    clear - HF Ha. induction HF as [|a' b ht pt [_ Hv] _ IH];
      [contradiction|].
    destruct Ha as [<-|Ha]; eauto. }
  assert (Hlb' : forall r0, Forall (fun a => lb <= snd a)
                   (RBTree.insert (RBTree.remove ht key) key r0) \/ r0 < lb).
  { intros r0. destruct (le_lt_dec lb r0) as [Hle|Hlt]; [left|now right].
    apply Forall_forall. intros a Ha. apply insert_in in Ha.
    destruct Ha as [->|Ha]; [exact Hle|].
    apply remove_in in Ha. rewrite Forall_forall in Hlb. now apply Hlb. }
  unfold Store.pushValueToNode, pushValueToNode.
  destruct (get_holds h ht pt key HF)
    as [[Hg Hg']|(r & nv & Hg & Hg' & Hr)]; rewrite Hg, Hg'.
  - (* a new object *)
    set (h0 := h ++ [Store.NodeValueObj (mkNodeValue [] [])]).
    assert (Hr : Store.load h0 (length h) =
                 Some (Store.NodeValueObj (@emptyNodeValue V)))
      by apply load_new.
    assert (Hl0 : length h < length h0)
      by (unfold h0; rewrite length_app; simpl; lia).
    rewrite (bind_normal _ _ h [] h0 (length h)) by reflexivity.
    rewrite (bind_normal _ _ _ _ _ _ (nodeValue_at _ _ _ Hr)).
    rewrite (bind_normal _ _ _ _ _ _ (write_at h0 (length h) _ Hl0)).
    simpl. eexists. eexists. split; [reflexivity|].
    assert (Hold : forall r, r < length h ->
              Store.load
                (Store.store h0 (length h)
                   (Store.NodeValueObj (push emptyNodeValue x))) r =
              Store.load h r).
    { intros r Hr'. rewrite load_store_other by lia.
      unfold h0. now apply load_app. }
    split; [split; [|split]|split].
    + apply insert_holds.
      * apply (holds_transfer h); [now apply remove_holds|].
        intros a Ha. destruct (Hin a Ha) as (nv & Hv).
        apply Hold. eapply load_lt; eauto.
      * now apply load_store_same.
    + apply insert_refs_nodup; [now apply remove_refs_nodup|].
      intros Hc. apply in_map_iff in Hc. destruct Hc as (a & Ea & Ha).
      destruct (Hin a Ha) as (nv & Hv). apply load_lt in Hv. lia.
    + destruct (Hlb' (length h)) as [H|H]; [exact H|lia].
    + rewrite store_length. lia.
    + intros r Hr'. apply Hold. lia.
  - (* the object under the key *)
    assert (Hlt : r < length h) by (eapply load_lt; eauto).
    rewrite (bind_normal _ _ h [] h r) by reflexivity.
    rewrite (bind_normal _ _ _ _ _ _ (nodeValue_at _ _ _ Hr)).
    rewrite (bind_normal _ _ _ _ _ _ (write_at h r _ Hlt)).
    simpl. eexists. eexists. split; [reflexivity|].
    assert (Hnr : ~ In r (map snd (RBTree.remove ht key)))
      by now apply remove_get_absent.
    assert (Hrl : lb <= r).
    { rewrite Forall_forall in Hlb.
      assert (Hir : exists k, In (k, r) ht).
      { clear - Hg. induction ht as [|[k y] ht IH]; simpl in *;
          [discriminate|].
        destruct (Z.eqb key k).
        - inversion Hg; subst. exists k. now left.
        - destruct (IH Hg) as (k' & Hk'). exists k'. now right. }
      destruct Hir as (k & Hk). apply (Hlb _ Hk). }
    split; [split; [|split]|split].
    + apply insert_holds.
      * apply (holds_transfer h); [now apply remove_holds|].
        intros a Ha. apply load_store_other.
        intros E. apply Hnr. apply in_map_iff. exists a. auto.
      * now apply load_store_same.
    + apply insert_refs_nodup; [now apply remove_refs_nodup|exact Hnr].
    + destruct (Hlb' r) as [H|H]; [exact H|lia].
    + rewrite store_length. lia.
    + intros r' Hr'. apply load_store_other. lia.
Qed.

Variable this : Aggregator Item V A R Exn.
Variable self : Store.Ref.

(** The loop of [createRedBlackTree] on the heap makes the invocations of
    the loop on values and ends as it does, with a tree that stands for
    its tree. *)
Lemma createRedBlackTree_loop_at lb (items : list Item) :
  forall i h (ht : RBTree.t Store.Ref) (pt : RBTree.t (NodeValue V)),
    Store.load h self = Some (Store.InstanceObj this) ->
    self < lb -> lb <= length h -> tree_in lb h ht pt ->
    exists h1 c,
      Store.createRedBlackTree_loop self i items ht h =
        (fst (createRedBlackTree_loop this i items pt), h1, c) /\
      length h <= length h1 /\
      (forall r, r < lb -> Store.load h1 r = Store.load h r) /\
      match snd (createRedBlackTree_loop this i items pt) with
      | Ok pt1 => exists ht1, c = Store.Normal ht1 /\ tree_in lb h1 ht1 pt1
      | Raise e => c = Store.Throw e
      end.
Proof.
  induction items as [|item items IH]; intros i h ht pt Hself Hlt Hlen Ht.
  - simpl. exists h, (Store.Normal ht). repeat split; eauto.
  - cbn [Store.createRedBlackTree_loop createRedBlackTree_loop].
    rewrite (bind_normal _ _ _ _ _ _ (fields_at h self this Hself)).
    unfold call_pre, bind, Store.invoke.
    destruct (itemPreProcessor this item) as [block|e] eqn:Ep.
    + rewrite (bind_normal _ _ h [EvPre item] h block) by reflexivity.
      destruct (pushValueToNode_at lb h ht pt (start block)
                  (AtStart i (value block)) Ht Hlen)
        as (h1 & ht1 & E1 & Ht1 & Hl1 & Hf1).
      rewrite (bind_normal _ _ _ _ _ _ E1).
      destruct (pushValueToNode_at lb h1 ht1 _ (end_ block) (AtEnd i) Ht1
                  ltac:(lia))
        as (h2 & ht2 & E2 & Ht2 & Hl2 & Hf2).
      rewrite (bind_normal _ _ _ _ _ _ E2).
      destruct (IH (S i) h2 ht2
                  (pushValueToNode
                     (pushValueToNode pt (start block)
                        (AtStart i (value block)))
                     (end_ block) (AtEnd i)))
        as (h3 & c & E3 & Hl3 & Hf3 & Hc); auto.
      * rewrite Hf2, Hf1 by exact Hlt. exact Hself.
      * lia.
      * rewrite E3. cbn [fst snd].
        destruct (createRedBlackTree_loop this (S i) items
                    (pushValueToNode
                       (pushValueToNode pt (start block)
                          (AtStart i (value block)))
                       (end_ block) (AtEnd i))) as [tr res].
        cbn [fst snd] in *. exists h3, c.
        split; [reflexivity|]. split; [lia|]. split; [|exact Hc].
        intros r Hr. now rewrite Hf3, Hf2, Hf1.
    + rewrite (bind_throw _ _ h [EvPre item] h e) by reflexivity.
      cbn [fst snd]. exists h, (Store.Throw e). repeat split; auto.
Qed.

Lemma aggregate_loop_step k r k' r' (rest : RBTree.t Store.Ref)
    (nodeValues output : Store.Ref) :
  Store.aggregate_loop (Item := Item) (V := V) (A := A) (R := R) (Exn := Exn)
    self ((k, r) :: (k', r') :: rest) nodeValues output =
  Store.bind (Store.nodeValue r) (fun value_ =>
  Store.bind (Store.forEach (nstart value_)
                (fun val => Store.map_set nodeValues (fst val) (snd val)))
             (fun _ =>
  Store.bind (Store.nodeValue r) (fun value_ =>
  Store.bind (Store.forEach (nend value_)
                (fun val => Store.map_delete nodeValues val)) (fun _ =>
  Store.bind (Store.entries nodeValues) (fun m =>
  if Nat.eqb (JsMap.size m) 0 then
    Store.aggregate_loop self ((k', r') :: rest) nodeValues output
  else
    Store.bind (Store.fields self) (fun f =>
    Store.bind (Store.invoke (call_agg f m)) (fun aggregated =>
    Store.bind (Store.fields self) (fun f =>
    Store.bind (Store.invoke (call_post f (mkBlock k k' aggregated)))
               (fun res =>
    Store.bind (Store.array_push output res) (fun _ =>
    Store.aggregate_loop self ((k', r') :: rest) nodeValues output)))))))))).
Proof. reflexivity. Qed.

(** The scan on the heap makes the invocations of the scan on values and
    ends as it does; it writes to the map and to the output array, and to
    no other object. *)
Lemma aggregate_loop_at (nodeValues output : Store.Ref)
    (pt : RBTree.t (NodeValue V)) :
  forall (ht : RBTree.t Store.Ref) h (m : JsMap.t V) (out : list R),
    Store.load h self = Some (Store.InstanceObj this) ->
    Store.load h nodeValues = Some (Store.MapObj m) ->
    Store.load h output = Some (Store.ArrayObj out) ->
    Forall2 (holds h) ht pt ->
    exists h1 c,
      Store.aggregate_loop self ht nodeValues output h =
        (fst (aggregate_loop this pt m out), h1, c) /\
      (forall r, r <> nodeValues -> r <> output ->
                 Store.load h1 r = Store.load h r) /\
      match snd (aggregate_loop this pt m out) with
      | Ok out1 =>
          c = Store.Normal tt /\
          Store.load h1 output = Some (Store.ArrayObj out1)
      | Raise e => c = Store.Throw e
      end.
Proof.
  induction pt as [|[k nv] pt IH]; intros ht h m out Hself Hm Ho HF.
  - inversion HF; subst. simpl. exists h, (Store.Normal tt). auto.
  - inversion HF as [|[k0 r] ? ht1 ? [Hk Hr] HF1]; subst.
    simpl in Hk, Hr. subst k0.
    destruct pt as [|[k' nv'] pt].
    + inversion HF1; subst. simpl. exists h, (Store.Normal tt). auto.
    + inversion HF1 as [|[k0 r'] ? ht2 ? [Hk' Hr'] HF2]; subst.
      simpl in Hk', Hr'. subst k0.
      rewrite aggregate_loop_step, aggregate_loop_cons.
      assert (Hmo : nodeValues <> output) by (intros ->; congruence).
      assert (Hms : self <> nodeValues) by (intros ->; congruence).
      assert (Hos : self <> output) by (intros ->; congruence).
      assert (Hlm : nodeValues < length h) by (eapply load_lt; eauto).
      assert (Hlo : output < length h) by (eapply load_lt; eauto).
      assert (Hnodes : forall a, In a ((k, r) :: (k', r') :: ht2) ->
                snd a <> nodeValues /\ snd a <> output).
      { intros a Ha.
        assert (exists nv0, Store.load h (snd a) =
                            Some (Store.NodeValueObj nv0)) as (nv0 & Hv).
        { clear - HF Ha. induction HF as [|a' b ? ? [_ Hv] _ IH'];
            [contradiction|].
          destruct Ha as [<-|Ha]; eauto. }
        split; intros E; rewrite E in Hv; congruence. }
      rewrite (bind_normal _ _ _ _ _ _ (nodeValue_at _ _ _ Hr)).
      rewrite (bind_normal _ _ _ _ _ _ (forEach_set_at _ _ _ _ Hm)).
      set (h1 := Store.store h nodeValues _).
      assert (Hr1 : Store.load h1 r = Some (Store.NodeValueObj nv)).
      { unfold h1. rewrite load_store_other; [exact Hr|].
        apply (Hnodes (k, r)). now left. }
      rewrite (bind_normal _ _ _ _ _ _ (nodeValue_at _ _ _ Hr1)).
      assert (Hm1 : Store.load h1 nodeValues =
                    Some (Store.MapObj (arrive m nv)))
        by (unfold h1; now apply load_store_same).
      rewrite (bind_normal _ _ _ _ _ _ (forEach_delete_at _ _ _ _ Hm1)).
      unfold h1. rewrite store_store.
      change (fold_left (fun m0 val => JsMap.delete m0 val) (nend nv)
                (arrive m nv)) with (visit m nv).
      set (h2 := Store.store h nodeValues (Store.MapObj (visit m nv))).
      assert (Hm2 : Store.load h2 nodeValues =
                    Some (Store.MapObj (visit m nv)))
        by (unfold h2; now apply load_store_same).
      assert (Hself2 : Store.load h2 self = Some (Store.InstanceObj this))
        by (unfold h2; now rewrite load_store_other).
      assert (Ho2 : Store.load h2 output = Some (Store.ArrayObj out))
        by (unfold h2; rewrite load_store_other; auto).
      assert (HF2' : Forall2 (holds h2) ((k', r') :: ht2) ((k', nv') :: pt)).
      { apply (holds_transfer h); [exact HF1|].
        intros a Ha. unfold h2. apply load_store_other.
        apply Hnodes. now right. }
      assert (Hfr2 : forall r0, r0 <> nodeValues -> r0 <> output ->
                       Store.load h2 r0 = Store.load h r0).
      { intros r0 H1 H2. unfold h2. now apply load_store_other. }
      rewrite (bind_normal _ _ _ _ _ _ (entries_at _ _ _ Hm2)).
      cbn [fst snd app].
      destruct (Nat.eqb (JsMap.size (visit m nv)) 0); cbv beta iota.
      * destruct (IH _ h2 (visit m nv) out Hself2 Hm2 Ho2 HF2')
          as (h3 & c & E3 & Hf3 & Hc).
        rewrite E3. cbn [fst snd]. exists h3, c.
        split; [reflexivity|]. split; [|exact Hc].
        intros r0 H1 H2. rewrite Hf3 by auto. now apply Hfr2.
      * rewrite (bind_normal _ _ _ _ _ _ (fields_at _ _ _ Hself2)).
        unfold call_agg, call_post, bind, Store.invoke.
        destruct (aggregationFunction this (JsMap.values (visit m nv)))
          as [aggregated|e].
        2:{ rewrite (bind_throw _ _ h2 [EvAgg (visit m nv)] h2 e)
              by reflexivity.
            cbn [fst snd app]. exists h2, (Store.Throw e).
            split; [reflexivity|]. split; [exact Hfr2|reflexivity]. }
        rewrite (bind_normal _ _ h2 [EvAgg (visit m nv)] h2 aggregated)
          by reflexivity.
        rewrite (bind_normal _ _ _ _ _ _ (fields_at _ _ _ Hself2)).
        destruct (itemPostProcessor this (mkBlock k k' aggregated))
          as [res|e].
        2:{ rewrite (bind_throw _ _ h2 [EvPost (mkBlock k k' aggregated)]
                       h2 e) by reflexivity.
            cbn [fst snd app]. exists h2, (Store.Throw e).
            split; [reflexivity|]. split; [exact Hfr2|reflexivity]. }
        rewrite (bind_normal _ _ h2 [EvPost (mkBlock k k' aggregated)]
                   h2 res) by reflexivity.
        rewrite (bind_normal _ _ _ _ _ _ (array_push_at _ _ _ res Ho2)).
        set (h3 := Store.store h2 output (Store.ArrayObj (out ++ [res]))).
        assert (Hlo2 : output < length h2)
          by (unfold h2; now rewrite store_length).
        destruct (IH ((k', r') :: ht2) h3 (visit m nv) (out ++ [res]))
          as (h4 & c & E4 & Hf4 & Hc).
        { unfold h3. now rewrite load_store_other. }
        { unfold h3. rewrite load_store_other; auto. }
        { unfold h3. now apply load_store_same. }
        { apply (holds_transfer h2); [exact HF2'|].
          intros a Ha. unfold h3. apply load_store_other.
          apply Hnodes. now right. }
        rewrite E4. cbn [fst snd app].
        destruct (aggregate_loop this ((k', nv') :: pt) (visit m nv)
                    (out ++ [res])) as [tr4 res4].
        cbn [fst snd] in *. exists h4, c.
        split; [reflexivity|]. split; [|exact Hc].
        intros r0 H1 H2. rewrite Hf4 by auto.
        unfold h3. rewrite load_store_other by auto. now apply Hfr2.
Qed.

(** A call on the heap.  It makes the invocations of [aggregate] and ends
    as it does, whatever the heap holds; the array it returns is a new
    object; and every object that was in the heap is in it unchanged. *)
Lemma aggregate_at h (items : list Item) :
  Store.load h self = Some (Store.InstanceObj this) ->
  exists h1 c,
    Store.aggregate self items h = (fst (aggregate this items), h1, c) /\
    (forall r o, Store.load h r = Some o -> Store.load h1 r = Some o) /\
    match snd (aggregate this items) with
    | Ok out =>
        exists output, c = Store.Normal output /\
                       Store.load h output = None /\
                       Store.load h1 output = Some (Store.ArrayObj out)
    | Raise e => c = Store.Throw e
    end.
Proof.
  intros Hself.
  assert (Hlt : self < length h) by (eapply load_lt; eauto).
  unfold Store.aggregate, aggregate.
  set (output := length h).
  set (ha := h ++ [Store.ArrayObj []]).
  set (nodeValues := length ha).
  set (hb := ha ++ [Store.MapObj JsMap.empty]).
  rewrite (bind_normal _ _ h [] ha output) by reflexivity.
  rewrite (bind_normal _ _ ha [] hb nodeValues) by reflexivity.
  assert (Hla : length ha = S (length h))
    by (unfold ha; rewrite length_app; simpl; lia).
  assert (Hlb : length hb = S (S (length h)))
    by (unfold hb; rewrite length_app; simpl; lia).
  assert (Hold : forall r, r < length h -> Store.load hb r = Store.load h r).
  { intros r Hr. unfold hb. rewrite load_app by lia.
    unfold ha. now rewrite load_app. }
  assert (Hob : Store.load hb output = Some (Store.ArrayObj (@nil R))).
  { unfold hb. rewrite load_app by (unfold output; lia).
    unfold ha, output. apply load_new. }
  assert (Hmb : Store.load hb nodeValues = Some (Store.MapObj (@JsMap.empty V)))
    by apply load_new.
  destruct (createRedBlackTree_loop_at (length hb) items 0 hb
              RBTree.empty RBTree.empty)
    as (h1 & c1 & E1 & Hl1 & Hf1 & Hc1).
  { rewrite Hold; auto. }
  { lia. }
  { lia. }
  { split; [constructor|]. split; constructor. }
  unfold Store.createRedBlackTree, createRedBlackTree.
  destruct (createRedBlackTree_loop this 0 items RBTree.empty)
    as [tr1 [pt1|e]]; cbn [fst snd] in *.
  - destruct Hc1 as (ht1 & -> & (HF & _ & _)).
    rewrite (bind_normal _ _ _ _ _ _ E1).
    destruct (aggregate_loop_at nodeValues output pt1 ht1 h1 JsMap.empty [])
      as (h2 & c2 & E2 & Hf2 & Hc2); auto.
    { rewrite Hf1 by lia. now rewrite Hold. }
    { rewrite Hf1 by (unfold nodeValues; lia). exact Hmb. }
    { rewrite Hf1 by (unfold output; lia). exact Hob. }
    unfold bind.
    destruct (aggregate_loop this pt1 JsMap.empty []) as [tr2 res2].
    cbn [fst snd] in *.
    assert (Hframe : forall r o, Store.load h r = Some o ->
                                 Store.load h2 r = Some o).
    { intros r o Hr. pose proof (load_lt _ _ _ Hr) as Hrl.
      rewrite Hf2 by (unfold nodeValues, output; lia).
      rewrite Hf1 by lia. now rewrite Hold. }
    destruct res2 as [out|e].
    + destruct Hc2 as [-> Ho2].
      rewrite (bind_normal _ _ _ _ _ _ E2).
      exists h2, (Store.Normal output).
      split; [simpl; now rewrite app_nil_r|]. split; [exact Hframe|].
      exists output. split; [reflexivity|]. split; [apply load_fresh|exact Ho2].
    + subst c2. rewrite (bind_throw _ _ _ _ _ _ E2).
      exists h2, (Store.Throw e).
      split; [reflexivity|]. split; [exact Hframe|reflexivity].
  - subst c1. rewrite (bind_throw _ _ _ _ _ _ E1). cbn [fst snd app].
    exists h1, (Store.Throw e).
    split; [reflexivity|]. split; [|reflexivity].
    intros r o Hr. pose proof (load_lt _ _ _ Hr) as Hrl.
    rewrite Hf1 by lia. now rewrite Hold.
Qed.

(** Successive calls. *)
Lemma session_at (inputs : list (list Item)) :
  forall h,
    Store.load h self = Some (Store.InstanceObj this) ->
    let results := fst (Store.session self inputs h) in
    let h1 := snd (Store.session self inputs h) in
    map (Store.observed h1) results =
      map (fun items => (fst (aggregate this items),
                         Some (snd (aggregate this items)))) inputs /\
    (forall r o, Store.load h r = Some o -> Store.load h1 r = Some o) /\
    NoDup (Store.returned results) /\
    (forall output, In output (Store.returned results) ->
                    Store.load h output = None).
Proof.
  induction inputs as [|items inputs IH]; intros h Hself; cbn zeta.
  - simpl. split; [reflexivity|]. split; [auto|].
    split; [constructor|intros output []].
  - cbn [Store.session].
    destruct (aggregate_at h items Hself) as (h1 & c & E & Hf & Hc).
    rewrite E.
    specialize (IH h1 (Hf _ _ Hself)). cbn zeta in IH.
    destruct (Store.session self inputs h1) as [results h2].
    cbn [fst snd] in *.
    destruct IH as (IH1 & IH2 & IH3 & IH4).
    assert (Hnone : forall r, Store.load h1 r = None -> Store.load h r = None).
    { intros r Hr. destruct (Store.load h r) as [o|] eqn:Eo; [|reflexivity].
      rewrite (Hf _ _ Eo) in Hr. discriminate. }
    split; [|split; [|split]].
    + cbn [map]. rewrite IH1. f_equal.
      unfold Store.observed. cbn [fst snd]. f_equal.
      destruct (snd (aggregate this items)) as [out|e].
      * destruct Hc as (output & -> & _ & Ho).
        now rewrite (IH2 _ _ Ho).
      * now subst c.
    + intros r o Hr. apply IH2. now apply Hf.
    + unfold Store.returned in *. cbn [flat_map snd].
      destruct (snd (aggregate this items)) as [out|e].
      * destruct Hc as (output & -> & _ & Ho). simpl.
        constructor; [|exact IH3].
        intros Hin. apply IH4 in Hin. congruence.
      * subst c. exact IH3.
    + unfold Store.returned in *. cbn [flat_map snd].
      intros output Hin. apply in_app_iff in Hin.
      destruct Hin as [Hin|Hin]; [|apply Hnone; now apply IH4].
      destruct (snd (aggregate this items)) as [out|e].
      * destruct Hc as (output' & -> & Hfresh & _).
        destruct Hin as [<-|[]]. exact Hfresh.
      * subst c. destruct Hin.
Qed.

End HeapFacts.

(** C9.  Determinism across calls.  The instance, and everything a call
    creates, are objects of one heap, which successive calls on the
    instance share.  Whatever the heap holds at the start and whatever was
    aggregated before, what a caller has of each call once all are over
    (the invocations the call made, and the elements of the array it
    returned as they are in the final heap, or the exception) is what
    [aggregate] gives for that call's input alone; so two calls with the
    same input have made the same invocations and returned arrays with the
    same elements.  Every object that was in the heap at the start, the
    instance among them, is in it unchanged at the end, and the arrays
    returned are new objects, each call's its own. *)
Theorem calls_share_no_state {Item V A R Exn : Type}
    (this : Aggregator Item V A R Exn) (self : Store.Ref)
    (h : Store.t Item V A R Exn) (inputs : list (list Item)) :
  Store.load h self = Some (Store.InstanceObj this) ->
  let results := fst (Store.session self inputs h) in
  let h1 := snd (Store.session self inputs h) in
  map (Store.observed h1) results =
    map (fun items => (fst (aggregate this items),
                       Some (snd (aggregate this items)))) inputs /\
  (forall i j items,
     nth_error inputs i = Some items -> nth_error inputs j = Some items ->
     nth_error (map (Store.observed h1) results) i =
     nth_error (map (Store.observed h1) results) j) /\
  (forall r o, Store.load h r = Some o -> Store.load h1 r = Some o) /\
  NoDup (Store.returned results) /\
  (forall output, In output (Store.returned results) ->
                  Store.load h output = None).
Proof.
  intros Hself results h1.
  destruct (session_at this self inputs h Hself) as (H1 & H2 & H3 & H4).
  fold results h1 in H1, H2, H3, H4.
  split; [exact H1|]. split; [|auto].
  intros i j items Hi Hj. rewrite H1.
  now rewrite (map_nth_error _ _ _ Hi), (map_nth_error _ _ _ Hj).
Qed.

Lemma calls_share_no_state_witness :
  nth_error
    (map (Store.observed
            (snd (Store.session 1 [overlapping; disjoint; overlapping]
                    listing_heap)))
         (fst (Store.session 1 [overlapping; disjoint; overlapping]
                 listing_heap))) 0 =
  nth_error
    (map (Store.observed
            (snd (Store.session 1 [overlapping; disjoint; overlapping]
                    listing_heap)))
         (fst (Store.session 1 [overlapping; disjoint; overlapping]
                 listing_heap))) 2.
Proof.
  refine (proj1 (proj2 (calls_share_no_state listing 1 listing_heap
            [overlapping; disjoint; overlapping] eq_refl)) 0 2 overlapping _ _).
  - reflexivity.
  - reflexivity.
Defined.

(* ================================================================== *)
(** * Zero-length blocks *)
(* ================================================================== *)

Section DropFacts.

Context {V : Type}.
Variable j : nat.
Implicit Types (m : JsMap.t V) (nv : NodeValue V).













End DropFacts.

Section DegenerateFacts.

Context {V : Type}.
Implicit Types (bs : list (Block V)) (k : Z).

Lemma coords_enum bs : forall i, coords (enum i bs) = block_coords bs.
Proof.
  induction bs as [|b bs IH]; intros i; [reflexivity|].
  unfold coords, block_coords in *. simpl. now rewrite IH.
Qed.



Lemma arrivals_cons i (b : Block V) (ibs : list (nat * Block V)) k :
  arrivals ((i, b) :: ibs) k =
  if Z.eqb (start b) k then (i, value b) :: arrivals ibs k else arrivals ibs k.
Proof. unfold arrivals. simpl. destruct (Z.eqb (start b) k); reflexivity. Qed.












(* ------------------------------------------------------------------ *)
(** ** A zero-length block on a coordinate of its own *)
(* ------------------------------------------------------------------ *)













End DegenerateFacts.



(** The proviso on items that have their end before their start: such an
    item never leaves the Active Set, and a zero-length block beyond every
    other coordinate adds a block that ends there. *)
Example degenerate_block_after_inverted :
  snd (aggregate listing inverted_alone) = Ok [] /\
  snd (aggregate listing degenerate_after_inverted) =
    Ok [mkBlock 10 20 [1]].
Proof. split; reflexivity. Qed.


(* ================================================================== *)
(** * More on the sweep *)
(* ================================================================== *)

Section CountFacts.

Context {Item V A R Exn : Type}.
Variable this : Aggregator Item V A R Exn.

Lemma spans_length (t : RBTree.t (NodeValue V)) :
  forall m, length (spans t m) = Nat.pred (length t).
Proof.
  induction t as [|[k nv] t IH]; intros m; [reflexivity|].
  destruct t as [|[k' nv'] t]; [reflexivity|].
  rewrite spans_cons. cbn [length]. rewrite IH. reflexivity.
Qed.

Lemma block_coords_length (bs : list (Block V)) :
  length (block_coords bs) = 2 * length bs.
Proof.
  induction bs as [|b bs IH]; [reflexivity|].
  unfold block_coords in *. simpl. rewrite IH. lia.
Qed.

Lemma live_spans_count (bs : list (Block V)) :
  length (live_spans bs) <= Nat.pred (2 * length bs).
Proof.
  unfold live_spans.
  eapply Nat.le_trans; [apply filter_length_le|].
  rewrite spans_length.
  destruct (index_shape bs) as (Ho & Hk & _).
  apply Nat.pred_le_mono. rewrite <- block_coords_length.
  rewrite <- (coords_enum bs 0).
  rewrite <- (length_map fst (build_index 0 bs RBTree.empty)).
  apply NoDup_incl_length.
  - now apply RBTreeFacts.ordered_nodup.
  - intros k Hin. now apply Hk.
Qed.

Lemma emit_all_counts (sps : list (Span V)) :
  forall out,
    length (aggregations (fst (emit_all this sps out))) <= length sps /\
    length (emitted (fst (emit_all this sps out))) <= length sps.
Proof.
  induction sps as [|sp sps IH]; intros out; cbn [emit_all].
  - simpl. auto.
  - unfold emit, call_agg, call_post. cbn [bind].
    destruct (aggregationFunction this (JsMap.values (sp_active sp))) as [a|e].
    + destruct (itemPostProcessor this (mkBlock (sp_start sp) (sp_end sp) a))
        as [r|e].
      * cbn [bind app]. specialize (IH (out ++ [r])).
        destruct (emit_all this sps (out ++ [r])) as [tr' res'].
        simpl in *. lia.
      * simpl. lia.
    + simpl. lia.
Qed.

End CountFacts.

(** In every run, the aggregation function is called at most [2n - 1]
    times for [n] items, and an output that is returned has at most
    [2n - 1] elements; for the empty input nothing is aggregated and the
    output is empty. *)
Theorem output_count_bound {Item V A R Exn : Type}
    (this : Aggregator Item V A R Exn) (items : list Item) :
  let run := aggregate this items in
  length (aggregations (fst run)) <= Nat.pred (2 * length items) /\
  (forall out, snd run = Ok out ->
               length out <= Nat.pred (2 * length items)).
Proof.
  intros run. unfold run. clear run.
  destruct (pre_outcomes this items)
    as [[bs H]|(l1 & bs1 & x & l2 & e & -> & H & Hx)].
  - rewrite (aggregate_ok this items bs H).
    pose proof (emit_all_counts this (live_spans bs) []) as [Ha He].
    pose proof (live_spans_count bs) as Hn.
    rewrite <- (Forall2_length H) in Hn.
    destruct (emit_all this (live_spans bs) []) as [tr res] eqn:Ee.
    cbn [fst snd] in *. rewrite aggregations_pre. split; [lia|].
    intros out ->.
    destruct (emit_all_outputs this _ _ _ _ Ee) as (rs & -> & HF).
    simpl. rewrite <- (Forall2_length HF). lia.
  - rewrite (aggregate_pre_raise this l1 bs1 x l2 e H Hx). cbn [fst snd].
    split; [|discriminate].
    rewrite <- (app_nil_r (map EvPre (l1 ++ [x]))), aggregations_pre.
    simpl. lia.
Qed.

Lemma output_count_bound_witness :
  length [mkBlock 0 5 [1]; mkBlock 5 10 [1; 2]; mkBlock 10 15 [2]] <=
  Nat.pred (2 * length overlapping).
Proof.
  apply (proj2 (output_count_bound listing overlapping)). reflexivity.
Defined.

(** For every input and callbacks that never throw, each emitted block
    starts and ends at a start or end coordinate of some item's block, and
    no such coordinate lies strictly inside it: over an emitted block the
    set of input ranges around is the same at every point. *)
Theorem emitted_block_boundaries {Item V A R : Type} (Exn : Type)
    (pre : Item -> Block V) (agg : list V -> A) (post : Block A -> R)
    (items : list Item) (ob : Block A) :
  In ob (emitted (fst (aggregate (pure_aggregator Exn pre agg post) items))) ->
  In (start ob) (block_coords (map pre items)) /\
  In (end_ ob) (block_coords (map pre items)) /\
  (forall c, In c (block_coords (map pre items)) ->
             (c <= start ob \/ end_ ob <= c)%Z).
Proof.
  rewrite aggregate_pure. cbn [fst].
  rewrite emitted_pre, emitted_span_events.
  set (bs := map pre items). intros Hin.
  apply in_map_iff in Hin. destruct Hin as (sp & <- & Hsp).
  apply live_spans_in in Hsp. destruct Hsp as [Hsp _].
  destruct (index_shape bs) as (Ho & Hk & _).
  destruct (spans_keys _ _ _ Hsp) as [Hs He].
  destruct (spans_between _ _ _ Ho Hsp) as [_ Hbt].
  rewrite <- (coords_enum bs 0). simpl.
  split; [now apply Hk|]. split; [now apply Hk|].
  intros c Hc. apply Hbt. now apply Hk.
Qed.

Lemma emitted_block_boundaries_witness :
  In 5%Z (block_coords overlapping) /\
  In 10%Z (block_coords overlapping) /\
  (forall c, In c (block_coords overlapping) -> (c <= 5 \/ 10 <= c)%Z).
Proof.
  refine (emitted_block_boundaries unit (fun b : Block nat => b)
            (fun values : list nat => values)
            (fun b : Block (list nat) => b) overlapping
            (mkBlock 5 10 [1; 2]) _).
  simpl. right. left. reflexivity.
Defined.

(** A block whose end lies before its start is never taken out of the
    Active Set: for every input and callbacks that never throw, it is in
    the Active Set of an aggregation exactly when the emitted block starts
    at or after the block's start. *)
Theorem inverted_block_never_leaves {Item V A R : Type} (Exn : Type)
    (pre : Item -> Block V) (agg : list V -> A) (post : Block A -> R)
    (items : list Item) (i : nat) (item : Item) (m : JsMap.t V) (ob : Block A) :
  nth_error items i = Some item ->
  (end_ (pre item) < start (pre item))%Z ->
  In (m, ob) (emissions (fst (aggregate (pure_aggregator Exn pre agg post) items))) ->
  (In (i, value (pre item)) m <-> (start (pre item) <= start ob)%Z) /\
  (In i (JsMap.ids m) <-> (start (pre item) <= start ob)%Z).
Proof.
  intros Hnth Hinv. rewrite aggregate_pure. cbn [fst].
  rewrite emissions_pre, emissions_span_events.
  set (bs := map pre items). intros Hm.
  apply in_map_iff in Hm. destruct Hm as (sp & E & Hsp).
  inversion E; subst m ob. clear E. simpl.
  pose proof (enum_nth_map pre items i item Hnth) as Hin. fold bs in Hin.
  assert (Hfwd : forall w, In (i, w) (sp_active sp) ->
                           (start (pre item) <= sp_start sp)%Z).
  { intros w Hw.
    destruct (active_block_bounds bs sp i (pre item) w Hsp Hin Hw)
      as (H1 & _ & _). exact H1. }
  assert (Hbwd : (start (pre item) <= sp_start sp)%Z ->
                 In (i, value (pre item)) (sp_active sp)).
  { intros Hle. apply live_spans_in in Hsp. destruct Hsp as [Hsp _].
    apply (proj2 (span_active bs sp Hsp)).
    exists (pre item). repeat split; auto. }
  split; split.
  - apply Hfwd.
  - exact Hbwd.
  - intros Hi. apply in_map_iff in Hi. destruct Hi as ([j w] & Ej & Hw).
    simpl in Ej. subst j. eauto.
  - intros Hle. apply Hbwd in Hle. apply (in_map fst) in Hle. exact Hle.
Qed.

Lemma inverted_block_never_leaves_witness :
  (In (0, 1) [(0, 1); (1, 2)] <-> (10 <= 20)%Z) /\
  (In 0 (JsMap.ids [(0, 1); (1, 2)]) <-> (10 <= 20)%Z).
Proof.
  refine (inverted_block_never_leaves unit (fun b : Block nat => b)
            (fun values : list nat => values)
            (fun b : Block (list nat) => b) with_inverted 0
            (mkBlock 10 0 1) [(0, 1); (1, 2)] (mkBlock 20 30 [1; 2]) _ _ _).
  - reflexivity.
  - reflexivity.
  - simpl. right. left. reflexivity.
Defined.

(* ------------------------------------------------------------------ *)
(** ** The order of the Active Set *)
(* ------------------------------------------------------------------ *)

Section OrderFacts.

Context {V : Type}.
Implicit Types (m : JsMap.t V) (nv : NodeValue V).

Lemma set_fresh m i (v : V) :
  ~ In i (JsMap.ids m) -> JsMap.set m i v = m ++ [(i, v)].
Proof.
  induction m as [|[k w] m IH]; simpl; intros H; [reflexivity|].
  destruct (Nat.eqb_spec i k); [subst; tauto|].
  rewrite IH by tauto. reflexivity.
Qed.

Lemma arrive_fresh m nv :
  NoDup (map fst (nstart nv)) ->
  (forall i, In i (map fst (nstart nv)) -> ~ In i (JsMap.ids m)) ->
  arrive m nv = m ++ nstart nv.
Proof.
  unfold arrive. generalize (nstart nv) as l. intros l. revert m.
  induction l as [|[i v] l IH]; simpl; intros m Hd Hf.
  - now rewrite app_nil_r.
  - inversion Hd as [|? ? Hn Hd']; subst.
    rewrite set_fresh by (apply Hf; now left).
    rewrite IH; auto.
    + now rewrite <- app_assoc.
    + intros j Hj Hin. unfold JsMap.ids in Hin.
      rewrite map_app, in_app_iff in Hin. simpl in Hin.
      destruct Hin as [Hin|[E|[]]].
      * apply (Hf j); auto.
      * subst. contradiction.
Qed.

Lemma delete_ssorted (Rel : nat -> nat -> Prop) m k :
  StronglySorted Rel (JsMap.ids m) ->
  StronglySorted Rel (JsMap.ids (JsMap.delete m k)).
Proof.
  induction m as [|[k' w] m IH]; simpl; intros H; auto.
  apply StronglySorted_inv in H. destruct H as [Hs Hf].
  destruct (Nat.eqb k k'); simpl; auto.
  constructor; auto. rewrite Forall_forall in *.
  intros x Hx. apply Hf. eapply JsMapFacts.ids_delete_in; eauto.
Qed.

Lemma depart_ssorted (Rel : nat -> nat -> Prop) m nv :
  StronglySorted Rel (JsMap.ids m) ->
  StronglySorted Rel (JsMap.ids (depart m nv)).
Proof.
  unfold depart. generalize (nend nv) as l. intros l. revert m.
  induction l as [|j l IH]; simpl; intros m H; auto.
  apply IH. now apply delete_ssorted.
Qed.

Lemma ssorted_app_intro {X : Type} (Rel : X -> X -> Prop) (l1 l2 : list X) :
  StronglySorted Rel l1 -> StronglySorted Rel l2 ->
  (forall x y, In x l1 -> In y l2 -> Rel x y) ->
  StronglySorted Rel (l1 ++ l2).
Proof.
  induction 1 as [|a l1 Hs IH Hf]; simpl; intros H2 Hc; auto.
  constructor.
  - apply IH; auto.
  - apply Forall_app. split; auto.
    apply Forall_forall. intros y Hy. apply Hc; simpl; auto.
Qed.

Lemma ssorted_impl_in {X : Type} (R1 R2 : X -> X -> Prop) (l : list X) :
  StronglySorted R1 l ->
  (forall x y, In x l -> In y l -> R1 x y -> R2 x y) ->
  StronglySorted R2 l.
Proof.
  induction 1 as [|a l Hs IH Hf]; intros Himp; constructor.
  - apply IH. intros x y Hx Hy. apply Himp; simpl; auto.
  - rewrite Forall_forall in *. intros y Hy.
    apply Himp; simpl; auto.
Qed.

Lemma arrivals_ids_sorted (bs : list (Block V)) k :
  forall i,
    StronglySorted lt (map fst (arrivals (enum i bs) k)) /\
    Forall (fun j => i <= j) (map fst (arrivals (enum i bs) k)).
Proof.
  induction bs as [|b bs IH]; intros i; simpl enum.
  - split; constructor.
  - rewrite arrivals_cons. destruct (IH (S i)) as [Hs Hf].
    assert (Hf' : Forall (fun j => i <= j)
                         (map fst (arrivals (enum (S i) bs) k))).
    { eapply Forall_impl; [|exact Hf]. simpl. intros; lia. }
    destruct (Z.eqb (start b) k); simpl; [|split; assumption].
    split; constructor; auto.
Qed.

(** After the nodes of ascending keys have been visited, the Active Set
    lists its blocks by start coordinate, then by input position. *)
Lemma visited_ssorted (bs : list (Block V)) :
  forall ks, StronglySorted Z.lt ks ->
    StronglySorted (arrives_before (enum 0 bs))
      (JsMap.ids (visited JsMap.empty (index_over (enum 0 bs) ks))).
Proof.
  set (ibs := enum 0 bs).
  assert (Hd : NoDup (map fst ibs)) by apply enum_nodup.
  intros ks. induction ks as [|k ks IH] using rev_ind; intros Hs.
  - constructor.
  - pose proof (sorted_app _ _ Hs) as (Hs' & _ & Hlt).
    specialize (IH Hs').
    assert (Hk : forall x, In x ks -> (x < k)%Z)
      by (intros x Hx; apply Hlt; simpl; auto).
    pose proof (visited_index_in ibs Hd ks Hs') as Hmem.
    unfold index_over in *. rewrite map_app, visited_app. simpl.
    set (m := visited JsMap.empty (map (fun k0 => (k0, node_at ibs k0)) ks)) in *.
    unfold visit. apply depart_ssorted.
    assert (Hold : forall i, In i (JsMap.ids m) ->
                     exists b, In (i, b) ibs /\ (start b < k)%Z).
    { intros i Hi. apply in_map_iff in Hi. destruct Hi as ([j w] & Ej & Hw).
      simpl in Ej. subst j. apply Hmem in Hw.
      destruct Hw as (b & Hb & _ & Hst & _). exists b. split; auto. }
    rewrite arrive_fresh.
    + unfold JsMap.ids. rewrite map_app. simpl nstart.
      apply ssorted_app_intro.
      * exact IH.
      * apply (ssorted_impl_in lt).
        { apply (arrivals_ids_sorted bs k 0). }
        intros x y Hx Hy Hxy. fold ibs in Hx, Hy.
        apply arrivals_ids_in in Hx. destruct Hx as (bx & Hbx & Hsx).
        apply arrivals_ids_in in Hy. destruct Hy as (by_ & Hby & Hsy).
        exists bx, by_. repeat split; auto. right. split; [congruence|exact Hxy].
      * intros x y Hx Hy.
        destruct (Hold x Hx) as (bx & Hbx & Hsx).
        apply arrivals_ids_in in Hy. destruct Hy as (by_ & Hby & Hsy).
        exists bx, by_. repeat split; auto. left. lia.
    + simpl. now apply arrivals_nodup.
    + simpl. intros i Hi Hin.
      apply arrivals_ids_in in Hi. destruct Hi as (b & Hb & Hsb).
      destruct (Hold i Hin) as (b' & Hb' & Hsb').
      assert (b' = b) by (eapply nodup_fst_functional; eauto).
      subst b'. lia.
Qed.

Lemma span_active_visited (bs : list (Block V)) (sp : Span V) :
  In sp (spans (build_index 0 bs RBTree.empty) JsMap.empty) ->
  exists ks, StronglySorted Z.lt ks /\
             sp_active sp = visited JsMap.empty (index_over (enum 0 bs) ks).
Proof.
  intros Hsp.
  destruct (index_shape bs) as (Ho & Hk & Et).
  set (tree := build_index 0 bs RBTree.empty) in *.
  destruct (spans_in _ _ _ Hsp) as (done & nv & nv' & rest & Ed & Ea).
  apply index_over_forall in Et.
  exists (RBTree.keys (done ++ [(sp_start sp, nv)])). split.
  - unfold ordered in Ho. rewrite Ed in Ho.
    change ((sp_start sp, nv) :: (sp_end sp, nv') :: rest)
      with ([(sp_start sp, nv)] ++ (sp_end sp, nv') :: rest) in Ho.
    rewrite app_assoc in Ho. unfold RBTree.keys in *.
    rewrite map_app in Ho. apply sorted_app in Ho. tauto.
  - rewrite Ea. f_equal. apply index_over_forall.
    rewrite Ed in Et. apply Forall_app in Et. destruct Et as [E1 E2].
    apply Forall_app. split; auto.
    inversion E2; subst. constructor; auto.
Qed.

End OrderFacts.

Section ArgumentFacts.

Context {V : Type}.

Lemma forall2_choice {X Y : Type} (P : X -> Y -> Prop) (l : list X) :
  (forall x, In x l -> exists y, P x y) -> exists l', Forall2 P l l'.
Proof.
  induction l as [|x l IH]; intros H.
  - exists []. constructor.
  - destruct (H x (or_introl eq_refl)) as (y & Hy).
    destruct IH as (l' & Hl'); [intros z Hz; apply H; now right|].
    exists (y :: l'). now constructor.
Qed.

Lemma forall2_in_l {X Y : Type} (P : X -> Y -> Prop) l l' x :
  Forall2 P l l' -> In x l -> exists y, In y l' /\ P x y.
Proof.
  induction 1 as [|a b l l' Hab Hl IH]; simpl; [tauto|].
  intros [->|Hx].
  - exists b. auto.
  - destruct (IH Hx) as (y & Hy & Hp). exists y. auto.
Qed.

Lemma forall2_in_r {X Y : Type} (P : X -> Y -> Prop) l l' y :
  Forall2 P l l' -> In y l' -> exists x, In x l /\ P x y.
Proof.
  induction 1 as [|a b l l' Hab Hl IH]; simpl; [tauto|].
  intros [->|Hy].
  - exists a. auto.
  - destruct (IH Hy) as (x & Hx & Hp). exists x. auto.
Qed.

Lemma forall2_map {X Y Z : Type} (P : X -> Y -> Prop)
    (f : X -> Z) (g : Y -> Z) l l' :
  (forall x y, P x y -> f x = g y) ->
  Forall2 P l l' -> map f l = map g l'.
Proof.
  intros Hfg. induction 1 as [|a b l l' Hab Hl IH]; simpl; [reflexivity|].
  f_equal; auto.
Qed.

Lemma ssorted_of_map {X Y : Type} (Rel : Y -> Y -> Prop) (g : X -> Y)
    (l : list X) :
  StronglySorted Rel (map g l) ->
  StronglySorted (fun a b => Rel (g a) (g b)) l.
Proof.
  induction l as [|x l IH]; simpl; intros H; constructor.
  - apply IH. now inversion H.
  - inversion H as [|? ? _ Hf]; subst.
    rewrite Forall_forall in *. intros y Hy. apply Hf. now apply in_map.
Qed.

(** The Active Set of a span, block by block: the blocks active on the
    span, by start coordinate and input position, and their payloads are
    the values of the map in its order. *)
Lemma active_blocks_listing (bs : list (Block V)) (sp : Span V) :
  In sp (spans (build_index 0 bs RBTree.empty) JsMap.empty) ->
  exists act,
    StronglySorted block_arrives_before act /\
    (forall ib, In ib act <->
                In ib (enum 0 bs) /\
                (start (snd ib) <= sp_start sp)%Z /\
                (sp_end sp <= end_ (snd ib) \/
                 end_ (snd ib) < start (snd ib))%Z) /\
    map fst act = JsMap.ids (sp_active sp) /\
    payloads act = JsMap.values (sp_active sp).
Proof.
  intros Hsp.
  destruct (span_active bs sp Hsp) as [Hnd Hmem].
  destruct (span_active_visited bs sp Hsp) as (ks & Hks & Ea).
  pose proof (visited_ssorted bs ks Hks) as Hss. rewrite <- Ea in Hss.
  assert (Hd : NoDup (map fst (enum 0 bs))) by apply enum_nodup.
  set (P := fun (iw : nat * V) (ib : nat * Block V) =>
              fst ib = fst iw /\ value (snd ib) = snd iw /\
              In ib (enum 0 bs) /\
              (start (snd ib) <= sp_start sp)%Z /\
              (sp_end sp <= end_ (snd ib) \/
               end_ (snd ib) < start (snd ib))%Z).
  destruct (forall2_choice P (sp_active sp)) as (act & Hact).
  { intros [i w] Hin. apply Hmem in Hin.
    destruct Hin as (b & Hb & -> & H1 & H2).
    exists (i, b). unfold P. simpl. auto. }
  exists act. split; [|split; [|split]].
  - assert (Efst : map fst act = JsMap.ids (sp_active sp)).
    { symmetry. apply (forall2_map P); auto. intros x y Hp.
      symmetry. apply Hp. }
    rewrite <- Efst in Hss. apply ssorted_of_map in Hss.
    apply (ssorted_impl_in _ _ _ Hss).
    intros x y Hx Hy (bi & bj & Hbi & Hbj & Hord).
    destruct (forall2_in_r _ _ _ _ Hact Hx) as (_ & _ & _ & _ & Hix & _).
    destruct (forall2_in_r _ _ _ _ Hact Hy) as (_ & _ & _ & _ & Hiy & _).
    destruct x as [i bx], y as [j by_]. simpl in *.
    assert (bi = bx) by (eapply nodup_fst_functional; eauto).
    assert (bj = by_) by (eapply nodup_fst_functional; eauto).
    subst. exact Hord.
  - intros [i b]. split.
    + intros Hin.
      destruct (forall2_in_r _ _ _ _ Hact Hin) as (_ & _ & _ & _ & H).
      exact H.
    + intros (Hin & H1 & H2). simpl in *.
      assert (Hm : In (i, value b) (sp_active sp)).
      { apply Hmem. exists b. auto. }
      destruct (forall2_in_l _ _ _ _ Hact Hm)
        as ([i' b'] & Hin' & Ei & _ & Hb' & _).
      simpl in Ei. subst i'.
      assert (b' = b) by (eapply nodup_fst_functional; eauto).
      now subst b'.
  - symmetry. apply (forall2_map P); auto. intros x y Hp.
    symmetry. apply Hp.
  - symmetry. unfold payloads, JsMap.values.
    apply (forall2_map P); auto. intros x y Hp. symmetry. apply Hp.
Qed.

End ArgumentFacts.

(** The payloads reach the aggregation function in a fixed order.
    For every input and callbacks that never throw, each aggregation call
    followed by its formatter call, for the block from [start] to [end],
    was made on the payloads of exactly the blocks active there (those
    with [block.start <= start] that end at or after [end], or never
    leave), listed by ascending start coordinate and, among blocks starting
    together, in the order of the items: that list is the argument of the
    aggregation function, and its result the [value] emitted. *)
Theorem aggregation_argument_order {Item V A R : Type} (Exn : Type)
    (pre : Item -> Block V) (agg : list V -> A) (post : Block A -> R)
    (items : list Item) :
  Forall (fun mo =>
            exists act,
              StronglySorted block_arrives_before act /\
              (forall ib, In ib act <->
                          In ib (enum 0 (map pre items)) /\
                          (start (snd ib) <= start (snd mo))%Z /\
                          (end_ (snd mo) <= end_ (snd ib) \/
                           end_ (snd ib) < start (snd ib))%Z) /\
              JsMap.values (fst mo) = payloads act /\
              value (snd mo) = agg (payloads act))
         (emissions (fst (aggregate (pure_aggregator Exn pre agg post) items))).
Proof.
  rewrite aggregate_pure. cbn [fst].
  rewrite emissions_pre, emissions_span_events.
  apply Forall_map. apply Forall_forall. intros sp Hsp.
  apply live_spans_in in Hsp. destruct Hsp as [Hsp _].
  destruct (active_blocks_listing _ sp Hsp) as (act & Hs & Hm & _ & Ev).
  exists act. cbn [fst snd span_block start end_ value].
  rewrite Ev. auto.
Qed.

(* ------------------------------------------------------------------ *)
(** ** Reordering the input *)
(* ------------------------------------------------------------------ *)

Section ReorderFacts.

Context {V : Type}.
Implicit Types (bs : list (Block V)) (sp : Span V).









End ReorderFacts.



(* ================================================================== *)
(** * The write buffer *)
(* ================================================================== *)

Module WriteBufferFacts.
Import String.
Import WriteBuffer.
Local Open Scope string_scope.
Local Open Scope list_scope.

Section Facts.

Context {Item Err Db : Type}.
Variable message : Err -> String.string.
Implicit Types (wb : WriteBuffer.t Item Err Db) (db : Db).

Lemma length_strict_eq_spec (n : nat) (limit : Number) :
  reflect (limit = Integral (Z.of_nat n)) (length_strict_eq n limit).
Proof.
  destruct limit as [z|]; simpl.
  - destruct (Z.eqb_spec (Z.of_nat n) z) as [E|N]; constructor; congruence.
  - constructor. discriminate.
Qed.

Lemma items_of_params wb : items_of (params wb) = buffer wb.
Proof.
  unfold items_of, params. simpl. rewrite app_nil_r, map_map. simpl.
  apply map_id.
Qed.

(** The three ways [flush] can go. *)
Lemma flush_cases db wb :
  (buffer wb = [] /\ flush message db wb = ([], db, wb, Ok tt)) \/
  (buffer wb <> [] /\ exists db',
      dynamoDbInstance wb db (params wb) = (db', None) /\
      flush message db wb =
        ([BatchWriteItem (params wb) None], db', set_buffer wb [], Ok tt)) \/
  (buffer wb <> [] /\ exists db' e,
      dynamoDbInstance wb db (params wb) = (db', Some e) /\
      flush message db wb =
        ([BatchWriteItem (params wb) (Some e);
          ConsoleError (String.append "Error: " (message e))],
         db', wb, Raise e)).
Proof.
  unfold flush. destruct (buffer wb) as [|x l] eqn:Eb; simpl.
  - left. auto.
  - right. destruct (dynamoDbInstance wb db (params wb)) as [db' [e|]] eqn:Ec.
    + right. split; [discriminate|]. exists db', e. auto.
    + left. split; [discriminate|]. exists db'. auto.
Qed.

(** The three ways [put] can go. *)
Lemma put_cases db wb x cb :
  let wb1 := set_buffer wb (buffer wb ++ [x]) in
  let full := Integral (Z.of_nat (List.length (buffer wb1))) in
  (maxWriteBatchSize wb <> full /\
   put message db wb x cb = ([], db, wb1, Ok tt)) \/
  (maxWriteBatchSize wb = full /\ exists db',
      dynamoDbInstance wb db (params wb1) = (db', None) /\
      put message db wb x cb =
        ([BatchWriteItem (params wb1) None; OnFlush], db',
         set_buffer wb [], cb)) \/
  (maxWriteBatchSize wb = full /\ exists db' e,
      dynamoDbInstance wb db (params wb1) = (db', Some e) /\
      put message db wb x cb =
        ([BatchWriteItem (params wb1) (Some e);
          ConsoleError (String.append "Error: " (message e))],
         db', wb1, Raise e)).
Proof.
  intros wb1 full. unfold put. fold wb1.
  change (maxWriteBatchSize wb1) with (maxWriteBatchSize wb).
  destruct (length_strict_eq_spec (List.length (buffer wb1))
                                  (maxWriteBatchSize wb)) as [E|N].
  - right.
    destruct (flush_cases db wb1)
      as [[Hb _]|[(Hb & db' & Hc & Hf)|(Hb & db' & e & Hc & Hf)]].
    + exfalso. unfold wb1 in Hb. simpl in Hb.
      destruct (buffer wb); discriminate.
    + left. split; auto. exists db'. split; [exact Hc|]. rewrite Hf.
      reflexivity.
    + right. split; auto. exists db', e. split; [exact Hc|]. rewrite Hf.
      reflexivity.
  - left. auto.
Qed.

Lemma written_app (t1 t2 : list (WriteBuffer.Event Item Err)) :
  written (t1 ++ t2) = written t1 ++ written t2.
Proof. unfold written. apply flat_map_app. Qed.

Lemma requests_app (t1 t2 : list (WriteBuffer.Event Item Err)) :
  requests (t1 ++ t2) = requests t1 ++ requests t2.
Proof. unfold requests. apply flat_map_app. Qed.

Lemma run_step op ops db wb :
  run message (op :: ops) db wb =
  match step message db wb op with
  | (tr, db', wb', _) =>
      match run message ops db' wb' with
      | (tr', db'', wb'') => (tr ++ tr', db'', wb'')
      end
  end.
Proof. reflexivity. Qed.

(** What a single call conserves. *)
Lemma step_conserves db wb op tr db' wb' r :
  step message db wb op = (tr, db', wb', r) ->
  written tr ++ buffer wb' = buffer wb ++ put_items [op] /\
  table wb' = table wb /\
  maxWriteBatchSize wb' = maxWriteBatchSize wb /\
  dynamoDbInstance wb' = dynamoDbInstance wb.
Proof.
  destruct op as [x cb|]; simpl.
  - destruct (put_cases db wb x cb)
      as [[_ Hp]|[(_ & d & _ & Hp)|(_ & d & e & _ & Hp)]];
      rewrite Hp; intros E; inversion E; subst; clear E; simpl.
    + auto.
    + rewrite items_of_params. simpl. rewrite !app_nil_r. auto.
    + auto.
  - destruct (flush_cases db wb)
      as [[Hb Hf]|[(_ & d & _ & Hf)|(_ & d & e & _ & Hf)]];
      rewrite Hf; intros E; inversion E; subst; clear E; simpl.
    + rewrite app_nil_r. auto.
    + rewrite items_of_params. now rewrite !app_nil_r.
    + rewrite app_nil_r. auto.
Qed.

End Facts.

(** Nothing is lost and nothing is written twice.  After any sequence of
    awaited [put] and [flush] calls, whatever the client answered and
    whether or not calls rejected, the items of the writes that went
    through, in order, followed by the items still buffered, are exactly
    the items buffered at the start followed by the items put, in order. *)
Theorem nothing_lost_or_written_twice {Item Err Db : Type}
    (message : Err -> String.string) (ops : list (Op Item Err)) :
  forall (db : Db) (wb : WriteBuffer.t Item Err Db),
    written (fst (fst (run message ops db wb))) ++
      buffer (snd (run message ops db wb)) =
    buffer wb ++ put_items ops /\
    table (snd (run message ops db wb)) = table wb /\
    maxWriteBatchSize (snd (run message ops db wb)) = maxWriteBatchSize wb.
Proof.
  induction ops as [|op ops IH]; intros db wb.
  - simpl. rewrite app_nil_r. auto.
  - rewrite run_step.
    destruct (step message db wb op) as [[[tr db'] wb'] r] eqn:Es.
    destruct (step_conserves message _ _ _ _ _ _ _ Es) as (Hc & Ht & Hm & _).
    specialize (IH db' wb').
    destruct (run message ops db' wb') as [[tr' db''] wb''].
    cbn [fst snd] in *. destruct IH as (IH1 & IH2 & IH3).
    rewrite written_app, <- app_assoc, IH1, app_assoc, Hc.
    split; [|split; congruence].
    rewrite <- app_assoc. f_equal. unfold put_items. simpl.
    now rewrite app_nil_r.
Qed.

Section MoreFacts.

Context {Item Err Db : Type}.
Variable message : Err -> String.string.
Implicit Types (wb : WriteBuffer.t Item Err Db) (db : Db).

Lemma overfull_after_put wb (x : Item) :
  List.length (buffer wb) <
  List.length (buffer (set_buffer wb (buffer wb ++ [x]))).
Proof. simpl. rewrite length_app. simpl. lia. Qed.

(** A whole limit at or below the number of buffered items is no longer
    length. *)
Lemma integral_limit_passed wb (z : Z) :
  maxWriteBatchSize wb = Integral z ->
  (z <= Z.of_nat (List.length (buffer wb)))%Z ->
  forall n, List.length (buffer wb) < n ->
            maxWriteBatchSize wb <> Integral (Z.of_nat n).
Proof.
  intros E Hz n Hn. rewrite E. intros H. inversion H. lia.
Qed.

(** With a limit that no longer buffer will equal, [put] only buffers. *)
Lemma puts_on_overfull (ops : list (Op Item Err)) :
  forall db wb,
    (forall n, List.length (buffer wb) < n ->
               maxWriteBatchSize wb <> Integral (Z.of_nat n)) ->
    Forall is_put ops ->
    run message ops db wb =
    ([], db, set_buffer wb (buffer wb ++ put_items ops)).
Proof.
  induction ops as [|op ops IH]; intros db wb Hfull Hops.
  - simpl. unfold set_buffer. rewrite app_nil_r. now destruct wb.
  - inversion Hops as [|? ? Hop Hops']; subst.
    destruct op as [x cb|]; [|contradiction].
    rewrite run_step. cbn [step].
    destruct (put_cases message db wb x cb)
      as [[_ Hp]|[(E & _)|(E & _)]].
    + rewrite Hp. rewrite IH; auto.
      * unfold set_buffer, put_items. simpl. now rewrite <- app_assoc.
      * simpl. intros n Hn. apply Hfull. rewrite length_app in Hn.
        simpl in Hn. lia.
    + exfalso. apply (Hfull _ (overfull_after_put wb x)). exact E.
    + exfalso. apply (Hfull _ (overfull_after_put wb x)). exact E.
Qed.

Lemma on_flush_guarded_absent size (tr : list (WriteBuffer.Event Item Err)) :
  ~ In OnFlush tr -> on_flush_guarded size tr.
Proof.
  intros H tr1 tr2 E. exfalso. apply H. rewrite E.
  apply in_or_app. right. now left.
Qed.

Lemma on_flush_guarded_app size (a b : list (WriteBuffer.Event Item Err)) :
  on_flush_guarded size a -> on_flush_guarded size b ->
  on_flush_guarded size (a ++ b).
Proof.
  intros Ha Hb tr1 tr2 E.
  apply app_eq_app in E. destruct E as (l & [[E1 E2]|[E1 E2]]).
  - destruct l as [|x l].
    + simpl in E2. rewrite app_nil_r in E1. subst.
      destruct (Hb [] tr2 eq_refl) as (tr0 & p & E & _).
      destruct tr0; discriminate.
    + simpl in E2. inversion E2; subst. apply (Ha tr1 l eq_refl).
  - destruct (Hb l tr2 E2) as (tr0 & p & -> & Hp).
    exists (a ++ tr0), p. rewrite E1. now rewrite app_assoc.
Qed.

Lemma step_on_flush_guarded db wb op tr db' wb' r :
  step message db wb op = (tr, db', wb', r) ->
  on_flush_guarded (maxWriteBatchSize wb) tr.
Proof.
  destruct op as [x cb|]; simpl.
  - destruct (put_cases message db wb x cb)
      as [[_ Hp]|[(Hfull & d & _ & Hp)|(_ & d & e & _ & Hp)]];
      rewrite Hp; intros E; inversion E; subst; clear E.
    + apply on_flush_guarded_absent. intros [].
    + intros tr1 tr2 E.
      destruct tr1 as [|a [|b tr1]]; simpl in E; inversion E; subst.
      * exists [], (params (set_buffer wb (buffer wb ++ [x]))).
        split; [reflexivity|]. now rewrite items_of_params.
      * destruct tr1; discriminate.
    + apply on_flush_guarded_absent. simpl. intros [H|[H|[]]]; discriminate.
  - destruct (flush_cases message db wb)
      as [[Hb Hf]|[(_ & d & _ & Hf)|(_ & d & e & _ & Hf)]];
      rewrite Hf; intros E; inversion E; subst; clear E;
      apply on_flush_guarded_absent; simpl.
    + intros [].
    + intros [H|[]]; discriminate.
    + intros [H|[H|[]]]; discriminate.
Qed.

Lemma run_on_flush_guarded (ops : list (Op Item Err)) :
  forall db wb,
    on_flush_guarded (maxWriteBatchSize wb) (fst (fst (run message ops db wb))).
Proof.
  induction ops as [|op ops IH]; intros db wb.
  - apply on_flush_guarded_absent. intros [].
  - rewrite run_step.
    destruct (step message db wb op) as [[[tr db'] wb'] r] eqn:Es.
    pose proof (step_on_flush_guarded _ _ _ _ _ _ _ Es) as Hs.
    destruct (step_conserves message _ _ _ _ _ _ _ Es) as (_ & _ & Hm & _).
    specialize (IH db' wb'). rewrite Hm in IH.
    destruct (run message ops db' wb') as [[tr' db''] wb''].
    cbn [fst] in *. now apply on_flush_guarded_app.
Qed.

(** With a healthy client and room in the buffer, a call keeps it so. *)
Lemma step_within_limit db wb (limit : Z) op tr db' wb' r :
  healthy (dynamoDbInstance wb) ->
  maxWriteBatchSize wb = Integral limit ->
  (Z.of_nat (List.length (buffer wb)) < limit)%Z ->
  step message db wb op = (tr, db', wb', r) ->
  Forall (fun p => exists reqs,
            RequestItems p = [(table wb, reqs)] /\
            1 <= List.length reqs /\
            (Z.of_nat (List.length reqs) <= limit)%Z)
         (requests tr) /\
  (Z.of_nat (List.length (buffer wb')) < limit)%Z.
Proof.
  intros Hh Hmax Hlt.
  destruct op as [x cb|]; simpl.
  - destruct (put_cases message db wb x cb)
      as [[Hne Hp]|[(Hfull & d & _ & Hp)|(_ & d & e & Hc & _)]].
    + rewrite Hp. intros E; inversion E; subst; clear E.
      split; [constructor|].
      assert (limit <> Z.of_nat (List.length (buffer wb ++ [x])))
        by (intros ->; now apply Hne).
      simpl. rewrite length_app in *. simpl in *. lia.
    + rewrite Hp. intros E; inversion E; subst; clear E.
      rewrite Hmax in Hfull. inversion Hfull as [Hl]. clear Hfull.
      simpl in *.
      split;
        [|pose proof (Nat2Z.is_nonneg (List.length (buffer wb))); lia].
      repeat constructor.
      eexists. split; [reflexivity|]. rewrite length_map. simpl.
      rewrite length_app. simpl. lia.
    + exfalso. specialize (Hh db (params (set_buffer wb (buffer wb ++ [x])))).
      rewrite Hc in Hh. discriminate.
  - destruct (flush_cases message db wb)
      as [[Hb Hf]|[(Hb & d & _ & Hf)|(_ & d & e & Hc & _)]].
    + rewrite Hf. intros E; inversion E; subst; clear E.
      split; [constructor|assumption].
    + rewrite Hf. intros E; inversion E; subst; clear E. simpl.
      split;
        [|pose proof (Nat2Z.is_nonneg (List.length (buffer wb))); lia].
      repeat constructor.
      eexists. split; [reflexivity|]. rewrite length_map.
      destruct (buffer wb); [congruence|]. simpl in *. lia.
    + exfalso. specialize (Hh db (params wb)). rewrite Hc in Hh.
      discriminate.
Qed.

End MoreFacts.

(** While the client's writes go through and the limit is a whole number,
    batches respect the limit.  With [maxWriteBatchSize] the whole number
    [limit] and fewer than [limit] items buffered at the start, after any
    sequence of awaited [put] and [flush] calls every request sent names the
    table alone and carries at least one and at most [limit] put requests,
    and [length()] stays below [limit].  (A limit that is not a whole number
    is [===] to no length: then [put] never sends.) *)
Theorem batches_within_limit {Item Err Db : Type}
    (message : Err -> String.string) (ops : list (Op Item Err)) :
  forall (db : Db) (wb : WriteBuffer.t Item Err Db) (limit : Z),
    healthy (dynamoDbInstance wb) ->
    maxWriteBatchSize wb = Integral limit ->
    (Z.of_nat (List.length (buffer wb)) < limit)%Z ->
    Forall (fun p => exists reqs,
              RequestItems p = [(table wb, reqs)] /\
              1 <= List.length reqs /\
              (Z.of_nat (List.length reqs) <= limit)%Z)
           (requests (fst (fst (run message ops db wb)))) /\
    (Z.of_nat (WriteBuffer.length (snd (run message ops db wb))) < limit)%Z.
Proof.
  unfold WriteBuffer.length.
  induction ops as [|op ops IH]; intros db wb limit Hh Hmax Hlt.
  - simpl. split; [constructor|assumption].
  - rewrite run_step.
    destruct (step message db wb op) as [[[tr db'] wb'] r] eqn:Es.
    destruct (step_within_limit message _ _ _ _ _ _ _ _ Hh Hmax Hlt Es)
      as [Hr Hb].
    destruct (step_conserves message _ _ _ _ _ _ _ Es) as (_ & Ht & Hm & Hc).
    specialize (IH db' wb' limit). rewrite Hc, Hm, Ht in IH.
    specialize (IH Hh Hmax Hb).
    destruct (run message ops db' wb') as [[tr' db''] wb''].
    cbn [fst snd] in *. destruct IH as [IH1 IH2].
    split; [|assumption]. rewrite requests_app. apply Forall_app. auto.
Qed.

(** [put] flushes only when the buffer holds exactly [maxWriteBatchSize]
    items.  Once [maxWriteBatchSize] is the length of no longer buffer
    (the buffer holds that many items or more, or the limit is not a whole
    number), any number of awaited [put] calls send nothing and call no
    [onFlush]: the items pile up in the buffer, until [flush] is called. *)
Theorem overfull_buffer_never_flushes_on_put {Item Err Db : Type}
    (message : Err -> String.string) (ops : list (Op Item Err))
    (db : Db) (wb : WriteBuffer.t Item Err Db) :
  (forall n, List.length (buffer wb) < n ->
             maxWriteBatchSize wb <> Integral (Z.of_nat n)) ->
  Forall is_put ops ->
  run message ops db wb =
  ([], db, set_buffer wb (buffer wb ++ put_items ops)).
Proof. apply puts_on_overfull. Qed.

(** With a limit of 2.5 three awaited [put] calls send nothing, and
    [length()] is 3. *)
Example fractional_limit_never_sends :
  WriteBuffer.run WriteBufferScenarios.say
    [Put 1 (Ok tt); Put 2 (Ok tt); Put 3 (Ok tt)] tt
    WriteBufferScenarios.fractional =
  ([], tt, set_buffer WriteBufferScenarios.fractional [1; 2; 3]) /\
  WriteBuffer.length
    (set_buffer WriteBufferScenarios.fractional [1; 2; 3]) = 3.
Proof. split; reflexivity. Qed.

(** When the write that [put] triggers fails, the call rejects with the
    client's error after logging it, [onFlush] is not called, and all
    [maxWriteBatchSize] items stay buffered; from then on awaited [put]
    calls only add to the buffer and send nothing. *)
Theorem failed_automatic_flush_stalls {Item Err Db : Type}
    (message : Err -> String.string)
    (db db' : Db) (wb : WriteBuffer.t Item Err Db) (x : Item)
    (cb : result Err unit) (e : Err) (ops : list (Op Item Err)) :
  let full := set_buffer wb (buffer wb ++ [x]) in
  maxWriteBatchSize wb = Integral (Z.of_nat (S (List.length (buffer wb)))) ->
  dynamoDbInstance wb db (params full) = (db', Some e) ->
  Forall is_put ops ->
  put message db wb x cb =
    ([BatchWriteItem (params full) (Some e);
      ConsoleError (String.append "Error: " (message e))],
     db', full, Raise e) /\
  run message ops db' full =
    ([], db', set_buffer wb (buffer wb ++ x :: put_items ops)).
Proof.
  intros full Hfull Hc Hops.
  split.
  - destruct (put_cases message db wb x cb)
      as [[Hne _]|[(_ & d & Hc' & _)|(_ & d & e' & Hc' & Hp)]].
    + exfalso. apply Hne. simpl. rewrite length_app. simpl.
      rewrite Hfull. do 2 f_equal. lia.
    + fold full in Hc'. rewrite Hc in Hc'. discriminate.
    + fold full in Hc', Hp. rewrite Hc in Hc'. inversion Hc'; subst.
      exact Hp.
  - rewrite puts_on_overfull; auto.
    + unfold full, set_buffer. simpl. now rewrite <- app_assoc.
    + apply (integral_limit_passed full _ Hfull).
      unfold full. simpl. rewrite length_app. simpl. lia.
Qed.

(** [onFlush] is only ever called right after a write of exactly
    [maxWriteBatchSize] items that went through: in the events of any
    sequence of awaited calls, whatever precedes an [onFlush] ends with
    such a write. *)
Theorem on_flush_follows_full_write {Item Err Db : Type}
    (message : Err -> String.string) (ops : list (Op Item Err))
    (db : Db) (wb : WriteBuffer.t Item Err Db)
    (tr1 tr2 : list (WriteBuffer.Event Item Err)) :
  fst (fst (run message ops db wb)) = tr1 ++ OnFlush :: tr2 ->
  exists tr0 p,
    tr1 = tr0 ++ [BatchWriteItem p None] /\
    maxWriteBatchSize wb = Integral (Z.of_nat (List.length (items_of p))).
Proof. apply (run_on_flush_guarded message ops db wb). Qed.

End WriteBufferFacts.

(* ================================================================== *)
(** * The circuit breaker *)
(* ================================================================== *)

Module CircuitBreakerFacts.
Import CircuitBreaker.

Section Facts.

Context {F : Type}.
Variables (zero : F) (add sub : F -> F -> F) (inverse : nat -> F).
Variable geb : F -> F -> bool.
Implicit Types (cb : CircuitBreaker.t F) (w : list (option bool)).

Local Abbreviation update' := (update zero add sub inverse geb).
Local Abbreviation act' := (act zero add sub inverse geb).
Local Abbreviation run' := (run zero add sub inverse geb).

Lemma pending_le_length w : pending w <= length w.
Proof.
  induction w as [|[b|] w IH]; simpl; lia.
Qed.

Lemma pending_repeat n : pending (repeat None n) = n.
Proof. induction n; simpl; auto. Qed.

Lemma pending_shift w x :
  pending w - 1 <= pending (tl w ++ [x]).
Proof.
  destruct w as [|[b|] w]; simpl; try lia.
  rewrite Nat.sub_0_r. induction w as [|[b|] w IH]; simpl; lia.
Qed.

(** What [update] can do to the window, the state and the settings. *)
Lemma update_cases now cb failed :
  let cb' := snd (update' now cb failed) in
  retentionSize cb' = retentionSize cb /\
  timeout cb' = timeout cb /\
  threshold cb' = threshold cb /\
  holdInvocations cb' = holdInvocations cb /\
  ((state cb' = Open /\
    failureRetention cb' = repeat None (retentionSize cb) /\
    timeoutEnd cb' = (now + timeout cb)%Z /\
    retentionFailureRate cb' = zero) \/
   (failureRetention cb' = tl (failureRetention cb) ++ [Some failed] /\
    timeoutEnd cb' = timeoutEnd cb /\
    (state cb' = state cb \/
     (state cb = HalfOpen /\ state cb' = Closed /\
      hd_error (failureRetention cb) <> Some None)))).
Proof.
  unfold update.
  destruct (hd_error (failureRetention cb)) as [[[|]|]|] eqn:Eh;
    destruct failed; simpl;
    match goal with
    | |- context [if geb ?a ?b then _ else _] => destruct (geb a b)
    end; simpl;
    try (repeat split; auto; left; repeat split; reflexivity);
    destruct (state cb) eqn:Es; simpl;
    repeat split; auto; right; repeat split; auto;
    right; repeat split; auto; discriminate.
Qed.

Lemma act_settings cb a :
  retentionSize (snd (act' cb a)) = retentionSize cb /\
  timeout (snd (act' cb a)) = timeout cb /\
  threshold (snd (act' cb a)) = threshold cb /\
  holdInvocations (snd (act' cb a)) = holdInvocations cb.
Proof.
  destruct a as [failed now|]; simpl.
  - destruct (update_cases now cb failed) as (H1 & H2 & H3 & H4 & _). auto.
  - auto.
Qed.

Lemma run_act a acts cb :
  snd (run' (a :: acts) cb) = snd (run' acts (snd (act' cb a))).
Proof.
  simpl. destruct (act' cb a) as [log cb1]. simpl.
  destruct (run' acts cb1). reflexivity.
Qed.

Lemma act_window_length cb a :
  1 <= retentionSize cb ->
  length (failureRetention cb) = retentionSize cb ->
  length (failureRetention (snd (act' cb a))) = retentionSize cb.
Proof.
  intros Hn Hl. destruct a as [failed now|]; simpl; [|assumption].
  destruct (update_cases now cb failed)
    as (_ & _ & _ & _ & [(_ & Hw & _)|(Hw & _)]); rewrite Hw.
  - apply repeat_length.
  - rewrite length_app. simpl.
    destruct (failureRetention cb); simpl in *; lia.
Qed.

Lemma run_not_closed acts :
  forall cb,
    state cb <> Closed ->
    length (failureRetention cb) = retentionSize cb ->
    updates acts <= pending (failureRetention cb) ->
    state (snd (run' acts cb)) <> Closed.
Proof.
  induction acts as [|a acts IH]; intros cb Hs Hl Hu; [exact Hs|].
  rewrite run_act. destruct a as [failed now|]; simpl in Hu |- *.
  - assert (Hp : 1 <= pending (failureRetention cb)) by lia.
    assert (Hn : 1 <= retentionSize cb).
    { pose proof (pending_le_length (failureRetention cb)). lia. }
    assert (Hhd : hd_error (failureRetention cb) = Some None).
    { destruct (failureRetention cb) as [|[b|] w]; simpl in Hp; try lia.
      reflexivity. }
    pose proof (act_window_length cb (Update failed now) Hn Hl) as Hl'.
    simpl in Hl'.
    destruct (update_cases now cb failed)
      as (Hsz & _ & _ & _ & [(Hst & Hw & _)|(Hw & _ & Hst)]).
    + apply IH.
      * rewrite Hst. discriminate.
      * now rewrite Hsz.
      * rewrite Hw, pending_repeat.
        pose proof (pending_le_length (failureRetention cb)). lia.
    + apply IH.
      * destruct Hst as [Hst|(_ & _ & Hne)]; [now rewrite Hst|].
        contradiction.
      * now rewrite Hsz.
      * rewrite Hw.
        pose proof (pending_shift (failureRetention cb) (Some failed)). lia.
  - apply IH; simpl; auto. discriminate.
Qed.

End Facts.

(** The window keeps its size: for a breaker whose window has
    [retentionSize >= 1] entries, as the constructor makes it, every
    sequence of [halfOpen] and [update] steps leaves a window of
    [retentionSize] entries and the settings as they were. *)
Theorem window_size_kept {F : Type}
    (zero : F) (add sub : F -> F -> F) (inverse : nat -> F)
    (geb : F -> F -> bool) (acts : list Action) :
  forall cb : CircuitBreaker.t F,
    1 <= retentionSize cb ->
    length (failureRetention cb) = retentionSize cb ->
    length (failureRetention (snd (run zero add sub inverse geb acts cb))) =
      retentionSize cb /\
    retentionSize (snd (run zero add sub inverse geb acts cb)) =
      retentionSize cb /\
    timeout (snd (run zero add sub inverse geb acts cb)) = timeout cb /\
    threshold (snd (run zero add sub inverse geb acts cb)) = threshold cb.
Proof.
  induction acts as [|a acts IH]; intros cb Hn Hl; [simpl; auto|].
  rewrite run_act.
  destruct (act_settings zero add sub inverse geb cb a) as (H1 & H2 & H3 & _).
  pose proof (act_window_length zero add sub inverse geb cb a Hn Hl) as Hl'.
  destruct (IH (snd (act zero add sub inverse geb cb a))) as (I1 & I2 & I3 & I4).
  - now rewrite H1.
  - now rewrite H1.
  - repeat split; congruence.
Qed.

(** Once opened, the breaker does not close before its window has filled
    again: from the state [open] leaves, any sequence of steps with at most
    [retentionSize] updates, whatever their outcomes and whatever the rate
    arithmetic gives, ends in a state other than [Closed]. *)
Theorem no_close_before_window_refilled {F : Type}
    (zero : F) (add sub : F -> F -> F) (inverse : nat -> F)
    (geb : F -> F -> bool) (acts : list Action)
    (cb : CircuitBreaker.t F) (now : Z) :
  updates acts <= retentionSize cb ->
  state (snd (run zero add sub inverse geb acts (snd (open zero now cb)))) <>
  Closed.
Proof.
  intros Hu. apply run_not_closed; simpl.
  - discriminate.
  - apply repeat_length.
  - now rewrite pending_repeat.
Qed.

End CircuitBreakerFacts.

(* ------------------------------------------------------------------ *)
(** ** Instances *)
(* ------------------------------------------------------------------ *)

Lemma batches_within_limit_witness :
  (Z.of_nat (List.length
     (WriteBuffer.buffer
        (snd (WriteBuffer.run WriteBufferScenarios.say
                WriteBufferScenarios.three_puts_and_flush tt
                WriteBufferScenarios.pairs)))) < 2)%Z.
Proof.
  apply (proj2 (WriteBufferFacts.batches_within_limit
                  WriteBufferScenarios.say
                  WriteBufferScenarios.three_puts_and_flush tt
                  WriteBufferScenarios.pairs 2%Z
                  (fun db p => eq_refl) eq_refl eq_refl)).
Defined.

Lemma overfull_buffer_never_flushes_on_put_witness :
  WriteBuffer.run WriteBufferScenarios.say WriteBufferScenarios.two_puts tt
    WriteBufferScenarios.unlimited =
  ([], tt, WriteBuffer.set_buffer WriteBufferScenarios.unlimited [1; 2]).
Proof.
  apply (WriteBufferFacts.overfull_buffer_never_flushes_on_put
           WriteBufferScenarios.say WriteBufferScenarios.two_puts tt
           WriteBufferScenarios.unlimited).
  - simpl. intros n Hn H. injection H as H. lia.
  - repeat constructor.
Defined.

Lemma failed_automatic_flush_stalls_witness :
  WriteBuffer.run WriteBufferScenarios.say WriteBufferScenarios.two_puts tt
    (WriteBuffer.set_buffer WriteBufferScenarios.pairs_refused [1; 2]) =
  ([], tt,
   WriteBuffer.set_buffer WriteBufferScenarios.pairs_refused [1; 2; 1; 2]).
Proof.
  refine (proj2 (WriteBufferFacts.failed_automatic_flush_stalls
                   WriteBufferScenarios.say tt tt
                   (WriteBuffer.set_buffer WriteBufferScenarios.pairs_refused [1])
                   2 (Ok tt) _ WriteBufferScenarios.two_puts _ _ _)).
  - reflexivity.
  - reflexivity.
  - repeat constructor.
Defined.

Lemma on_flush_follows_full_write_witness :
  exists tr0 p,
    [WriteBuffer.BatchWriteItem
       (WriteBuffer.params
          (WriteBuffer.set_buffer WriteBufferScenarios.pairs [1; 2])) None] =
    tr0 ++ [WriteBuffer.BatchWriteItem p (@None String.string)] /\
    WriteBuffer.Integral 2 =
    WriteBuffer.Integral (Z.of_nat (List.length (WriteBuffer.items_of p))).
Proof.
  apply (WriteBufferFacts.on_flush_follows_full_write
           WriteBufferScenarios.say WriteBufferScenarios.two_puts tt
           WriteBufferScenarios.pairs _ []).
  reflexivity.
Defined.

Lemma window_size_kept_witness :
  length (CircuitBreaker.failureRetention
            (snd (CircuitBreaker.run 0 Nat.add Nat.sub
                    CircuitBreakerScenarios.tenths_inverse
                    CircuitBreakerScenarios.tenths_geb
                    CircuitBreakerScenarios.half_open_two_successes
                    CircuitBreakerScenarios.fresh))) = 2.
Proof.
  apply (proj1 (CircuitBreakerFacts.window_size_kept 0 Nat.add Nat.sub
                  CircuitBreakerScenarios.tenths_inverse
                  CircuitBreakerScenarios.tenths_geb
                  CircuitBreakerScenarios.half_open_two_successes
                  CircuitBreakerScenarios.fresh (le_S _ _ (le_n 1)) eq_refl)).
Defined.

Lemma no_close_before_window_refilled_witness :
  CircuitBreaker.state
    (snd (CircuitBreaker.run 0 Nat.add Nat.sub
            CircuitBreakerScenarios.tenths_inverse
            CircuitBreakerScenarios.tenths_geb
            CircuitBreakerScenarios.half_open_two_successes
            (snd (CircuitBreaker.open 0 100 CircuitBreakerScenarios.fresh)))) <>
  CircuitBreaker.Closed.
Proof.
  apply (CircuitBreakerFacts.no_close_before_window_refilled 0 Nat.add Nat.sub
           CircuitBreakerScenarios.tenths_inverse
           CircuitBreakerScenarios.tenths_geb
           CircuitBreakerScenarios.half_open_two_successes
           CircuitBreakerScenarios.fresh 100).
  simpl. lia.
Defined.
